(** * DSAL: the data-store abstraction layer of cortx-dsal

    A shallow embedding of [src/dstore/dstore_base.c] (the positional IO
    core and the facade) and of [src/dstore/plugins/cortx/cortx_dstore.c]
    (the Motr-backed plugin), with the properties of the specification
    stated over it.

    Conventions of the embedding.
    - C integers are [Z]; every conversion the C code performs is written
      out with the wrap functions of [CInt].
    - A [char *] is the list of bytes from the pointer to the end of its
      allocation; [p + k] is [ptr_add p k], and a callee that writes
      through the pointer returns the updated list.
    - The world (backend state, allocator, log) is passed explicitly:
      a C function [int f(args)] becomes [f args : W -> Z * W].
    - Logging and perfc tracing are side-effect-only sinks; they are kept
      only in the plugin functions whose log is part of a property. *)

From Stdlib Require Import ZArith Lia Bool String Ascii.
From Stdlib.Strings Require Import Byte.
From Stdlib Require Import List.
Import ListNotations.
Local Open Scope Z_scope.

(** ** Machine integers *)

Module CInt.

(** [uint32_t] *)
Definition to_uint32 (x : Z) : Z := x mod 4294967296.
(** [size_t] (64-bit unsigned) *)
Definition to_size_t (x : Z) : Z := x mod 18446744073709551616.
(** [ssize_t], [off_t] (64-bit signed) *)
Definition to_ssize_t (x : Z) : Z :=
  (x + 9223372036854775808) mod 18446744073709551616 - 9223372036854775808.
Definition to_off_t (x : Z) : Z := to_ssize_t x.
(** [int] (32-bit signed) *)
Definition to_int (x : Z) : Z := (x + 2147483648) mod 4294967296 - 2147483648.

Definition in_size_t (x : Z) : Prop := 0 <= x < 18446744073709551616.
Definition in_ssize_t (x : Z) : Prop :=
  - 9223372036854775808 <= x < 9223372036854775808.
Definition in_off_t (x : Z) : Prop := in_ssize_t x.

End CInt.
Import CInt.

(** ** errno *)

Definition ENOENT : Z := 2.
Definition ENOMEM : Z := 12.
Definition EINVAL : Z := 22.

(** ** Byte buffers and pointers into them *)

Definition zeros (n : Z) : list byte := repeat x00 (Z.to_nat n).

(** [p + k] *)
Definition ptr_add (p : list byte) (k : Z) : list byte := skipn (Z.to_nat k) p.

(** The allocation [p] after the memory at [p + k] became [tail]. *)
Definition ptr_store (p : list byte) (k : Z) (tail : list byte) : list byte :=
  firstn (Z.to_nat k) p ++ tail.

(** Overwrite the head of [dst] with [data]; a store past the end of the
    allocation (undefined in C) is dropped, so the length never changes. *)
Definition blit (dst data : list byte) : list byte :=
  firstn (length dst) (data ++ skipn (length data) dst).

(** [memcpy(dst, src, n)] *)
Definition memcpy (dst src : list byte) (n : Z) : list byte :=
  blit dst (firstn (Z.to_nat n) src).

(** [memset(dst, c, n)] *)
Definition memset (dst : list byte) (c : byte) (n : Z) : list byte :=
  blit dst (repeat c (Z.to_nat n)).

(** ** Data model (dstore.h, dstore_internal.h, dstore_bufvec.h) *)

(** [dstore_oid_t]: a 128-bit identifier as two 64-bit halves. *)
Definition dstore_oid_t : Type := (Z * Z)%type.

(** [struct dstore_io_buf]: one buffer, its size, its offset in the object. *)
Record dstore_io_buf : Type := {
  buf_data : list byte;
  buf_size : Z;
  buf_offset : Z
}.

(** [struct dstore_io_vec]: parallel arrays of buffers, sizes and offsets.
    [has_data] is the flag read by [dstore_io_vec_flags_has_data]. *)
Record dstore_io_vec : Type := {
  dbufs : list (list byte);
  svec : list Z;
  ovec : list Z;
  nr : Z;
  has_data : bool
}.

(** [enum dstore_io_op_type]. A C enum holds any value of its integer
    type; [DSTORE_IO_OP_OTHER v] is a value that is none of the three
    enumerators. *)
Inductive dstore_io_op_type : Type :=
| DSTORE_IO_OP_WRITE
| DSTORE_IO_OP_READ
| DSTORE_IO_OP_FREE
| DSTORE_IO_OP_OTHER (raw : Z).

(** [struct dstore_obj], with the backend's private suffix [X]
    (the plugin embeds the base record as its first field). *)
Record dstore_obj (X : Type) : Type := {
  obj_oid : dstore_oid_t;
  obj_ext : X
}.
Arguments obj_oid {X}.
Arguments obj_ext {X}.

(** [struct dstore_io_op], with the backend's private suffix [Y]. The
    [data] vector holds the buffers the operation borrows from its
    caller; what the backend leaves in them is read back from here.
    The completion callback is NULL on every path of the facade and is
    not part of the record. *)
Record dstore_io_op (X Y : Type) : Type := {
  op_type : dstore_io_op_type;
  op_obj : dstore_obj X;
  op_data : dstore_io_vec;
  op_ext : Y
}.
Arguments op_type {X Y}.
Arguments op_obj {X Y}.
Arguments op_data {X Y}.
Arguments op_ext {X Y}.

(** The configuration handle: [(section, key, value)] items. *)
Definition collection_item : Type := list (string * string * string).

(** [struct dstore_ops]: the operations table of a backend, restricted to
    the entries the modelled functions call. [io_op_init] returns the rc
    together with what it stored through its [out] parameter. *)
Record dstore_ops (W X Y : Type) : Type := {
  init : collection_item -> W -> Z * W;
  obj_delete : dstore_oid_t -> W -> Z * W;
  io_op_init : dstore_obj X -> dstore_io_op_type -> dstore_io_vec ->
               W -> Z * option (dstore_io_op X Y) * W;
  io_op_submit : dstore_io_op X Y -> W -> Z * dstore_io_op X Y * W;
  io_op_wait : dstore_io_op X Y -> W -> Z * dstore_io_op X Y * W;
  io_op_fini : dstore_io_op X Y -> W -> W;
  obj_get_bsize : dstore_oid_t -> W -> Z
}.
Arguments init {W X Y}.
Arguments obj_delete {W X Y}.
Arguments io_op_init {W X Y}.
Arguments io_op_submit {W X Y}.
Arguments io_op_wait {W X Y}.
Arguments io_op_fini {W X Y}.
Arguments obj_get_bsize {W X Y}.

(** ** The facade and the positional IO core (dstore_base.c) *)

(** [DSAL_MAX_IO_SIZE] *)
Definition DSAL_MAX_IO_SIZE : Z := 1024 * 1024.

Section Core.

Context {W X Y : Type}.

(** The heap: whether the next allocation succeeds. *)
Variable heap_alloc : W -> bool * W.

(** [obj->ds->dstore_ops] of the singleton datastore; the facade
    asserts that the table and the entries it calls are not NULL. *)
Variable ops : dstore_ops W X Y.

(** [calloc(nmemb, size)]: a zero-filled block, or NULL. *)
Definition calloc (nmemb size : Z) (w : W) : option (list byte) * W :=
  let '(ok, w1) := heap_alloc w in
  ((if ok then Some (zeros (to_size_t (nmemb * size))) else None), w1).

(** Modelled from the spec: [dstore_io_buf_init] (dstore_bufvec, not
    in src) constructs a single-buffer IO from (pointer, size, offset);
    the descriptor is allocated, so the call may fail with -ENOMEM. *)
Definition dstore_io_buf_init (data : list byte) (size offset : Z) (w : W)
  : Z * option dstore_io_buf * W :=
  let '(ok, w1) := heap_alloc w in
  if ok
  then (0, Some {| buf_data := firstn (Z.to_nat size) data;
                   buf_size := size; buf_offset := offset |}, w1)
  else (- ENOMEM, None, w1).

(** Modelled from the spec: [dstore_io_buf2vec] (dstore_bufvec, not in
    src) transforms a 1-buffer IO into an IO vector that has data. *)
Definition dstore_io_buf2vec (buf : dstore_io_buf) (w : W)
  : Z * option dstore_io_vec * W :=
  let '(ok, w1) := heap_alloc w in
  if ok
  then (0, Some {| dbufs := [buf_data buf]; svec := [buf_size buf];
                   ovec := [buf_offset buf]; nr := 1; has_data := true |}, w1)
  else (- ENOMEM, None, w1).

(** [dstore_obj_delete(dstore, ctx, oid)] *)
Definition dstore_obj_delete (oid : dstore_oid_t) (w : W) : Z * W :=
  obj_delete ops oid w.

(** [dstore_io_op_init_and_submit(obj, bvec, out, op_type)]. [out] is
    the value of [*out] at entry; the result carries its value at exit.
    A backend whose [io_op_init] returns 0 has stored an operation
    (dstore_io_op_invariant); were it not so, the C code would hand
    NULL to [io_op_submit], and the model stores NULL in [*out]. *)
Definition dstore_io_op_init_and_submit
    (obj : dstore_obj X) (bvec : dstore_io_vec)
    (out : option (dstore_io_op X Y)) (ty : dstore_io_op_type) (w : W)
  : Z * option (dstore_io_op X Y) * W :=
  let '(rc, result, w1) := io_op_init ops obj ty bvec w in
  if negb (rc =? 0) then
    (rc, out, match result with
              | Some r => io_op_fini ops r w1
              | None => w1
              end)
  else
    match result with
    | None => (rc, None, w1)
    | Some r =>
        let '(rc, r, w2) := io_op_submit ops r w1 in
        if negb (rc =? 0) then (rc, out, io_op_fini ops r w2)
        else (rc, Some r, w2)
    end.

Definition dstore_io_op_write obj bvec out (w : W) :=
  dstore_io_op_init_and_submit obj bvec out DSTORE_IO_OP_WRITE w.

Definition dstore_io_op_read obj bvec out (w : W) :=
  dstore_io_op_init_and_submit obj bvec out DSTORE_IO_OP_READ w.

Definition dstore_io_op_wait (op : dstore_io_op X Y) (w : W)
  : Z * dstore_io_op X Y * W :=
  io_op_wait ops op w.

Definition dstore_io_op_fini (op : dstore_io_op X Y) (w : W) : W :=
  io_op_fini ops op w.

Definition __dstore_get_bsize (oid : dstore_oid_t) (w : W) : Z :=
  obj_get_bsize ops oid w.

(** [dstore_get_bsize]: the [ssize_t] result is held in a [size_t]
    local and returned as [ssize_t]. *)
Definition dstore_get_bsize (oid : dstore_oid_t) (w : W) : Z :=
  let rc := to_size_t (__dstore_get_bsize oid w) in
  to_ssize_t rc.

(** [pwrite_aligned(obj, write_buf, buf_size, offset)] *)
Definition pwrite_aligned (obj : dstore_obj X) (write_buf : list byte)
    (buf_size offset : Z) (w : W) : Z * W :=
  let '(rc, buf, w1) := dstore_io_buf_init write_buf buf_size offset w in
  match rc =? 0, buf with
  | true, Some buf =>
      let '(rc, data, w2) := dstore_io_buf2vec buf w1 in
      match rc =? 0, data with
      | true, Some data =>
          let '(rc, wop, w3) := dstore_io_op_write obj data None w2 in
          match rc =? 0, wop with
          | true, Some wop =>
              let '(rc, wop, w4) := dstore_io_op_wait wop w3 in
              (rc, dstore_io_op_fini wop w4)
          | _, Some wop => (rc, dstore_io_op_fini wop w3)
          | _, None => (rc, w3)
          end
      | _, _ => (rc, w2)
      end
  | _, _ => (rc, w1)
  end.

(** [pread_aligned(obj, read_buf, buf_size, offset)]; the second
    component is the memory at [read_buf] when the call returns. *)
Definition pread_aligned (obj : dstore_obj X) (read_buf : list byte)
    (buf_size offset : Z) (w : W) : Z * list byte * W :=
  let '(rc, buf, w1) := dstore_io_buf_init read_buf buf_size offset w in
  match rc =? 0, buf with
  | true, Some buf =>
      let '(rc, data, w2) := dstore_io_buf2vec buf w1 in
      match rc =? 0, data with
      | true, Some data =>
          let '(rc, rop, w3) := dstore_io_op_read obj data None w2 in
          match rc =? 0, rop with
          | true, Some rop =>
              let '(rc, rop, w4) := dstore_io_op_wait rop w3 in
              (rc,
               blit read_buf (hd (buf_data buf) (dbufs (op_data rop))),
               dstore_io_op_fini rop w4)
          | _, Some rop => (rc, read_buf, dstore_io_op_fini rop w3)
          | _, None => (rc, read_buf, w3)
          end
      | _, _ => (rc, read_buf, w2)
      end
  | _, _ => (rc, read_buf, w1)
  end.

(** The [for] loop of [pread_aligned_handle_holes]: [n] iterations are
    left and [i] is the loop index. *)
Fixpoint reread_blocks (obj : dstore_obj X) (bs offset : Z) (n : nat)
    (i : Z) (read_buf : list byte) (w : W) : Z * list byte * W :=
  match n with
  | O => (0, read_buf, w)
  | S n' =>
      let pos := to_size_t (i * bs) in
      let '(rc, blk, w1) :=
        pread_aligned obj (ptr_add read_buf pos) bs
                      (to_off_t (to_size_t (offset + pos))) w in
      let read_buf := ptr_store read_buf pos blk in
      if rc =? 0 then reread_blocks obj bs offset n' (i + 1) read_buf w1
      else if rc =? - ENOENT then
        reread_blocks obj bs offset n' (i + 1)
          (ptr_store read_buf pos (memset (ptr_add read_buf pos) x00 bs)) w1
      else (rc, read_buf, w1)
  end.

(** [pread_aligned_handle_holes(obj, read_buf, buf_size, offset, bs)] *)
Definition pread_aligned_handle_holes (obj : dstore_obj X)
    (read_buf : list byte) (buf_size offset bs : Z) (w : W)
  : Z * list byte * W :=
  let '(rc, read_buf, w1) := pread_aligned obj read_buf buf_size offset w in
  if rc =? - ENOENT then
    let count := to_int (buf_size / bs) in
    reread_blocks obj bs offset (Z.to_nat count) 0 read_buf w1
  else (rc, read_buf, w1).

(** [pwrite_unaligned(obj, offset, count, bs, buf)] *)
Definition pwrite_unaligned (obj : dstore_obj X) (offset count bs : Z)
    (buf : list byte) (w : W) : Z * W :=
  let left_blk_num := to_uint32 (to_size_t offset / bs) in
  let right_blk_num := to_uint32 (to_size_t (offset + count) / bs) in
  let right_blk_num :=
    if to_size_t (offset + count) mod bs =? 0
    then to_uint32 (right_blk_num - 1) else right_blk_num in
  let num_of_blks := to_uint32 (right_blk_num - left_blk_num + 1) in
  match calloc (to_size_t (num_of_blks * bs)) 1 w with
  | (None, w1) => (- ENOMEM, w1)
  | (Some tmpbuf, w1) =>
      (* IO is not already left aligned, read left most block *)
      let '(rc, tmpbuf, w2) :=
        if negb (to_size_t offset mod bs =? 0) then
          pread_aligned_handle_holes obj tmpbuf bs
            (to_off_t (to_size_t (left_blk_num * bs))) bs w1
        else (0, tmpbuf, w1) in
      if rc <? 0 then (rc, w2) else
      (* IO is not already right aligned, read right most block *)
      let '(rc, tmpbuf, w3) :=
        if negb (to_size_t (offset + count) mod bs =? 0)
           && negb (left_blk_num =? right_blk_num) then
          let pos := to_size_t (to_uint32 (num_of_blks - 1) * bs) in
          let '(rc, blk, w') :=
            pread_aligned_handle_holes obj (ptr_add tmpbuf pos) bs
              (to_off_t (to_size_t (right_blk_num * bs))) bs w2 in
          (rc, ptr_store tmpbuf pos blk, w')
        else (rc, tmpbuf, w2) in
      if rc <? 0 then (rc, w3) else
      let buf_pos :=
        to_uint32 (to_size_t (offset - to_size_t (left_blk_num * bs))) in
      let tmpbuf :=
        ptr_store tmpbuf buf_pos (memcpy (ptr_add tmpbuf buf_pos) buf count) in
      (* Do one write which is both left and right aligned *)
      pwrite_aligned obj tmpbuf (to_size_t (num_of_blks * bs))
                     (to_off_t (to_size_t (left_blk_num * bs))) w3
  end.

(** [pread_unaligned] from "read the right most block" to [out]. *)
Definition read_right_most (obj : dstore_obj X) (bs : Z)
    (tmpbuf : list byte) (rc count offset buf_pos : Z) (buf : list byte)
    (w : W) : Z * list byte * W :=
  if count =? 0 then (rc, buf, w) (* Io is already right aligned *)
  else
    let '(rc, tmpbuf, w1) :=
      pread_aligned_handle_holes obj tmpbuf bs offset bs w in
    if rc <? 0 then (rc, buf, w1)
    else (rc,
          ptr_store buf buf_pos (memcpy (ptr_add buf buf_pos) tmpbuf count),
          w1).

(** [pread_unaligned] from the label [continous_aligned_read]. *)
Definition continous_aligned_read (obj : dstore_obj X) (bs : Z)
    (tmpbuf : list byte) (rc count offset buf_pos : Z) (buf : list byte)
    (w : W) : Z * list byte * W :=
  let cont_blk_count := to_uint32 (count / bs) in
  if 0 <? cont_blk_count then
    let '(rc, run, w1) :=
      pread_aligned_handle_holes obj (ptr_add buf buf_pos)
        (to_size_t (cont_blk_count * bs)) offset bs w in
    let buf := ptr_store buf buf_pos run in
    if rc <? 0 then (rc, buf, w1)
    else
      read_right_most obj bs tmpbuf rc
        (to_size_t (count - to_size_t (cont_blk_count * bs)))
        (to_off_t (to_size_t (offset + to_size_t (cont_blk_count * bs))))
        (to_uint32 (to_size_t (buf_pos + to_size_t (cont_blk_count * bs))))
        buf w1
  else read_right_most obj bs tmpbuf rc count offset buf_pos buf w.

(** [pread_unaligned(obj, offset, count, bs, buf)]; the second
    component is the memory at [buf] when the call returns. *)
Definition pread_unaligned (obj : dstore_obj X) (offset count bs : Z)
    (buf : list byte) (w : W) : Z * list byte * W :=
  match calloc bs 1 w with
  | (None, w1) => (- ENOMEM, buf, w1)
  | (Some tmpbuf, w1) =>
      if (to_size_t offset mod bs =? 0) && (bs <=? count) then
        (* IO is already left aligned *)
        continous_aligned_read obj bs tmpbuf 0 count offset 0 buf w1
      else
        let left_blk_num := to_uint32 (to_size_t offset / bs) in
        let left_bytes :=
          to_uint32 (to_size_t (offset - to_size_t (left_blk_num * bs))) in
        let right_bytes := to_uint32 (to_size_t (bs - left_bytes)) in
        let read_count :=
          to_uint32 (if count <? right_bytes then count else right_bytes) in
        (* read left most block *)
        let '(rc, tmpbuf, w2) :=
          pread_aligned_handle_holes obj tmpbuf bs
            (to_off_t (to_size_t (left_blk_num * bs))) bs w1 in
        if rc <? 0 then (rc, buf, w2) else
        let buf := memcpy buf (ptr_add tmpbuf left_bytes) read_count in
        if count <=? right_bytes then (rc, buf, w2) else
        continous_aligned_read obj bs tmpbuf rc
          (to_size_t (count - read_count))
          (to_off_t (offset + read_count))
          read_count buf w2
  end.

Definition __dstore_pwrite (obj : dstore_obj X) (offset count bs : Z)
    (buf : list byte) (w : W) : Z * W :=
  if (count mod bs =? 0) && (to_size_t offset mod bs =? 0)
  then pwrite_aligned obj buf count offset w
  else pwrite_unaligned obj offset count bs buf w.

Definition dstore_pwrite (obj : dstore_obj X) (offset count bs : Z)
    (buf : list byte) (w : W) : Z * W :=
  __dstore_pwrite obj offset count bs buf w.

Definition __dstore_pread (obj : dstore_obj X) (offset count bs : Z)
    (buf : list byte) (w : W) : Z * list byte * W :=
  if (count mod bs =? 0) && (to_size_t offset mod bs =? 0)
  then pread_aligned_handle_holes obj buf count offset bs w
  else pread_unaligned obj offset count bs buf w.

Definition dstore_pread (obj : dstore_obj X) (offset count bs : Z)
    (buf : list byte) (w : W) : Z * list byte * W :=
  __dstore_pread obj offset count bs buf w.

(** The [for] loop of [dstore_obj_shrink]: [n] iterations are left;
    the result carries the value of [index] when the loop is left. *)
Fixpoint shrink_loop (obj : dstore_obj X) (offset bsize : Z)
    (tmp_buf : list byte) (n : nat) (index : Z) (w : W) : Z * Z * W :=
  match n with
  | O => (0, index, w)
  | S n' =>
      let '(rc, w1) :=
        dstore_pwrite obj
          (to_off_t (to_size_t (offset + to_size_t (index * DSAL_MAX_IO_SIZE))))
          DSAL_MAX_IO_SIZE bsize tmp_buf w in
      if negb (rc =? 0) then (rc, index, w1)
      else shrink_loop obj offset bsize tmp_buf n' (index + 1) w1
  end.

(** [dstore_obj_shrink(obj, old_size, new_size)]. [rc] is read
    uninitialised only when [count] is 0, which [dstore_obj_resize]
    excludes; the model returns the loop's 0 there. *)
Definition dstore_obj_shrink (obj : dstore_obj X) (old_size new_size : Z)
    (w : W) : Z * W :=
  let bsize := to_size_t (dstore_get_bsize (obj_oid obj) w) in
  let count := to_size_t (old_size - new_size) in
  let offset := to_off_t new_size in
  match calloc 1 DSAL_MAX_IO_SIZE w with
  | (None, w1) => (- ENOMEM, w1)
  | (Some tmp_buf, w1) =>
      let nr_request := count / DSAL_MAX_IO_SIZE in
      let tail_size :=
        to_size_t (count - to_size_t (nr_request * DSAL_MAX_IO_SIZE)) in
      let '(rc, index, w2) :=
        shrink_loop obj offset bsize tmp_buf (Z.to_nat nr_request) 0 w1 in
      if negb (rc =? 0) then (rc, w2)
      else if negb (tail_size =? 0) then
        (* Write down remaining data *)
        dstore_pwrite obj
          (to_off_t (to_size_t (offset + to_size_t (index * DSAL_MAX_IO_SIZE))))
          tail_size bsize tmp_buf w2
      else (rc, w2)
  end.

(** [dstore_obj_resize(obj, old_size, new_size)] *)
Definition dstore_obj_resize (obj : dstore_obj X) (old_size new_size : Z)
    (w : W) : Z * W :=
  if old_size <=? new_size then (0, w)
  else dstore_obj_shrink obj old_size new_size w.

End Core.

(** ** The Motr client library, as the plugin sees it

    cortx_dstore.c is written against the Motr client (the m0 functions), the
    m0store helpers of cortx-utils and its logger. They are not part of
    the repository; the plugin is embedded over this interface. An
    operation [COP] owns the memory of its buffer vector while it is in
    flight ([m0_op_bufs]); [&obj->cobj] is a value of [COBJ]. *)

Inductive m0_obj_opcode : Type :=
| M0_OC_READ
| M0_OC_WRITE
| M0_OC_FREE
| M0_OC_indeterminate. (* the uninitialised local of the default case *)

Inductive log_level : Type := LOG_ERR | LOG_WARN | LOG_DEBUG.

Record m0_api (M COBJ COP : Type) : Type := {
  m0init : collection_item -> M -> Z * M;
  (** M0_ALLOC_PTR: whether the allocation succeeds *)
  m0_alloc_ptr : M -> bool * M;
  m0store_delete_object : dstore_oid_t -> M -> Z * M;
  m0store_get_bsize : dstore_oid_t -> M -> Z;
  (** m0_obj_op(obj, opcode, ext, data, attr, mask, flags, &op): the
      extents are (index, count) pairs; [data] is NULL for FREE *)
  m0_obj_op : COBJ -> m0_obj_opcode -> list (Z * Z) ->
              option (list (list byte)) -> M -> Z * option COP * M;
  m0_op_launch : COP -> M -> COP * M;
  m0_op_wait : COP -> M -> Z * COP * M;
  m0_rc : COP -> Z;
  m0_op_bufs : COP -> list (list byte);
  m0_op_fini : COP -> M -> M;
  m0_op_free : COP -> M -> M;
  m0_log : log_level -> string -> M -> M
}.
Arguments m0init {M COBJ COP}.
Arguments m0_alloc_ptr {M COBJ COP}.
Arguments m0store_delete_object {M COBJ COP}.
Arguments m0store_get_bsize {M COBJ COP}.
Arguments m0_obj_op {M COBJ COP}.
Arguments m0_op_launch {M COBJ COP}.
Arguments m0_op_wait {M COBJ COP}.
Arguments m0_rc {M COBJ COP}.
Arguments m0_op_bufs {M COBJ COP}.
Arguments m0_op_fini {M COBJ COP}.
Arguments m0_op_free {M COBJ COP}.
Arguments m0_log {M COBJ COP}.

(** ** The CORTX plugin (plugins/cortx/cortx_dstore.c) *)

(** The private suffix of [struct cortx_io_op]. [vec] and [attrs] hold
    copies of the references of the base vector and no state of their
    own; the buffers are read through [cop]. *)
Record cortx_io_op (COP : Type) : Type := { cop : COP }.
Arguments cop {COP}.

Section Cortx.

Context {M COBJ COP : Type}.
Variable m0 : m0_api M COBJ COP.

Local Abbreviation cortx_dstore_obj := (dstore_obj COBJ).
Local Abbreviation cortx_op := (dstore_io_op COBJ (cortx_io_op COP)).

(** M0_IN(type, (DSTORE_IO_OP_WRITE, DSTORE_IO_OP_READ, DSTORE_IO_OP_FREE)) *)
Definition io_op_type_supported (type : dstore_io_op_type) : bool :=
  match type with
  | DSTORE_IO_OP_WRITE | DSTORE_IO_OP_READ | DSTORE_IO_OP_FREE => true
  | DSTORE_IO_OP_OTHER _ => false
  end.

Definition dstore_io_op_type2m0_op_type (type : dstore_io_op_type)
  : m0_obj_opcode :=
  match type with
  | DSTORE_IO_OP_WRITE => M0_OC_WRITE
  | DSTORE_IO_OP_READ => M0_OC_READ
  | DSTORE_IO_OP_FREE => M0_OC_FREE
  | DSTORE_IO_OP_OTHER _ => M0_OC_indeterminate (* dassert(0) *)
  end.

(** The extents of an IO vector: [iv_index] is [ovec], [v_count] is [svec]. *)
Definition extents_of (bvec : dstore_io_vec) : list (Z * Z) :=
  combine (ovec bvec) (svec bvec).

Definition cortx_ds_init (cfg_items : collection_item) (m : M) : Z * M :=
  m0init m0 cfg_items m.

(** [cortx_ds_obj_del(dstore, ctx, oid)] *)
Definition cortx_ds_obj_del (oid : dstore_oid_t) (m : M) : Z * M :=
  let fid := oid in
  let '(rc, m1) := m0store_delete_object m0 fid m in
  let m2 :=
    if negb (rc =? 0) then
      if rc =? - ENOENT
      then m0_log m0 LOG_WARN "Non-existing obj" m1
      else m0_log m0 LOG_ERR "Unable to delete object" m1
    else m1 in
  (rc, m0_log m0 LOG_DEBUG "EXIT" m2).

(** [cortx_ds_io_op_init(dobj, type, bvec, cb, cb_ctx, out)]; the
    second component is what the call stored in [*out] (None: nothing).
    A successful [m0_obj_op] has stored an operation in [&result->cop]. *)
Definition cortx_ds_io_op_init (dobj : cortx_dstore_obj)
    (type : dstore_io_op_type) (bvec : dstore_io_vec) (m : M)
  : Z * option cortx_op * M :=
  if negb (io_op_type_supported type) then
    let m1 := m0_log m0 LOG_ERR "Unsupported IO operation" m in
    (- EINVAL, None, m0_log m0 LOG_DEBUG "io_op_init" m1)
  else
    let '(ok, m1) := m0_alloc_ptr m0 m in
    if negb ok then (- ENOMEM, None, m0_log m0 LOG_DEBUG "io_op_init" m1)
    else
      let '(rc, c, m2) :=
        if has_data bvec then
          (* READ/WRITE Operation *)
          m0_obj_op m0 (obj_ext dobj) (dstore_io_op_type2m0_op_type type)
                    (extents_of bvec) (Some (dbufs bvec)) m1
        else
          (* Free operation *)
          m0_obj_op m0 (obj_ext dobj) (dstore_io_op_type2m0_op_type type)
                    (extents_of bvec) None m1 in
      match rc =? 0, c with
      | true, Some c =>
          (rc,
           Some {| op_type := type; op_obj := dobj; op_data := bvec;
                   op_ext := {| cop := c |} |},
           m0_log m0 LOG_DEBUG "io_op_init" m2)
      | _, _ => (rc, None, m0_log m0 LOG_DEBUG "io_op_init" m2)
      end.

(** The base vector and the Motr buffer vector are the same memory:
    after a Motr call the base vector shows what the operation holds. *)
Definition sync_bufs (op : cortx_op) (c : COP) : cortx_op :=
  {| op_type := op_type op; op_obj := op_obj op;
     op_data :=
       if has_data (op_data op) then
         {| dbufs := m0_op_bufs m0 c; svec := svec (op_data op);
            ovec := ovec (op_data op); nr := nr (op_data op);
            has_data := true |}
       else op_data op;
     op_ext := {| cop := c |} |}.

Definition cortx_ds_io_op_submit (dop : cortx_op) (m : M)
  : Z * cortx_op * M :=
  let '(c, m1) := m0_op_launch m0 (cop (op_ext dop)) m in
  (0, sync_bufs dop c, m0_log m0 LOG_DEBUG "io_op_submit" m1).

Definition cortx_ds_io_op_wait (dop : cortx_op) (m : M)
  : Z * cortx_op * M :=
  let '(rc, c, m1) := m0_op_wait m0 (cop (op_ext dop)) m in
  if negb (rc =? 0) then
    (rc, sync_bufs dop c, m0_log m0 LOG_DEBUG "io_op_wait" m1)
  else
    (m0_rc m0 c, sync_bufs dop c, m0_log m0 LOG_DEBUG "io_op_wait" m1).

Definition cortx_ds_io_op_fini (dop : cortx_op) (m : M) : M :=
  m0_op_free m0 (cop (op_ext dop)) (m0_op_fini m0 (cop (op_ext dop)) m).

Definition cortx_ds_obj_get_bsize (oid : dstore_oid_t) (m : M) : Z :=
  let fid := oid in
  to_ssize_t (m0store_get_bsize m0 fid m).

Definition cortx_dstore_ops : dstore_ops M COBJ (cortx_io_op COP) :=
  {| init := cortx_ds_init;
     obj_delete := cortx_ds_obj_del;
     io_op_init := cortx_ds_io_op_init;
     io_op_submit := cortx_ds_io_op_submit;
     io_op_wait := cortx_ds_io_op_wait;
     io_op_fini := cortx_ds_io_op_fini;
     obj_get_bsize := cortx_ds_obj_get_bsize |}.

End Cortx.

(** ** The backend registry and [dstore_init] (dstore_base.c) *)

(** [strncmp(s1, s2, n)] on C strings (no embedded NUL). *)
Fixpoint strncmp (s1 s2 : string) (n : nat) : Z :=
  match n with
  | O => 0
  | S n' =>
      match s1, s2 with
      | EmptyString, EmptyString => 0
      | EmptyString, String c2 _ => - Z.of_N (N_of_ascii c2)
      | String c1 _, EmptyString => Z.of_N (N_of_ascii c1)
      | String c1 r1, String c2 r2 =>
          if Ascii.eqb c1 c2 then strncmp r1 r2 n'
          else Z.of_N (N_of_ascii c1) - Z.of_N (N_of_ascii c2)
      end
  end.

Definition strlen (s : string) : nat := String.length s.

(** libini_config's [get_config_item(section, name, cfg, &item)]: rc 0,
    and the item, or NULL when the key is not in the collection. *)
Definition get_config_item (section name : string) (cfg : collection_item)
  : Z * option (string * string * string) :=
  (0, find (fun it => String.eqb (fst (fst it)) section
                      && String.eqb (snd (fst it)) name) cfg).

Definition get_string_config_value (item : string * string * string) : string :=
  snd item.

(** What a call does: it returns, or an [assert] stops the process. *)
Inductive outcome (A : Type) : Type :=
| Returned (a : A)
| AssertFailed.
Arguments Returned {A}.
Arguments AssertFailed {A}.

(** [struct dstore_module]; the table ends at the { NULL, NULL } row. *)
Record dstore_module (W X Y : Type) : Type := {
  mod_type : string;
  mod_ops : dstore_ops W X Y
}.
Arguments mod_type {W X Y}.
Arguments mod_ops {W X Y}.

(** [struct dstore]; NULL fields are [None]. *)
Record dstore (W X Y : Type) : Type := {
  ds_type : option string;
  ds_cfg : option collection_item;
  ds_flags : Z;
  ds_ops : option (dstore_ops W X Y)
}.
Arguments ds_type {W X Y}.
Arguments ds_cfg {W X Y}.
Arguments ds_flags {W X Y}.
Arguments ds_ops {W X Y}.

Section Registry.

Context {W X Y : Type}.

(** The module loop of [dstore_init]: the ops of the first row whose
    name agrees with [dstore_type] on [strlen(dstore_type)] characters. *)
Fixpoint select_module (dstore_type : string)
    (modules : list (dstore_module W X Y)) : option (dstore_module W X Y) :=
  match modules with
  | [] => None
  | m :: rest =>
      if strncmp dstore_type (mod_type m) (strlen dstore_type) =? 0
      then Some m
      else select_module dstore_type rest
  end.

(** [dstore_init(cfg, flags)] over the table [modules]; [g] is the
    singleton [g_dstore] at entry, the result carries it at exit. *)
Definition dstore_init_with (modules : list (dstore_module W X Y))
    (cfg : collection_item) (flags : Z) (g : dstore W X Y) (w : W)
  : outcome (Z * dstore W X Y * W) :=
  let '(rc, item) := get_config_item "dstore" "type" cfg in
  if negb (rc =? 0) then Returned (rc, g, w)
  else
    match item with
    | None => Returned (- EINVAL, g, w) (* dstore type not specified *)
    | Some item =>
        let dstore_type := get_string_config_value item in
        let dstore_ops := option_map mod_ops (select_module dstore_type modules) in
        let g := {| ds_type := Some dstore_type; ds_cfg := Some cfg;
                    ds_flags := flags; ds_ops := dstore_ops |} in
        match ds_ops g with
        | None => AssertFailed (* assert(dstore->dstore_ops != NULL) *)
        | Some o =>
            let '(rc, w1) := init o cfg w in
            if negb (rc =? 0) then Returned (rc, g, w1)
            else Returned (0, g, w1)
        end
    end.

End Registry.

Section DstoreInit.

Context {M COBJ COP : Type}.
Variable m0 : m0_api M COBJ COP.

(** [dstore_modules] *)
Definition dstore_modules : list (dstore_module M COBJ (cortx_io_op COP)) :=
  [ {| mod_type := "cortx"; mod_ops := cortx_dstore_ops m0 |} ].

Definition dstore_init (cfg : collection_item) (flags : Z)
    (g : dstore M COBJ (cortx_io_op COP)) (m : M) :=
  dstore_init_with dstore_modules cfg flags g m.

End DstoreInit.

(** ** An in-memory Motr

    A model of the store behind the interface [m0_api], after the
    contract the core relies on (spec 4.6 and the comment of
    [pread_aligned_handle_holes]): an object is a sparse map of written
    bytes; a write stores its extents; a read of extents that are written
    throughout delivers them, and a read that touches an unwritten byte,
    or a missing object, fails with -ENOENT and leaves the buffers as
    they were. An operation is executed when it is launched. Allocations
    succeed while [heap_left] lasts. *)

Module MemMotr.

Record world : Type := {
  objects : dstore_oid_t -> option (Z -> option byte);
  heap_left : nat;
  log : list (log_level * string);
  bsize : Z
}.

Inductive op_state : Type :=
| OS_INITIALISED | OS_LAUNCHED | OS_STABLE | OS_FAILED.

Record op : Type := {
  o_fid : dstore_oid_t;
  o_code : m0_obj_opcode;
  o_ext : list (Z * Z);
  o_bufs : list (list byte);
  o_rc : Z;
  o_state : op_state
}.

Definition oid_eqb (a b : dstore_oid_t) : bool :=
  (fst a =? fst b) && (snd a =? snd b).

Definition set_objects (w : world) objs : world :=
  {| objects := objs; heap_left := heap_left w; log := log w;
     bsize := bsize w |}.

Definition update_object (w : world) (fid : dstore_oid_t)
    (d : option (Z -> option byte)) : world :=
  set_objects w (fun k => if oid_eqb k fid then d else objects w k).

Definition heap_alloc (w : world) : bool * world :=
  match heap_left w with
  | O => (false, w)
  | S n => (true, {| objects := objects w; heap_left := n; log := log w;
                     bsize := bsize w |})
  end.

Definition add_log (l : log_level) (msg : string) (w : world) : world :=
  {| objects := objects w; heap_left := heap_left w;
     log := log w ++ [(l, msg)]; bsize := bsize w |}.

Definition write_extent (d : Z -> option byte) (index count : Z)
    (buf : list byte) : Z -> option byte :=
  fun k =>
    if (index <=? k) && (k <? index + count)
    then Some (nth (Z.to_nat (k - index)) buf x00)
    else d k.

Definition free_extent (d : Z -> option byte) (index count : Z)
  : Z -> option byte :=
  fun k => if (index <=? k) && (k <? index + count) then None else d k.

Definition is_written (d : Z -> option byte) (k : Z) : bool :=
  match d k with Some _ => true | None => false end.

Definition extent_written (d : Z -> option byte) (index count : Z) : bool :=
  forallb (fun i => is_written d (index + Z.of_nat i))
          (seq 0 (Z.to_nat count)).

Definition byte_at (d : Z -> option byte) (k : Z) : byte :=
  match d k with Some b => b | None => x00 end.

Definition read_extent (d : Z -> option byte) (index count : Z) : list byte :=
  map (fun i => byte_at d (index + Z.of_nat i)) (seq 0 (Z.to_nat count)).

Fixpoint write_extents (d : Z -> option byte) (ext : list (Z * Z))
    (bufs : list (list byte)) : Z -> option byte :=
  match ext, bufs with
  | (index, count) :: ext', buf :: bufs' =>
      write_extents (write_extent d index count buf) ext' bufs'
  | _, _ => d
  end.

Definition free_extents (d : Z -> option byte) (ext : list (Z * Z))
  : Z -> option byte :=
  fold_left (fun d e => free_extent d (fst e) (snd e)) ext d.

Definition m0_obj_op (cobj : dstore_oid_t) (code : m0_obj_opcode)
    (ext : list (Z * Z)) (data : option (list (list byte))) (w : world)
  : Z * option op * world :=
  let '(ok, w1) := heap_alloc w in
  if ok then
    (0, Some {| o_fid := cobj; o_code := code; o_ext := ext;
                o_bufs := match data with Some b => b | None => [] end;
                o_rc := 0; o_state := OS_INITIALISED |}, w1)
  else (- ENOMEM, None, w1).

Definition completed (c : op) (rc : Z) (bufs : list (list byte)) : op :=
  {| o_fid := o_fid c; o_code := o_code c; o_ext := o_ext c;
     o_bufs := bufs; o_rc := rc; o_state := OS_LAUNCHED |}.

Definition m0_op_launch (c : op) (w : world) : op * world :=
  match objects w (o_fid c) with
  | None => (completed c (- ENOENT) (o_bufs c), w)
  | Some d =>
      match o_code c with
      | M0_OC_WRITE =>
          (completed c 0 (o_bufs c),
           update_object w (o_fid c)
             (Some (write_extents d (o_ext c) (o_bufs c))))
      | M0_OC_READ =>
          if forallb (fun e => extent_written d (fst e) (snd e)) (o_ext c)
          then (completed c 0
                  (map (fun e => read_extent d (fst e) (snd e)) (o_ext c)),
                w)
          else (completed c (- ENOENT) (o_bufs c), w)
      | M0_OC_FREE =>
          (completed c 0 (o_bufs c),
           update_object w (o_fid c) (Some (free_extents d (o_ext c))))
      | M0_OC_indeterminate => (completed c (- EINVAL) (o_bufs c), w)
      end
  end.

Definition m0_op_wait (c : op) (w : world) : Z * op * world :=
  (0,
   {| o_fid := o_fid c; o_code := o_code c; o_ext := o_ext c;
      o_bufs := o_bufs c; o_rc := o_rc c;
      o_state := if o_rc c =? 0 then OS_STABLE else OS_FAILED |},
   w).

Definition m0store_delete_object (fid : dstore_oid_t) (w : world)
  : Z * world :=
  match objects w fid with
  | Some _ => (0, update_object w fid None)
  | None => (- ENOENT, w)
  end.

Definition api : m0_api world dstore_oid_t op :=
  Build_m0_api world dstore_oid_t op
    (fun _ w => (0, w))       (* m0init *)
    heap_alloc                (* M0_ALLOC_PTR *)
    m0store_delete_object
    (fun _ w => bsize w)      (* m0store_get_bsize *)
    m0_obj_op
    m0_op_launch
    m0_op_wait
    o_rc                      (* m0_rc *)
    o_bufs                    (* the buffer vector of the operation *)
    (fun _ w => w)            (* m0_op_fini *)
    (fun _ w => w)            (* m0_op_free *)
    add_log.

(** The facade over the plugin over this store. *)
Definition ops := cortx_dstore_ops api.

Definition obj (oid : dstore_oid_t) : dstore_obj dstore_oid_t :=
  {| obj_oid := oid; obj_ext := oid |}.

Definition pwrite := dstore_pwrite heap_alloc ops.
Definition pread := dstore_pread heap_alloc ops.
Definition resize := dstore_obj_resize heap_alloc ops.

(** A store holding the single, empty object [oid]. *)
Definition fresh (oid : dstore_oid_t) (heap : nat) (bs : Z) : world :=
  {| objects := fun k => if oid_eqb k oid then Some (fun _ => None) else None;
     heap_left := heap; log := []; bsize := bs |}.

End MemMotr.

(** ** Objects in open state (dstore_base.c, cortx_dstore.c)

    The entries of [struct dstore_ops] behind the datastore's end of
    life, the creation and the identity of objects and their open
    state, and the part of the Motr interface the plugin implements
    them with. A [struct dstore_obj *] is an [obj_ref]: the address of
    the allocation and the object it holds. *)

Record obj_ref (PTR X : Type) : Type := {
  ref_ptr : PTR;
  ref_obj : dstore_obj X
}.
Arguments ref_ptr {PTR X}.
Arguments ref_obj {PTR X}.

(** [obj_open] returns the rc together with what it stored through its
    [out] parameter; [obj_get_id] takes the identifier behind its [oid]
    parameter and returns what the call left there. *)
Record dstore_obj_ops (W X PTR : Type) : Type := {
  fini : W -> Z * W;
  obj_create : dstore_oid_t -> W -> Z * W;
  obj_get_id : dstore_oid_t -> W -> Z * dstore_oid_t * W;
  obj_open : dstore_oid_t -> W -> Z * option (obj_ref PTR X) * W;
  obj_close : obj_ref PTR X -> W -> Z * W
}.
Arguments fini {W X PTR}.
Arguments obj_create {W X PTR}.
Arguments obj_get_id {W X PTR}.
Arguments obj_open {W X PTR}.
Arguments obj_close {W X PTR}.

Section ObjectFacade.

Context {W X PTR : Type}.
Variable oops : dstore_obj_ops W X PTR.

(** [dstore_fini(dstore)] *)
Definition dstore_fini (w : W) : Z * W := fini oops w.

(** [dstore_obj_create(dstore, ctx, oid)] *)
Definition dstore_obj_create (oid : dstore_oid_t) (w : W) : Z * W :=
  obj_create oops oid w.

(** [dstore_get_new_objid(dstore, oid)] *)
Definition dstore_get_new_objid (oid : dstore_oid_t) (w : W)
  : Z * dstore_oid_t * W :=
  obj_get_id oops oid w.

(** [dstore_obj_close(obj)] *)
Definition dstore_obj_close (obj : obj_ref PTR X) (w : W) : Z * W :=
  obj_close oops obj w.

(** [dstore_obj_open(dstore, oid, out)]. [out] is the value of [*out]
    at entry; the result carries its value at exit. A backend whose
    [obj_open] returns 0 has stored an object; were it not so, the C
    code would write through NULL, and the model stores NULL in
    [*out]. *)
Definition dstore_obj_open (oid : dstore_oid_t)
    (out : option (obj_ref PTR X)) (w : W)
  : Z * option (obj_ref PTR X) * W :=
  let '(rc, result, w1) := obj_open oops oid w in
  if negb (rc =? 0) then
    (rc, out, match result with
              | Some r => snd (dstore_obj_close r w1)
              | None => w1
              end)
  else
    match result with
    | None => (rc, None, w1)
    | Some r =>
        (* result->ds = dstore; result->oid = *oid; *)
        (rc,
         Some {| ref_ptr := ref_ptr r;
                 ref_obj := {| obj_oid := oid;
                               obj_ext := obj_ext (ref_obj r) |} |},
         w1)
    end.

End ObjectFacade.

(** The Motr client and the m0store helpers behind these entries.
    [M0_ALLOC_PTR] returns zero-filled memory or NULL; [m0_free]
    accepts NULL; [m0store_obj_open] fills [&obj->cobj]. *)
Record m0_obj_api (M COBJ PTR : Type) : Type := {
  m0fini : M -> M;
  m0_ufid_get : dstore_oid_t -> M -> Z * dstore_oid_t * M;
  m0store_create_object : dstore_oid_t -> M -> Z * M;
  m0_alloc_obj : M -> option PTR * M;
  m0_free : option PTR -> M -> M;
  m0store_obj_open : dstore_oid_t -> M -> Z * COBJ * M;
  m0store_obj_close : COBJ -> M -> M
}.
Arguments m0fini {M COBJ PTR}.
Arguments m0_ufid_get {M COBJ PTR}.
Arguments m0store_create_object {M COBJ PTR}.
Arguments m0_alloc_obj {M COBJ PTR}.
Arguments m0_free {M COBJ PTR}.
Arguments m0store_obj_open {M COBJ PTR}.
Arguments m0store_obj_close {M COBJ PTR}.

Section CortxObjects.

Context {M COBJ PTR : Type}.
Variable m0o : m0_obj_api M COBJ PTR.

(** [cortx_ds_obj_get_id(dstore, oid)] *)
Definition cortx_ds_obj_get_id (oid : dstore_oid_t) (m : M)
  : Z * dstore_oid_t * M :=
  m0_ufid_get m0o oid m.

(** [cortx_ds_obj_create(dstore, ctx, oid)] *)
Definition cortx_ds_obj_create (oid : dstore_oid_t) (m : M) : Z * M :=
  let fid := oid in
  m0store_create_object m0o fid m.

(** [cortx_ds_fini()] *)
Definition cortx_ds_fini (m : M) : Z * M := (0, m0fini m0o m).

(** [cortx_dstore_obj_alloc(out)]; [out] is the value of [*out] at
    entry, the result carries its value at exit. *)
Definition cortx_dstore_obj_alloc (out : option PTR) (m : M)
  : Z * option PTR * M :=
  match m0_alloc_obj m0o m with
  | (None, m1) => (- ENOMEM, out, m1)
  | (Some obj, m1) => (0, Some obj, m1)
  end.

(** [cortx_dstore_obj_free(obj)] *)
Definition cortx_dstore_obj_free (obj : option PTR) (m : M) : M :=
  m0_free m0o obj m.

(** [cortx_ds_obj_open(dstore, oid, out)]: the label [out] frees [obj],
    which is NULL once the object was handed to the caller. The base
    part of the fresh object is zero-filled. *)
Definition cortx_ds_obj_open (oid : dstore_oid_t) (m : M)
  : Z * option (obj_ref PTR COBJ) * M :=
  let '(rc, obj, m1) := cortx_dstore_obj_alloc None m in
  if negb (rc =? 0) then (rc, None, cortx_dstore_obj_free obj m1)
  else
    match obj with
    | None => (rc, None, cortx_dstore_obj_free None m1)
    | Some p =>
        let '(rc, cobj, m2) := m0store_obj_open m0o oid m1 in
        if negb (rc =? 0) then (rc, None, cortx_dstore_obj_free (Some p) m2)
        else
          (rc,
           Some {| ref_ptr := p;
                   ref_obj := {| obj_oid := (0, 0); obj_ext := cobj |} |},
           cortx_dstore_obj_free None m2)
    end.

(** [cortx_ds_obj_close(dobj)] *)
Definition cortx_ds_obj_close (dobj : obj_ref PTR COBJ) (m : M) : Z * M :=
  let m1 := m0store_obj_close m0o (obj_ext (ref_obj dobj)) m in
  (0, cortx_dstore_obj_free (Some (ref_ptr dobj)) m1).

(** The entries of [cortx_dstore_ops] for these operations. *)
Definition cortx_dstore_obj_ops : dstore_obj_ops M COBJ PTR :=
  {| fini := cortx_ds_fini;
     obj_create := cortx_ds_obj_create;
     obj_get_id := cortx_ds_obj_get_id;
     obj_open := cortx_ds_obj_open;
     obj_close := cortx_ds_obj_close |}.

End CortxObjects.

(** ** A ledger of allocations and open objects

    A model of the Motr side of the open state: which objects exist,
    which allocations are live, which Motr objects are open. A free of
    something that is not live, or a close of something that is not
    open, is recorded in [misuse]. Allocations succeed while [budget]
    lasts; [m0store_obj_open] of a missing object fails with -ENOENT
    (dstore.h, State management). *)

Module Ledger.

Record world : Type := {
  present : dstore_oid_t -> bool;
  budget : nat;
  next_ptr : nat;
  live : list nat;
  opened : list dstore_oid_t;
  misuse : bool
}.

Definition oid_eqb (a b : dstore_oid_t) : bool :=
  (fst a =? fst b) && (snd a =? snd b).

Fixpoint remove_first {A : Type} (eqb : A -> A -> bool) (x : A) (l : list A)
  : option (list A) :=
  match l with
  | [] => None
  | y :: l' =>
      if eqb x y then Some l'
      else option_map (cons y) (remove_first eqb x l')
  end.

Definition m0_alloc_obj (w : world) : option nat * world :=
  match budget w with
  | O => (None, w)
  | S n =>
      (Some (next_ptr w),
       {| present := present w; budget := n; next_ptr := S (next_ptr w);
          live := next_ptr w :: live w; opened := opened w;
          misuse := misuse w |})
  end.

Definition m0_free (p : option nat) (w : world) : world :=
  match p with
  | None => w
  | Some p =>
      match remove_first Nat.eqb p (live w) with
      | Some l =>
          {| present := present w; budget := budget w;
             next_ptr := next_ptr w; live := l; opened := opened w;
             misuse := misuse w |}
      | None =>
          {| present := present w; budget := budget w;
             next_ptr := next_ptr w; live := live w; opened := opened w;
             misuse := true |}
      end
  end.

Definition m0store_obj_open (oid : dstore_oid_t) (w : world)
  : Z * dstore_oid_t * world :=
  if present w oid then
    (0, oid,
     {| present := present w; budget := budget w; next_ptr := next_ptr w;
        live := live w; opened := oid :: opened w; misuse := misuse w |})
  else (- ENOENT, oid, w).

Definition m0store_obj_close (cobj : dstore_oid_t) (w : world) : world :=
  match remove_first oid_eqb cobj (opened w) with
  | Some l =>
      {| present := present w; budget := budget w; next_ptr := next_ptr w;
         live := live w; opened := l; misuse := misuse w |}
  | None =>
      {| present := present w; budget := budget w; next_ptr := next_ptr w;
         live := live w; opened := opened w; misuse := true |}
  end.

Definition m0store_create_object (fid : dstore_oid_t) (w : world)
  : Z * world :=
  (0,
   {| present := fun k => oid_eqb k fid || present w k; budget := budget w;
      next_ptr := next_ptr w; live := live w; opened := opened w;
      misuse := misuse w |}).

Definition api : m0_obj_api world dstore_oid_t nat :=
  Build_m0_obj_api world dstore_oid_t nat
    (fun w => w)                  (* m0fini *)
    (fun oid w => (0, oid, w))    (* m0_ufid_get *)
    m0store_create_object
    m0_alloc_obj
    m0_free
    m0store_obj_open
    m0store_obj_close.

(** The facade over the plugin over the ledger. *)
Definition oops := cortx_dstore_obj_ops api.
Definition open := dstore_obj_open oops.
Definition close := dstore_obj_close oops.

(** What the ledger holds: the live allocations, the open objects, the
    misuse flag. *)
Definition holdings (w : world) : list nat * list dstore_oid_t * bool :=
  (live w, opened w, misuse w).

End Ledger.

(** ** A recording Motr

    A second implementation of the interface [m0_api], for what the
    plugin and the core ask of Motr whatever Motr answers: every call is
    appended to the list of calls made so far, and the answer (whether
    an allocation succeeds, the rc of [m0_obj_op], of [m0_op_wait] and
    of the operation, the bytes a launched operation leaves in its
    buffers) is taken from an arbitrary [oracle], by the number of calls
    made before it. *)

Module Recorder.

Inductive call : Type :=
| c_heap (ok : bool)                 (* an allocation of the core *)
| c_alloc (ok : bool)                (* M0_ALLOC_PTR *)
| c_obj_op (code : m0_obj_opcode) (ext : list (Z * Z)) (rc : Z) (id : nat)
| c_launch (id : nat)
| c_wait (id : nat) (rc : Z)
| c_fini (id : nat)
| c_free (id : nat)
| c_log (l : log_level) (msg : string).

Record oracle : Type := {
  heap_ok : nat -> bool;
  alloc_ok : nat -> bool;
  obj_op_rc : nat -> Z;
  launched_bufs : nat -> list (list byte) -> list (list byte);
  launched_rc : nat -> Z;
  wait_rc : nat -> Z;
  block_size : Z
}.

(** An operation: its identity (the index of the call that created it),
    its buffers, its rc. *)
Record op : Type := {
  op_id : nat;
  op_bufs : list (list byte);
  op_rc : Z
}.

Definition world : Type := list call.

Section Api.

Variable orc : oracle.

Definition heap_alloc (m : world) : bool * world :=
  let ok := heap_ok orc (length m) in (ok, m ++ [c_heap ok]).

Definition m0_alloc_ptr (m : world) : bool * world :=
  let ok := alloc_ok orc (length m) in (ok, m ++ [c_alloc ok]).

Definition m0_obj_op (cobj : dstore_oid_t) (code : m0_obj_opcode)
    (ext : list (Z * Z)) (data : option (list (list byte))) (m : world)
  : Z * option op * world :=
  let id := length m in
  let rc := obj_op_rc orc id in
  (rc,
   (if rc =? 0
    then Some {| op_id := id;
                 op_bufs := match data with Some b => b | None => [] end;
                 op_rc := 0 |}
    else None),
   m ++ [c_obj_op code ext rc id]).

Definition m0_op_launch (c : op) (m : world) : op * world :=
  ({| op_id := op_id c;
      op_bufs := launched_bufs orc (length m) (op_bufs c);
      op_rc := launched_rc orc (length m) |},
   m ++ [c_launch (op_id c)]).

Definition m0_op_wait (c : op) (m : world) : Z * op * world :=
  let rc := wait_rc orc (length m) in
  (rc, c, m ++ [c_wait (op_id c) rc]).

Definition api : m0_api world dstore_oid_t op :=
  Build_m0_api world dstore_oid_t op
    (fun _ m => (0, m))                        (* m0init *)
    m0_alloc_ptr
    (fun _ m => (0, m))                        (* m0store_delete_object *)
    (fun _ _ => block_size orc)                (* m0store_get_bsize *)
    m0_obj_op
    m0_op_launch
    m0_op_wait
    op_rc                                      (* m0_rc *)
    op_bufs
    (fun c m => m ++ [c_fini (op_id c)])       (* m0_op_fini *)
    (fun c m => m ++ [c_free (op_id c)])       (* m0_op_free *)
    (fun l msg m => m ++ [c_log l msg]).

Definition ops := cortx_dstore_ops api.

Definition pwrite := dstore_pwrite heap_alloc ops.
Definition pread := dstore_pread heap_alloc ops.
Definition resize := dstore_obj_resize heap_alloc ops.

End Api.

(** The life of a Motr operation. *)
Inductive stage : Type := created | launched | waited | finalised.

(** The calls [t] follow the protocol of Motr operations, one operation
    at a time: an operation is created by a successful [m0_obj_op],
    launched, waited for, finalised and freed, in this order and under
    its own identity; [live] is the operation in progress. At the end
    no operation is left. *)
Fixpoint protocol (live : option (nat * stage)) (t : list call) : bool :=
  match t with
  | [] => match live with None => true | Some _ => false end
  | c :: t' =>
      match c, live with
      | c_obj_op _ _ rc id, None =>
          if rc =? 0 then protocol (Some (id, created)) t'
          else protocol None t'
      | c_launch id, Some (id', created) =>
          Nat.eqb id id' && protocol (Some (id, launched)) t'
      | c_wait id _, Some (id', launched) =>
          Nat.eqb id id' && protocol (Some (id, waited)) t'
      | c_fini id, Some (id', waited) =>
          Nat.eqb id id' && protocol (Some (id, finalised)) t'
      | c_free id, Some (id', finalised) =>
          Nat.eqb id id' && protocol None t'
      | c_heap _, _ | c_alloc _, _ | c_log _ _, _ => protocol live t'
      | _, _ => false
      end
  end.

(** The operations asked of Motr: opcode and extents of every
    [m0_obj_op] call. *)
Fixpoint op_calls (t : list call) : list (m0_obj_opcode * list (Z * Z)) :=
  match t with
  | [] => []
  | c_obj_op code ext _ _ :: t' => (code, ext) :: op_calls t'
  | _ :: t' => op_calls t'
  end.

(** Every extent starts at a multiple of [bs] and is a multiple of [bs]
    long. *)
Definition block_extents (bs : Z) (ext : list (Z * Z)) : bool :=
  forallb (fun e => (fst e mod bs =? 0) && (snd e mod bs =? 0)) ext.

End Recorder.

(** ** Definitions of the specification

    What the specification says in its own words, to be compared with
    the embedding of the code. *)

(** Non-empty requests that follow one another from [lo] up to [hi]. *)
Fixpoint tiles (lo hi : Z) (reqs : list (Z * Z)) : Prop :=
  match reqs with
  | [] => lo = hi
  | (offset, count) :: rest =>
      offset = lo /\ 0 < count /\ tiles (lo + count) hi rest
  end.

(** A C string: no NUL among its characters. *)
Fixpoint c_string (s : string) : bool :=
  match s with
  | EmptyString => true
  | String c rest => negb (Ascii.eqb c zero) && c_string rest
  end.

(** The blocks a request touches: the first, and the last (the block of
    the last byte). *)
Definition first_block (offset bs : Z) : Z := offset / bs.

Definition last_block (offset count bs : Z) : Z :=
  if (offset + count) mod bs =? 0
  then (offset + count) / bs - 1
  else (offset + count) / bs.

(** The test of [__dstore_pwrite] and [__dstore_pread]. *)
Definition aligned (offset count bs : Z) : bool :=
  (count mod bs =? 0) && (to_size_t offset mod bs =? 0).

(** Requests whose block numbers and buffer positions fit the
    [uint32_t] locals of the unaligned routines, and whose offsets fit
    [off_t]. *)
Definition fits_uint32 (offset count bs : Z) : Prop :=
  0 < bs < 4294967296
  /\ 0 <= offset
  /\ 0 <= count < 4294967296
  /\ offset + count < 4294967296 * bs
  /\ offset + count + bs < 9223372036854775808.

(** The shape of request whose edges [pwrite_unaligned] does not read:
    left-aligned, ending inside its first block. *)
Definition ends_inside_first_block (offset count bs : Z) : bool :=
  (offset mod bs =? 0)
  && negb ((offset + count) mod bs =? 0)
  && (first_block offset bs =? last_block offset count bs).

(** The full-size requests from chunk [s] on. *)
Definition chunk_requests (new_size : Z) (s n : nat) : list (Z * Z) :=
  map (fun i => (new_size + Z.of_nat i * DSAL_MAX_IO_SIZE, DSAL_MAX_IO_SIZE))
      (seq s n).

Section SpecDefs.

Context {W X Y : Type}.
Variable heap_alloc : W -> bool * W.
Variable ops : dstore_ops W X Y.

(** The per-block retry of the hole-tolerant reader, in the words of the
    policy: blocks [i], [i+1], ... below [k] are re-read one by one into
    their place in the buffer; a block whose read returns -ENOENT is
    zero-filled; any other non-zero rc is fatal and is returned; after
    the last block the result is 0. *)
Inductive hole_retry (obj : dstore_obj X) (bs offset k : Z)
  : Z -> list byte -> W -> Z * list byte * W -> Prop :=
| retry_done i buf w :
    k <= i ->
    hole_retry obj bs offset k i buf w (0, buf, w)
| retry_data i buf w blk w1 res :
    i < k ->
    pread_aligned heap_alloc ops obj (ptr_add buf (i * bs)) bs
                  (offset + i * bs) w = (0, blk, w1) ->
    hole_retry obj bs offset k (i + 1) (ptr_store buf (i * bs) blk) w1 res ->
    hole_retry obj bs offset k i buf w res
| retry_hole i buf w blk w1 res :
    i < k ->
    pread_aligned heap_alloc ops obj (ptr_add buf (i * bs)) bs
                  (offset + i * bs) w = (- ENOENT, blk, w1) ->
    hole_retry obj bs offset k (i + 1)
      (ptr_store (ptr_store buf (i * bs) blk) (i * bs)
         (memset (ptr_add (ptr_store buf (i * bs) blk) (i * bs)) x00 bs))
      w1 res ->
    hole_retry obj bs offset k i buf w res
| retry_fatal i buf w rc blk w1 :
    i < k ->
    pread_aligned heap_alloc ops obj (ptr_add buf (i * bs)) bs
                  (offset + i * bs) w = (rc, blk, w1) ->
    rc <> 0 -> rc <> - ENOENT ->
    hole_retry obj bs offset k i buf w (rc, ptr_store buf (i * bs) blk, w1).

(** The sub-writes of a shrink as (offset, count) pairs:
    floor((old - new) / MAX_IO) writes of MAX_IO bytes at new + i * MAX_IO,
    followed by at most one write of the remainder. *)
Definition shrink_requests (old_size new_size : Z) : list (Z * Z) :=
  let n := (old_size - new_size) / DSAL_MAX_IO_SIZE in
  let remainder := (old_size - new_size) mod DSAL_MAX_IO_SIZE in
  map (fun i => (new_size + Z.of_nat i * DSAL_MAX_IO_SIZE, DSAL_MAX_IO_SIZE))
      (seq 0 (Z.to_nat n))
  ++ (if remainder =? 0 then []
      else [(new_size + n * DSAL_MAX_IO_SIZE, remainder)]).

(** Issue the requests in order through [dstore_pwrite], every one with
    the same block size and source buffer, and stop at the first error. *)
Fixpoint issue_writes (obj : dstore_obj X) (bs : Z) (buf : list byte)
    (reqs : list (Z * Z)) (w : W) : Z * W :=
  match reqs with
  | [] => (0, w)
  | (offset, count) :: rest =>
      let '(rc, w1) := dstore_pwrite heap_alloc ops obj offset count bs buf w in
      if negb (rc =? 0) then (rc, w1)
      else issue_writes obj bs buf rest w1
  end.


(** The unaligned write in the words of the design (4.7), over the
    blocks L..R, N = R - L + 1: a zeroed scratch of N blocks; if the
    start is not aligned, block L is read into scratch[0..bs]; if the
    end is not aligned and L <> R, block R is read into the last block
    of the scratch; the payload is copied to scratch[offset - L * bs..];
    one aligned write of N * bs bytes at L * bs. *)
Definition rmw_write (obj : dstore_obj X) (offset count bs : Z)
    (buf : list byte) (w : W) : Z * W :=
  let L := first_block offset bs in
  let R := last_block offset count bs in
  let N := R - L + 1 in
  match heap_alloc w with
  | (false, w1) => (- ENOMEM, w1)
  | (true, w1) =>
      let scratch := zeros (N * bs) in
      let '(rc, scratch, w2) :=
        if negb (offset mod bs =? 0) then
          pread_aligned_handle_holes heap_alloc ops obj scratch bs (L * bs) bs w1
        else (0, scratch, w1) in
      if rc <? 0 then (rc, w2) else
      let '(rc, scratch, w3) :=
        if negb ((offset + count) mod bs =? 0) && negb (L =? R) then
          let '(rc, blk, w') :=
            pread_aligned_handle_holes heap_alloc ops obj
              (ptr_add scratch ((N - 1) * bs)) bs (R * bs) bs w2 in
          (rc, ptr_store scratch ((N - 1) * bs) blk, w')
        else (rc, scratch, w2) in
      if rc <? 0 then (rc, w3) else
      pwrite_aligned heap_alloc ops obj
        (ptr_store scratch (offset - L * bs)
           (memcpy (ptr_add scratch (offset - L * bs)) buf count))
        (N * bs) (L * bs) w3
  end.

End SpecDefs.

(** ** Views of the in-memory store *)

Module StoreSpec.

Import MemMotr.

(** Every block of [bs] bytes is written throughout or not at all: the
    state of an object whose writes all went through the facade with
    one block size. *)
Definition block_uniform (d : Z -> option byte) (bs : Z) : Prop :=
  forall b,
    extent_written d (b * bs) bs = true
    \/ (forall k, b * bs <= k < b * bs + bs -> d k = None).

(** The hole-tolerant reader delivers the stored bytes of the extent
    (zero where nothing is stored), or fails for lack of memory, and
    leaves the objects as they are. *)
Definition reads_stored (o : dstore_obj dstore_oid_t) (bs : Z)
    (d : Z -> option byte) (off size : Z) : Prop :=
  forall buf w,
    objects w (obj_ext o) = Some d ->
    (Z.to_nat size <= length buf)%nat ->
    exists rc buf' w',
      pread_aligned_handle_holes heap_alloc ops o buf size off bs w
        = (rc, buf', w')
      /\ objects w' = objects w
      /\ ((rc = 0 /\ buf' = blit buf (read_extent d off size))
          \/ rc = - ENOMEM).

(** What a successful write leaves in the object, as reads observe it. *)
Definition written_in_frame (d d' : Z -> option byte)
    (offset count : Z) (buf : list byte) : Prop :=
  (forall k, offset <= k < offset + count ->
             byte_at d' k = nth (Z.to_nat (k - offset)) buf x00)
  /\ (forall k, k < offset \/ offset + count <= k ->
                byte_at d' k = byte_at d k).

End StoreSpec.

(** ** Allocations, effects and calls

    Measures and predicates of the properties below. *)

Module Budget.

(** The cost of a hole-tolerant read, in allocations: one read of the
    extent and one read per block of the retry. *)
Definition holes_cost (size bs : Z) : nat :=
  4 + 4 * Z.to_nat (to_int (size / bs)).
Arguments holes_cost : simpl never.

(** The cost of the aligned run of an unaligned read. *)
Definition run_cost (count bs : Z) : nat :=
  holes_cost (to_size_t (to_uint32 (count / bs) * bs)) bs.
Arguments run_cost : simpl never.

End Budget.

Module Effects.

Import MemMotr StoreSpec.

(** What a successful write leaves in the object, as reads observe it:
    the payload in the range, the stored bytes before it, and after it
    the stored bytes or, for the request that ends inside its first
    block, possibly zeroes. *)
Definition write_effect (d d' : Z -> option byte) (offset count bs : Z)
    (buf : list byte) : Prop :=
  (forall k, offset <= k < offset + count ->
             byte_at d' k = nth (Z.to_nat (k - offset)) buf x00)
  /\ (forall k, k < offset -> byte_at d' k = byte_at d k)
  /\ (forall k, offset + count <= k ->
                byte_at d' k = byte_at d k
                \/ (ends_inside_first_block offset count bs = true
                    /\ byte_at d' k = x00)).

(** The object after the zero writes of a shrink reached [hi]: the
    bytes below the new size are as they were, the bytes from the new
    size up to [hi] read as zero. *)
Definition shrunk_to (d d1 : Z -> option byte) (new_size hi : Z) : Prop :=
  (forall k, k < new_size -> byte_at d1 k = byte_at d k)
  /\ (forall k, new_size <= k < hi -> byte_at d1 k = x00).

(** The state of the store between two writes of the shrink. *)
Definition shrinking (o : dstore_obj dstore_oid_t) (d : Z -> option byte)
    (w0 : world) (bs new_size : Z) (w : world) (hi : Z) : Prop :=
  exists d1,
    objects w (obj_ext o) = Some d1
    /\ (forall k, oid_eqb k (obj_ext o) = false -> objects w k = objects w0 k)
    /\ block_uniform d1 bs
    /\ shrunk_to d d1 new_size hi.

(** The store is well formed for the object [o] and the block size
    [bs]: the object exists, its blocks are uniform, and the other
    objects are those of [w0]. *)
Definition well_formed (o : dstore_obj dstore_oid_t) (bs : Z)
    (w0 w : world) : Prop :=
  exists d,
    objects w (obj_ext o) = Some d
    /\ block_uniform d bs
    /\ forall k, oid_eqb k (obj_ext o) = false -> objects w k = objects w0 k.

End Effects.

Module Calls.

Import Recorder.

(** The calls made from the state [m] to the state [m']: they follow
    the protocol, and every operation asked of Motr satisfies [P]. *)
Definition proceeds (P : m0_obj_opcode * list (Z * Z) -> Prop)
    (m m' : world) : Prop :=
  exists t, m' = m ++ t /\ protocol None t = true /\ Forall P (op_calls t).

(** The reads of the hole-tolerant reader at [off], [size] satisfy [P]:
    the read of the extent, and the read of each of its blocks. *)
Definition reads_ok (P : m0_obj_opcode * list (Z * Z) -> Prop)
    (off size bs : Z) : Prop :=
  P (M0_OC_READ, [(off, size)])
  /\ forall i, 0 <= i < to_int (size / bs) ->
       P (M0_OC_READ,
          [(to_off_t (to_size_t (off + to_size_t (i * bs))), bs)]).

(** A block-aligned READ. *)
Definition block_read (bs : Z) (op : m0_obj_opcode * list (Z * Z)) : Prop :=
  fst op = M0_OC_READ /\ block_extents bs (snd op) = true.

(** A block-aligned READ or WRITE. *)
Definition block_io (bs : Z) (op : m0_obj_opcode * list (Z * Z)) : Prop :=
  (fst op = M0_OC_READ \/ fst op = M0_OC_WRITE)
  /\ block_extents bs (snd op) = true.

(** The calls made since the state [m]. *)
Definition new_calls (m m' : world) : list call := skipn (length m) m'.

(** A READ. *)
Definition is_read (op : m0_obj_opcode * list (Z * Z)) : Prop :=
  fst op = M0_OC_READ.

(** The operations [ops] are reads, followed by at most one write. *)
Definition reads_then_write (ops : list (m0_obj_opcode * list (Z * Z)))
  : Prop :=
  exists reads tail,
    ops = reads ++ tail
    /\ Forall is_read reads
    /\ (tail = [] \/ exists ext, tail = [(M0_OC_WRITE, ext)]).

(** The operations [ops] are reads, followed by exactly one write. *)
Definition reads_then_one_write (ops : list (m0_obj_opcode * list (Z * Z)))
  : Prop :=
  exists reads ext,
    ops = reads ++ [(M0_OC_WRITE, ext)] /\ Forall is_read reads.

End Calls.

(** ** Concrete objects and requests

    The inputs of the examples below, over the in-memory store. The
    block size is 16, so that the scenarios of the unit tests
    (test/ut/dsal_test_io.c, block size 4096) are replayed at a smaller
    scale with the same alignment of every request. *)

Module Scenario.

Import MemMotr.

Definition oid1 : dstore_oid_t := (1, 2).
Definition obj1 : dstore_obj dstore_oid_t := obj oid1.
Definition bs : Z := 16.

(** An empty object; a heap that serves a thousand allocations. *)
Definition store0 : world := fresh oid1 1000 bs.


(** A store whose block-size query reports -ENOENT. *)
Definition store_bsize_error : world := fresh oid1 1000 (- ENOENT).

Definition fill (b : byte) (n : Z) : list byte := repeat b (Z.to_nat n).

(** [dstore_pwrite] of [count] bytes [b] at [offset]: the rc, the store. *)
Definition write_fill (offset count : Z) (b : byte) (w : world) : Z * world :=
  pwrite obj1 offset count bs (fill b count) w.

Definition after_write (offset count : Z) (b : byte) (w : world) : world :=
  snd (write_fill offset count b w).

(** [dstore_pread] of [count] bytes at [offset] into a buffer of [xff]
    bytes: the rc, the buffer. *)
Definition read_back (offset count : Z) (w : world) : Z * list byte :=
  fst (pread obj1 offset count bs (fill xff count) w).

(** A single-buffer vector for [count] bytes at [offset]. *)
Definition one_buf_vec (offset count : Z) : dstore_io_vec :=
  {| dbufs := [fill xff count]; svec := [count]; ovec := [offset];
     nr := 1; has_data := true |}.

(** The first offset whose block number needs more than 32 bits. *)
Definition far_offset : Z := 4294967296 * bs.

Definition unset_dstore : dstore world dstore_oid_t (cortx_io_op op) :=
  {| ds_type := None; ds_cfg := None; ds_flags := 0; ds_ops := None |}.

Definition cfg_of_type (type : string) : collection_item :=
  [("log", "level", "debug"); ("dstore", "type", type)]%string.

(** A Motr that serves every allocation and accepts every operation,
    and whose operations all end with -ENOENT: every read is a hole. *)
Definition holes_oracle : Recorder.oracle :=
  {| Recorder.heap_ok := fun _ => true;
     Recorder.alloc_ok := fun _ => true;
     Recorder.obj_op_rc := fun _ => 0;
     Recorder.launched_bufs := fun _ bufs => bufs;
     Recorder.launched_rc := fun _ => - ENOENT;
     Recorder.wait_rc := fun _ => 0;
     Recorder.block_size := bs |}.

(** A Motr that serves every allocation and completes every operation
    with 0, and whose [m0_obj_op] answers [first_rc] to the first
    operation of a call that starts from the empty record. *)
Definition willing_oracle (first_rc : Z) : Recorder.oracle :=
  {| Recorder.heap_ok := fun _ => true;
     Recorder.alloc_ok := fun _ => true;
     Recorder.obj_op_rc := fun n => if (n =? 4)%nat then first_rc else 0;
     Recorder.launched_bufs := fun _ bufs => bufs;
     Recorder.launched_rc := fun _ => 0;
     Recorder.wait_rc := fun _ => 0;
     Recorder.block_size := bs |}.

(** A ledger with the object [oid1], nothing held, and memory for two
    allocations; the same without the object; the same without memory. *)
Definition ledger0 : Ledger.world :=
  {| Ledger.present := fun k => Ledger.oid_eqb k oid1;
     Ledger.budget := 2; Ledger.next_ptr := 0; Ledger.live := [];
     Ledger.opened := []; Ledger.misuse := false |}.

Definition ledger_empty : Ledger.world :=
  {| Ledger.present := fun _ => false;
     Ledger.budget := 2; Ledger.next_ptr := 0; Ledger.live := [];
     Ledger.opened := []; Ledger.misuse := false |}.

End Scenario.

(** * Properties *)

(** ** Integer conversions *)

Lemma to_size_t_id x : in_size_t x -> to_size_t x = x.
Proof. unfold in_size_t, to_size_t; intros; apply Z.mod_small; lia. Qed.

Lemma to_ssize_t_id x : in_ssize_t x -> to_ssize_t x = x.
Proof.
  unfold in_ssize_t, to_ssize_t; intros.
  rewrite Z.mod_small by lia. lia.
Qed.

Lemma to_off_t_id x : in_off_t x -> to_off_t x = x.
Proof. apply to_ssize_t_id. Qed.

Lemma to_uint32_id x : 0 <= x < 4294967296 -> to_uint32 x = x.
Proof. unfold to_uint32; intros; apply Z.mod_small; lia. Qed.

Lemma to_int_id x : - 2147483648 <= x < 2147483648 -> to_int x = x.
Proof. unfold to_int; intros; rewrite Z.mod_small by lia; lia. Qed.

(** Converting a signed 64-bit value to [size_t] and back loses nothing. *)
Lemma to_ssize_t_to_size_t x : to_ssize_t (to_size_t x) = to_ssize_t x.
Proof.
  unfold to_ssize_t, to_size_t.
  rewrite Zplus_mod_idemp_l. reflexivity.
Qed.

(** ** Buffers *)

Lemma length_zeros n : length (zeros n) = Z.to_nat n.
Proof. apply repeat_length. Qed.

Lemma length_blit dst data : length (blit dst data) = length dst.
Proof.
  unfold blit. rewrite length_firstn, length_app, length_skipn. lia.
Qed.

Lemma length_memcpy dst src n : length (memcpy dst src n) = length dst.
Proof. apply length_blit. Qed.

Lemma length_memset dst c n : length (memset dst c n) = length dst.
Proof. apply length_blit. Qed.

Lemma blit_exact dst data :
  (length data <= length dst)%nat ->
  blit dst data = data ++ skipn (length data) dst.
Proof.
  intros H. unfold blit. apply firstn_all2.
  rewrite length_app, length_skipn. lia.
Qed.

Lemma ptr_store_add p k : ptr_store p k (ptr_add p k) = p.
Proof. apply firstn_skipn. Qed.

Lemma length_ptr_store p k tail :
  0 <= k -> length tail = length (ptr_add p k) ->
  length (ptr_store p k tail) = length p.
Proof.
  unfold ptr_store, ptr_add. intros _ H.
  rewrite length_app, H, length_firstn, length_skipn. lia.
Qed.

(** ** The facade over an arbitrary backend *)

Section CoreProperties.

Context {W X Y : Type}.
Variable heap_alloc : W -> bool * W.
Variable ops : dstore_ops W X Y.

Local Abbreviation pwrite := (dstore_pwrite heap_alloc ops).
Local Abbreviation pread := (dstore_pread heap_alloc ops).

Lemma mod_zero_iff_divide a b : 0 < b -> (a mod b =? 0) = true <-> (b | a).
Proof.
  intros Hb. rewrite Z.eqb_eq. apply Z.mod_divide. lia.
Qed.

Lemma aligned_test offset count bs :
  0 < bs -> 0 <= offset < 9223372036854775808 ->
  ((count mod bs =? 0) && (to_size_t offset mod bs =? 0) = true
   <-> (bs | offset) /\ (bs | count)).
Proof.
  intros Hbs Hoff.
  rewrite to_size_t_id by (unfold in_size_t; lia).
  rewrite andb_true_iff, !mod_zero_iff_divide by assumption. tauto.
Qed.

(** C6. Alignment dispatch: with a positive block size, [dstore_pwrite]
    and [dstore_pread] take the aligned primitive (for reads the
    hole-tolerant aligned reader) exactly when both the offset and the
    count are multiples of [bs], and the unaligned routine otherwise. *)
Theorem dstore_alignment_dispatch (obj : dstore_obj X) offset count bs buf w :
  0 < bs -> 0 <= offset < 9223372036854775808 ->
  ((bs | offset) /\ (bs | count) ->
   pwrite obj offset count bs buf w
     = pwrite_aligned heap_alloc ops obj buf count offset w
   /\ pread obj offset count bs buf w
     = pread_aligned_handle_holes heap_alloc ops obj buf count offset bs w)
  /\
  (~ ((bs | offset) /\ (bs | count)) ->
   pwrite obj offset count bs buf w
     = pwrite_unaligned heap_alloc ops obj offset count bs buf w
   /\ pread obj offset count bs buf w
     = pread_unaligned heap_alloc ops obj offset count bs buf w).
Proof.
  intros Hbs Hoff.
  pose proof (aligned_test offset count bs Hbs Hoff) as Htest.
  unfold dstore_pwrite, dstore_pread, __dstore_pwrite, __dstore_pread.
  destruct ((count mod bs =? 0) && (to_size_t offset mod bs =? 0)) eqn:E.
  - split; [intros _; split; reflexivity |].
    intros Hn. exfalso. apply Hn, Htest. reflexivity.
  - split; [| intros _; split; reflexivity].
    intros Ha. apply Htest in Ha. discriminate.
Qed.



(** C10. Block-size pass-through: [dstore_get_bsize] returns the 64-bit
    value of the backend's [obj_get_bsize]; holding it in a [size_t]
    local changes nothing, negative -errno values included. *)
Theorem dstore_get_bsize_passthrough oid w :
  in_ssize_t (obj_get_bsize ops oid w) ->
  dstore_get_bsize ops oid w = obj_get_bsize ops oid w.
Proof.
  intros H. unfold dstore_get_bsize, __dstore_get_bsize.
  rewrite to_ssize_t_to_size_t. apply to_ssize_t_id, H.
Qed.

End CoreProperties.

(** ** The hole-tolerant aligned reader *)

Section HoleTolerantRead.

Context {W X Y : Type}.
Variable heap_alloc : W -> bool * W.
Variable ops : dstore_ops W X Y.

Local Abbreviation rc_of := (fun r : Z * list byte * W => fst (fst r)).

(** The retry loop never reports -ENOENT. *)
Lemma reread_blocks_not_enoent (obj : dstore_obj X) bs offset n i buf w :
  rc_of (reread_blocks heap_alloc ops obj bs offset n i buf w) <> - ENOENT.
Proof.
  revert i buf w. induction n as [|n IH]; intros i buf w; cbn [reread_blocks].
  - cbn. unfold ENOENT. lia.
  - destruct (pread_aligned _ _ _ _ _ _ _) as [[rc blk] w1].
    destruct (rc =? 0) eqn:E0; [apply IH|].
    destruct (rc =? - ENOENT) eqn:E1; [apply IH|].
    cbn. apply Z.eqb_neq in E1. exact E1.
Qed.

(** The retry loop follows the policy, as long as the block positions
    and offsets fit their C types. *)
Lemma reread_blocks_retry (obj : dstore_obj X) bs offset k n i buf w :
  0 < bs -> 0 <= offset -> 0 <= i -> i + Z.of_nat n = k ->
  offset + k * bs < 9223372036854775808 ->
  hole_retry heap_alloc ops obj bs offset k i buf w
    (reread_blocks heap_alloc ops obj bs offset n i buf w).
Proof.
  intros Hbs Hoff. revert i buf w.
  induction n as [|n IH]; intros i buf w Hi Hk Hfit; cbn [reread_blocks].
  - apply retry_done. lia.
  - assert (Hpos : to_size_t (i * bs) = i * bs).
    { apply to_size_t_id. unfold in_size_t. nia. }
    assert (Hofs : to_off_t (to_size_t (offset + i * bs)) = offset + i * bs).
    { rewrite to_size_t_id by (unfold in_size_t; nia).
      apply to_off_t_id. unfold in_off_t, in_ssize_t. nia. }
    rewrite Hpos, Hofs.
    destruct (pread_aligned _ _ _ _ _ _ _) as [[rc blk] w1] eqn:Erd.
    destruct (rc =? 0) eqn:E0.
    { apply Z.eqb_eq in E0. subst rc.
      eapply retry_data; [lia | exact Erd |]. apply IH; lia. }
    destruct (rc =? - ENOENT) eqn:E1.
    { apply Z.eqb_eq in E1. subst rc.
      eapply retry_hole; [lia | exact Erd |]. apply IH; lia. }
    apply Z.eqb_neq in E0, E1.
    apply retry_fatal; [lia | exact Erd | assumption | assumption].
Qed.

(** C3 (amended). Hole-tolerant aligned read policy: a first rc other
    than -ENOENT is returned unchanged; on -ENOENT each of the
    k = buf_size / bs blocks is re-read individually, a block whose read
    returns -ENOENT is zero-filled, any other non-zero per-block rc is
    returned at once, and after the iteration the call returns 0. A
    single-block request is retried in the same way: -ENOENT never
    surfaces. *)
Theorem pread_aligned_handle_holes_policy (obj : dstore_obj X)
    read_buf buf_size offset bs w rc0 buf0 w0 :
  0 < bs -> 0 <= offset -> 0 <= buf_size ->
  buf_size / bs < 2147483648 ->
  offset + buf_size < 9223372036854775808 ->
  pread_aligned heap_alloc ops obj read_buf buf_size offset w = (rc0, buf0, w0) ->
  (rc0 <> - ENOENT ->
   pread_aligned_handle_holes heap_alloc ops obj read_buf buf_size offset bs w
     = (rc0, buf0, w0))
  /\
  (rc0 = - ENOENT ->
   hole_retry heap_alloc ops obj bs offset (buf_size / bs) 0 buf0 w0
     (pread_aligned_handle_holes heap_alloc ops obj read_buf buf_size offset bs w))
  /\
  rc_of (pread_aligned_handle_holes heap_alloc ops obj read_buf buf_size offset bs w)
    <> - ENOENT.
Proof.
  intros Hbs Hoff Hsz Hk Hfit Hrd.
  unfold pread_aligned_handle_holes. rewrite Hrd.
  assert (H0k : 0 <= buf_size / bs) by (apply Z.div_pos; lia).
  assert (Hkb : buf_size / bs * bs <= buf_size).
  { rewrite Z.mul_comm. apply Z.mul_div_le. lia. }
  destruct (rc0 =? - ENOENT) eqn:E.
  - apply Z.eqb_eq in E. repeat split.
    + intros Hn. contradiction.
    + intros _. rewrite to_int_id by lia.
      apply reread_blocks_retry; try lia.
    + apply reread_blocks_not_enoent.
  - apply Z.eqb_neq in E. repeat split.
    + intros He. contradiction.
    + exact E.
Qed.

End HoleTolerantRead.

(** ** Resize *)

Section Resize.

Context {W X Y : Type}.
Variable heap_alloc : W -> bool * W.
Variable ops : dstore_ops W X Y.

Local Abbreviation issue := (issue_writes heap_alloc ops).

Lemma issue_writes_app (obj : dstore_obj X) bs buf l1 l2 w :
  issue obj bs buf (l1 ++ l2) w
  = let '(rc, w1) := issue obj bs buf l1 w in
    if negb (rc =? 0) then (rc, w1) else issue obj bs buf l2 w1.
Proof.
  revert w. induction l1 as [|[o c] l1 IH]; intros w; cbn [issue_writes app].
  - reflexivity.
  - destruct (dstore_pwrite _ _ _ _ _ _ _ _) as [rc w1].
    destruct (negb (rc =? 0)) eqn:E; [rewrite E; reflexivity | apply IH].
Qed.

Lemma shrink_loop_issue (obj : dstore_obj X) new_size bsize buf n s w :
  0 <= new_size ->
  new_size + Z.of_nat (s + n) * DSAL_MAX_IO_SIZE < 9223372036854775808 ->
  let '(rc, w') := issue obj bsize buf (chunk_requests new_size s n) w in
  exists index,
    shrink_loop heap_alloc ops obj new_size bsize buf n (Z.of_nat s) w
      = (rc, index, w')
    /\ (rc = 0 -> index = Z.of_nat (s + n)).
Proof.
  intros Hnew. revert s w.
  induction n as [|n IH]; intros s w Hfit;
    cbn [shrink_loop chunk_requests seq map issue_writes].
  - exists (Z.of_nat s). split; [reflexivity|]. intros _. f_equal. lia.
  - assert (Hc : 0 < DSAL_MAX_IO_SIZE) by reflexivity.
    assert (Hofs : to_off_t (to_size_t (new_size
                     + to_size_t (Z.of_nat s * DSAL_MAX_IO_SIZE)))
                   = new_size + Z.of_nat s * DSAL_MAX_IO_SIZE).
    { rewrite (to_size_t_id (Z.of_nat s * _)) by (unfold in_size_t; nia).
      rewrite to_size_t_id by (unfold in_size_t; nia).
      apply to_off_t_id. unfold in_off_t, in_ssize_t. nia. }
    rewrite Hofs.
    destruct (dstore_pwrite _ _ _ _ _ _ _ _) as [rc w1].
    destruct (rc =? 0) eqn:E; cbn [negb].
    + specialize (IH (S s) w1).
      replace (Z.of_nat s + 1) with (Z.of_nat (S s)) by lia.
      fold (chunk_requests new_size (S s) n).
      destruct (issue _ _ _ _ _) as [rc' w'].
      destruct IH as [index [Hl Hi]]; [lia|].
      exists index. split; [exact Hl|]. intros H. rewrite (Hi H). f_equal. lia.
    + exists (Z.of_nat s). split; [reflexivity|].
      intros H. subst rc. discriminate.
Qed.

Lemma tiles_app lo mid hi l1 l2 :
  tiles lo mid l1 -> tiles mid hi l2 -> tiles lo hi (l1 ++ l2).
Proof.
  revert lo. induction l1 as [|[o c] l1 IH]; intros lo; cbn [tiles app].
  - intros ->. auto.
  - intros (Ho & Hc & Ht) H2. repeat split; auto.
Qed.

Lemma tiles_chunk_requests new_size s n :
  tiles (new_size + Z.of_nat s * DSAL_MAX_IO_SIZE)
        (new_size + Z.of_nat (s + n) * DSAL_MAX_IO_SIZE)
        (chunk_requests new_size s n).
Proof.
  revert s. induction n as [|n IH]; intros s; cbn [chunk_requests seq map tiles].
  - f_equal. f_equal. f_equal. lia.
  - split; [reflexivity|]. split; [reflexivity|].
    specialize (IH (S s)). unfold chunk_requests in IH.
    replace (new_size + Z.of_nat s * DSAL_MAX_IO_SIZE + DSAL_MAX_IO_SIZE)
      with (new_size + Z.of_nat (S s) * DSAL_MAX_IO_SIZE) by lia.
    replace (s + S n)%nat with (S s + n)%nat by lia. exact IH.
Qed.

Lemma shrink_requests_tile old_size new_size :
  new_size < old_size ->
  tiles new_size old_size (shrink_requests old_size new_size).
Proof.
  intros H. unfold shrink_requests.
  assert (Hc : 0 < DSAL_MAX_IO_SIZE) by reflexivity.
  pose proof (Z.div_mod (old_size - new_size) DSAL_MAX_IO_SIZE ltac:(lia)) as Hdm.
  pose proof (Z.mod_pos_bound (old_size - new_size) DSAL_MAX_IO_SIZE Hc) as Hm.
  assert (Hq : 0 <= (old_size - new_size) / DSAL_MAX_IO_SIZE)
    by (apply Z.div_pos; lia).
  set (q := (old_size - new_size) / DSAL_MAX_IO_SIZE) in *.
  set (r := (old_size - new_size) mod DSAL_MAX_IO_SIZE) in *.
  apply tiles_app with (mid := new_size + q * DSAL_MAX_IO_SIZE).
  - pose proof (tiles_chunk_requests new_size 0 (Z.to_nat q)) as T.
    unfold chunk_requests in T. cbn [Nat.add Z.of_nat] in T.
    rewrite Z2Nat.id in T by lia.
    replace (new_size + 0 * DSAL_MAX_IO_SIZE) with new_size in T by lia.
    exact T.
  - destruct (r =? 0) eqn:E; cbn [tiles].
    + apply Z.eqb_eq in E. lia.
    + apply Z.eqb_neq in E. repeat split; lia.
Qed.

(** The writes of a resize: with [old_size <= new_size] the call returns 0
    and leaves the world as it was; with [old_size > new_size] (and the
    scratch buffer allocated) it issues, through [dstore_pwrite] with the
    backend's block size and a buffer of 2^20 zero bytes,
    floor((old - new) / 2^20) writes of 2^20 bytes at new + i * 2^20 and
    then at most one write of the remainder, which together tile
    [new_size, old_size), and it stops with the first non-zero rc. *)
Theorem dstore_obj_resize_semantics (obj : dstore_obj X) old_size new_size w :
  0 <= new_size -> 0 <= old_size < 9223372036854775808 ->
  (old_size <= new_size ->
   dstore_obj_resize heap_alloc ops obj old_size new_size w = (0, w))
  /\
  (new_size < old_size ->
   tiles new_size old_size (shrink_requests old_size new_size)
   /\ forall w1, heap_alloc w = (true, w1) ->
      dstore_obj_resize heap_alloc ops obj old_size new_size w
      = issue obj (to_size_t (dstore_get_bsize ops (obj_oid obj) w))
              (zeros DSAL_MAX_IO_SIZE)
              (shrink_requests old_size new_size) w1).
Proof.
  intros Hnew Hold. unfold dstore_obj_resize. split.
  - intros H. apply Z.leb_le in H. rewrite H. reflexivity.
  - intros H. split; [apply shrink_requests_tile; exact H|].
    intros w1 Halloc.
    assert (E : (old_size <=? new_size) = false) by (apply Z.leb_gt; exact H).
    rewrite E. unfold dstore_obj_shrink, calloc. rewrite Halloc.
    assert (Hc : 0 < DSAL_MAX_IO_SIZE) by reflexivity.
    change (to_size_t (1 * DSAL_MAX_IO_SIZE)) with DSAL_MAX_IO_SIZE.
    rewrite (to_size_t_id (old_size - new_size)) by (unfold in_size_t; lia).
    rewrite (to_off_t_id new_size) by (unfold in_off_t, in_ssize_t; lia).
    pose proof (Z.div_mod (old_size - new_size) DSAL_MAX_IO_SIZE ltac:(lia)) as Hdm.
    pose proof (Z.mod_pos_bound (old_size - new_size) DSAL_MAX_IO_SIZE Hc) as Hm.
    assert (Hq : 0 <= (old_size - new_size) / DSAL_MAX_IO_SIZE)
      by (apply Z.div_pos; lia).
    unfold shrink_requests.
    set (q := (old_size - new_size) / DSAL_MAX_IO_SIZE) in *.
    set (r := (old_size - new_size) mod DSAL_MAX_IO_SIZE) in *.
    set (bsize := to_size_t (dstore_get_bsize ops (obj_oid obj) w)).
    rewrite (to_size_t_id (q * DSAL_MAX_IO_SIZE)) by (unfold in_size_t; nia).
    replace (old_size - new_size - q * DSAL_MAX_IO_SIZE) with r by lia.
    rewrite (to_size_t_id r) by (unfold in_size_t; lia).
    rewrite issue_writes_app.
    pose proof (shrink_loop_issue obj new_size bsize (zeros DSAL_MAX_IO_SIZE)
                  (Z.to_nat q) 0 w1 Hnew) as L.
    fold (chunk_requests new_size 0 (Z.to_nat q)).
    change (Z.of_nat 0) with 0 in L.
    destruct (issue obj bsize (zeros DSAL_MAX_IO_SIZE)
                (chunk_requests new_size 0 (Z.to_nat q)) w1) as [rc w2].
    destruct L as [index [Hl Hi]].
    { cbn [Nat.add]. rewrite Z2Nat.id by lia. nia. }
    rewrite Hl.
    destruct (rc =? 0) eqn:Erc; cbn [negb]; [|reflexivity].
    apply Z.eqb_eq in Erc. rewrite (Hi Erc). cbn [Nat.add].
    rewrite Z2Nat.id by lia.
    destruct (r =? 0) eqn:Er; cbn [negb issue_writes].
    + rewrite Erc. reflexivity.
    + rewrite (to_size_t_id (q * DSAL_MAX_IO_SIZE)) by (unfold in_size_t; nia).
      rewrite to_size_t_id by (unfold in_size_t; nia).
      rewrite to_off_t_id by (unfold in_off_t, in_ssize_t; nia).
      destruct (dstore_pwrite _ _ _ _ _ _ _ _) as [rc' w3].
      destruct (rc' =? 0) eqn:E'; cbn [negb]; [|reflexivity].
      apply Z.eqb_eq in E'. subst rc'. reflexivity.
Qed.

End Resize.

(** ** The CORTX plugin *)

Section CortxProperties.

Context {M COBJ COP : Type}.
Variable m0 : m0_api M COBJ COP.

(** C7. IO operation type validation: [cortx_ds_io_op_init] accepts
    WRITE, READ and FREE (with the allocation and [m0_obj_op] succeeding
    it returns 0 and an operation of that type), and rejects any other
    type with -EINVAL, storing no operation and calling neither the
    allocator nor Motr. *)
Theorem cortx_ds_io_op_init_type_validation
    (dobj : dstore_obj COBJ) (type : dstore_io_op_type)
    (bvec : dstore_io_vec) (m : M) :
  (type = DSTORE_IO_OP_WRITE \/ type = DSTORE_IO_OP_READ
   \/ type = DSTORE_IO_OP_FREE ->
   forall m1 c m2,
     m0_alloc_ptr m0 m = (true, m1) ->
     m0_obj_op m0 (obj_ext dobj) (dstore_io_op_type2m0_op_type type)
               (extents_of bvec)
               (if has_data bvec then Some (dbufs bvec) else None) m1
       = (0, Some c, m2) ->
     cortx_ds_io_op_init m0 dobj type bvec m
       = (0,
          Some {| op_type := type; op_obj := dobj; op_data := bvec;
                  op_ext := {| cop := c |} |},
          m0_log m0 LOG_DEBUG "io_op_init" m2))
  /\
  ((forall raw, type = DSTORE_IO_OP_OTHER raw ->
    cortx_ds_io_op_init m0 dobj type bvec m
      = (- EINVAL, None,
         m0_log m0 LOG_DEBUG "io_op_init"
           (m0_log m0 LOG_ERR "Unsupported IO operation" m)))).
Proof.
  split.
  - intros Hty m1 c m2 Halloc Hop.
    unfold cortx_ds_io_op_init.
    assert (Hs : io_op_type_supported type = true)
      by (destruct Hty as [-> | [-> | ->]]; reflexivity).
    rewrite Hs, Halloc. cbn [negb].
    destruct (has_data bvec); rewrite Hop; reflexivity.
  - intros raw ->. reflexivity.
Qed.

(** C8. Delete of a non-existent object: when the backend's delete
    reports -ENOENT, [dstore_obj_delete] logs a warning and returns
    -ENOENT to its caller; the facade returns the plugin's rc as it is. *)
Theorem dstore_obj_delete_enoent (oid : dstore_oid_t) (m m1 : M) :
  m0store_delete_object m0 oid m = (- ENOENT, m1) ->
  dstore_obj_delete (cortx_dstore_ops m0) oid m
    = (- ENOENT,
       m0_log m0 LOG_DEBUG "EXIT" (m0_log m0 LOG_WARN "Non-existing obj" m1))
  /\ fst (dstore_obj_delete (cortx_dstore_ops m0) oid m) <> 0.
Proof.
  intros H. unfold dstore_obj_delete. cbn [obj_delete cortx_dstore_ops].
  unfold cortx_ds_obj_del. rewrite H. cbn. split; [reflexivity|].
  unfold ENOENT. lia.
Qed.

(** [strncmp] bounded by the length of its first argument tests whether
    that argument is a prefix of the second. *)
Lemma strncmp_strlen_prefix s t :
  c_string s = true ->
  (strncmp s t (strlen s) =? 0) = String.prefix s t.
Proof.
  revert t. induction s as [|c s IH]; intros t Hs.
  - destruct t; reflexivity.
  - cbn [c_string] in Hs. apply andb_true_iff in Hs. destruct Hs as [Hc Hs].
    apply negb_true_iff, Ascii.eqb_neq in Hc.
    destruct t as [|d t]; cbn [strlen String.length strncmp String.prefix].
    + apply Z.eqb_neq. intros H. apply Hc.
      assert (N_of_ascii c = 0%N) as Hn by lia.
      rewrite <- (ascii_N_embedding c), Hn. reflexivity.
    + destruct (Ascii.eqb c d) eqn:E.
      * apply Ascii.eqb_eq in E. subst d.
        destruct (ascii_dec c c); [apply IH, Hs | contradiction].
      * apply Ascii.eqb_neq in E.
        destruct (ascii_dec c d) as [->|_]; [contradiction|].
        apply Z.eqb_neq. intros H. apply E.
        assert (N_of_ascii c = N_of_ascii d) as Hn by lia.
        rewrite <- (ascii_N_embedding c), <- (ascii_N_embedding d), Hn.
        reflexivity.
Qed.

End CortxProperties.

(** ** Backend selection *)

Section InitProperties.

Context {M COBJ COP : Type}.
Variable m0 : m0_api M COBJ COP.

Lemma select_module_prefix {W X Y : Type} (dstore_type : string)
    (modules : list (dstore_module W X Y)) :
  c_string dstore_type = true ->
  select_module dstore_type modules
  = find (fun md => String.prefix dstore_type (mod_type md)) modules.
Proof.
  intros Hs. induction modules as [|md rest IH]; cbn [select_module find].
  - reflexivity.
  - rewrite strncmp_strlen_prefix by exact Hs.
    destruct (String.prefix dstore_type (mod_type md)); [reflexivity | exact IH].
Qed.

(** C5 (amended). Backend selection: [dstore_init] looks up the key
    [dstore.type]; when the key is missing it returns -EINVAL and leaves
    the datastore as it was; when the value is the registry name "cortx"
    it binds the datastore to the cortx operations table and returns the
    rc of the backend's [init]; when the value matches no registry row
    (it is not a prefix of a registered name) the call does not return
    -EINVAL: the assertion on the selected table fails. *)
Theorem dstore_init_backend_selection (cfg : collection_item) (flags : Z)
    (g : dstore M COBJ (cortx_io_op COP)) (m : M) :
  (get_config_item "dstore" "type" cfg = (0, None) ->
   dstore_init m0 cfg flags g m = Returned (- EINVAL, g, m))
  /\
  (forall item,
     get_config_item "dstore" "type" cfg = (0, Some item) ->
     get_string_config_value item = "cortx"%string ->
     dstore_init m0 cfg flags g m
     = Returned (fst (m0init m0 cfg m),
                 {| ds_type := Some "cortx"%string; ds_cfg := Some cfg;
                    ds_flags := flags;
                    ds_ops := Some (cortx_dstore_ops m0) |},
                 snd (m0init m0 cfg m)))
  /\
  (forall item,
     get_config_item "dstore" "type" cfg = (0, Some item) ->
     c_string (get_string_config_value item) = true ->
     String.prefix (get_string_config_value item) "cortx" = false ->
     dstore_init m0 cfg flags g m = AssertFailed).
Proof.
  unfold dstore_init, dstore_init_with. repeat split.
  - intros ->. reflexivity.
  - intros item -> Hv. cbn [Z.eqb negb]. rewrite Hv.
    cbn [dstore_modules select_module strlen String.length strncmp
         mod_type Ascii.eqb Bool.eqb Z.eqb option_map mod_ops ds_ops].
    cbn [init cortx_dstore_ops]. unfold cortx_ds_init.
    destruct (m0init m0 cfg m) as [rc m1]. cbn [fst snd].
    destruct (rc =? 0) eqn:E; cbn [negb]; [|reflexivity].
    apply Z.eqb_eq in E. subst rc. reflexivity.
  - intros item -> Hs Hp. cbn [Z.eqb negb].
    rewrite select_module_prefix by exact Hs.
    cbn [dstore_modules find mod_type]. rewrite Hp. reflexivity.
Qed.

End InitProperties.
(** ** No -ENOENT from a read *)

Section ReadNeverEnoent.

Context {W X Y : Type}.
Variable heap_alloc : W -> bool * W.
Variable ops : dstore_ops W X Y.

Local Abbreviation rc_of := (fun r : Z * list byte * W => fst (fst r)).

Lemma handle_holes_not_enoent (obj : dstore_obj X) buf size off bs w :
  rc_of (pread_aligned_handle_holes heap_alloc ops obj buf size off bs w)
  <> - ENOENT.
Proof.
  unfold pread_aligned_handle_holes.
  destruct (pread_aligned _ _ _ _ _ _ _) as [[rc buf'] w1].
  destruct (rc =? - ENOENT) eqn:E.
  - apply reread_blocks_not_enoent.
  - cbn. apply Z.eqb_neq in E. exact E.
Qed.

Lemma read_right_most_not_enoent (obj : dstore_obj X) bs tmpbuf rc count
    offset buf_pos buf w :
  rc <> - ENOENT ->
  rc_of (read_right_most heap_alloc ops obj bs tmpbuf rc count offset buf_pos
           buf w) <> - ENOENT.
Proof.
  intros Hrc. unfold read_right_most.
  destruct (count =? 0); [exact Hrc|].
  pose proof (handle_holes_not_enoent obj tmpbuf bs offset bs w) as H.
  destruct (pread_aligned_handle_holes _ _ _ _ _ _ _ _) as [[rc1 t1] w1].
  destruct (rc1 <? 0); exact H.
Qed.

Lemma continous_aligned_read_not_enoent (obj : dstore_obj X) bs tmpbuf rc
    count offset buf_pos buf w :
  rc <> - ENOENT ->
  rc_of (continous_aligned_read heap_alloc ops obj bs tmpbuf rc count offset
           buf_pos buf w) <> - ENOENT.
Proof.
  intros Hrc. unfold continous_aligned_read.
  destruct (0 <? to_uint32 (count / bs)).
  - match goal with |- context [pread_aligned_handle_holes _ _ _ ?b ?s ?f bs w] =>
      pose proof (handle_holes_not_enoent obj b s f bs w) as H end.
    destruct (pread_aligned_handle_holes _ _ _ _ _ _ _ _) as [[rc1 run] w1].
    destruct (rc1 <? 0); [exact H|].
    apply read_right_most_not_enoent. exact H.
  - apply read_right_most_not_enoent. exact Hrc.
Qed.

(** Whatever the backend does, [dstore_pread] never returns -ENOENT: a
    -ENOENT of the backend is retried block by block and ends as
    zeroes in the buffer, for a request of any size and alignment. *)
Theorem dstore_pread_never_enoent (obj : dstore_obj X) offset count bs buf w :
  (rc_of (dstore_pread heap_alloc ops obj offset count bs buf w) =? - ENOENT)
  = false.
Proof.
  apply Z.eqb_neq.
  unfold dstore_pread, __dstore_pread.
  destruct ((count mod bs =? 0) && (to_size_t offset mod bs =? 0)).
  - apply handle_holes_not_enoent.
  - unfold pread_unaligned, calloc.
    destruct (heap_alloc w) as [[|] w1]; [|cbn; unfold ENOMEM, ENOENT; lia].
    destruct ((to_size_t offset mod bs =? 0) && (bs <=? count)).
    + apply continous_aligned_read_not_enoent. unfold ENOENT. lia.
    + match goal with |- context [pread_aligned_handle_holes _ _ _ ?b ?s ?f bs w1] =>
        pose proof (handle_holes_not_enoent obj b s f bs w1) as H end.
      destruct (pread_aligned_handle_holes _ _ _ _ _ _ _ _) as [[rc1 t1] w2].
      destruct (rc1 <? 0); [exact H|].
      match goal with |- context [if ?c then _ else _] => destruct c end;
        [exact H|].
      apply continous_aligned_read_not_enoent. exact H.
Qed.

End ReadNeverEnoent.

(** ** The in-memory store: extents *)

Module StoreFacts.

Import MemMotr.

Lemma length_read_extent d a n : length (read_extent d a n) = Z.to_nat n.
Proof. unfold read_extent. rewrite length_map, length_seq. reflexivity. Qed.

Lemma read_extent_from d a (s n : nat) :
  map (fun i => byte_at d (a + Z.of_nat i)) (seq s n)
  = read_extent d (a + Z.of_nat s) (Z.of_nat n).
Proof.
  unfold read_extent. rewrite Nat2Z.id.
  rewrite <- (Nat.add_0_r s) at 1. generalize 0%nat as t.
  induction n as [|n IH]; intros t; cbn [seq map].
  - reflexivity.
  - f_equal.
    + f_equal. lia.
    + rewrite <- Nat.add_succ_r. apply IH.
Qed.

Lemma read_extent_app d a n m :
  0 <= n -> 0 <= m ->
  read_extent d a (n + m) = read_extent d a n ++ read_extent d (a + n) m.
Proof.
  intros Hn Hm. unfold read_extent at 1 2.
  rewrite Z2Nat.inj_add by assumption.
  rewrite seq_app, map_app. f_equal.
  cbn [Nat.add]. rewrite read_extent_from.
  rewrite !Z2Nat.id by assumption. reflexivity.
Qed.

Lemma firstn_read_extent d a n k :
  0 <= k <= n ->
  firstn (Z.to_nat k) (read_extent d a n) = read_extent d a k.
Proof.
  intros H. replace n with (k + (n - k)) by lia.
  rewrite read_extent_app by lia.
  rewrite <- (length_read_extent d a k) at 1.
  rewrite firstn_app, Nat.sub_diag, firstn_O, app_nil_r. apply firstn_all.
Qed.

Lemma skipn_read_extent d a n k :
  0 <= k <= n ->
  skipn (Z.to_nat k) (read_extent d a n) = read_extent d (a + k) (n - k).
Proof.
  intros H. replace n with (k + (n - k)) at 1 by lia.
  rewrite read_extent_app by lia.
  rewrite <- (length_read_extent d a k) at 1.
  rewrite skipn_app, Nat.sub_diag, skipn_all. reflexivity.
Qed.

Lemma extent_written_iff d a n :
  extent_written d a n = true
  <-> forall k, a <= k < a + n -> is_written d k = true.
Proof.
  unfold extent_written. rewrite forallb_forall. split.
  - intros H k Hk. replace k with (a + Z.of_nat (Z.to_nat (k - a))) by lia.
    apply H. apply in_seq. lia.
  - intros H i Hi. apply in_seq in Hi. apply H. lia.
Qed.

Lemma extent_written_sub d a n a' n' :
  extent_written d a n = true -> a <= a' -> a' + n' <= a + n ->
  extent_written d a' n' = true.
Proof.
  rewrite !extent_written_iff. intros H Ha Hn k Hk. apply H. lia.
Qed.

Lemma write_extent_inside d a n buf k :
  a <= k < a + n ->
  write_extent d a n buf k = Some (nth (Z.to_nat (k - a)) buf x00).
Proof.
  intros H. unfold write_extent.
  replace ((a <=? k) && (k <? a + n)) with true; [reflexivity|].
  symmetry. apply andb_true_iff. split; [apply Z.leb_le | apply Z.ltb_lt]; lia.
Qed.

Lemma write_extent_outside d a n buf k :
  k < a \/ a + n <= k ->
  write_extent d a n buf k = d k.
Proof.
  intros H. unfold write_extent.
  replace ((a <=? k) && (k <? a + n)) with false; [reflexivity|].
  symmetry. apply andb_false_iff.
  destruct H; [left; apply Z.leb_gt | right; apply Z.ltb_ge]; lia.
Qed.

Lemma extent_written_write_extent d a n buf :
  extent_written (write_extent d a n buf) a n = true.
Proof.
  apply extent_written_iff. intros k Hk. unfold is_written.
  rewrite write_extent_inside by exact Hk. reflexivity.
Qed.

(** Reading inside an extent that was written gives the written bytes. *)
Lemma read_extent_write_extent d a n buf a' n' :
  length buf = Z.to_nat n -> a <= a' -> 0 <= n' -> a' + n' <= a + n ->
  read_extent (write_extent d a n buf) a' n'
  = firstn (Z.to_nat n') (skipn (Z.to_nat (a' - a)) buf).
Proof.
  intros Hlen Ha Hn' Hfit.
  apply nth_ext with (d := x00) (d' := x00).
  - rewrite length_read_extent, length_firstn, length_skipn. lia.
  - intros i Hi. rewrite length_read_extent in Hi.
    unfold read_extent.
    rewrite (nth_indep _ x00 (byte_at (write_extent d a n buf) (a' + Z.of_nat 0)))
      by (rewrite length_map, length_seq; exact Hi).
    rewrite (map_nth (fun i => byte_at (write_extent d a n buf) (a' + Z.of_nat i))).
    rewrite seq_nth by exact Hi. cbn [Nat.add].
    unfold byte_at. rewrite write_extent_inside by lia.
    rewrite nth_firstn.
    replace (i <? Z.to_nat n')%nat with true by (symmetry; apply Nat.ltb_lt; exact Hi).
    rewrite nth_skipn. f_equal. lia.
Qed.

End StoreFacts.

(** ** Buffers keep their length *)

Section BufferLengths.

Context {W X Y : Type}.
Variable heap_alloc : W -> bool * W.
Variable ops : dstore_ops W X Y.

Local Abbreviation buf_of := (fun r : Z * list byte * W => snd (fst r)).

Lemma length_pread_aligned (obj : dstore_obj X) buf size off w :
  length (buf_of (pread_aligned heap_alloc ops obj buf size off w)) = length buf.
Proof.
  unfold pread_aligned.
  destruct (dstore_io_buf_init _ _ _ _ _) as [[rc b] w1].
  destruct (rc =? 0), b as [b|]; try reflexivity.
  destruct (dstore_io_buf2vec _ _ _) as [[rc2 v] w2].
  destruct (rc2 =? 0), v as [v|]; try reflexivity.
  destruct (dstore_io_op_read _ _ _ _ _) as [[rc3 rop] w3].
  destruct (rc3 =? 0), rop as [rop|]; try reflexivity.
  destruct (dstore_io_op_wait _ _ _) as [[rc4 rop'] w4].
  apply length_blit.
Qed.

Lemma length_ptr_store_blk buf pos blk :
  length blk = length (ptr_add buf pos) ->
  length (ptr_store buf pos blk) = length buf.
Proof.
  unfold ptr_store, ptr_add. intros H.
  rewrite length_app, H, length_firstn, length_skipn. lia.
Qed.

Lemma length_reread_blocks (obj : dstore_obj X) bs offset n i buf w :
  length (buf_of (reread_blocks heap_alloc ops obj bs offset n i buf w))
  = length buf.
Proof.
  revert i buf w. induction n as [|n IH]; intros i buf w; cbn [reread_blocks].
  - reflexivity.
  - pose proof (length_pread_aligned obj (ptr_add buf (to_size_t (i * bs))) bs
                  (to_off_t (to_size_t (offset + to_size_t (i * bs)))) w) as L.
    destruct (pread_aligned _ _ _ _ _ _ _) as [[rc blk] w1]. cbn [fst snd] in L.
    assert (L1 : length (ptr_store buf (to_size_t (i * bs)) blk) = length buf)
      by (apply length_ptr_store_blk; exact L).
    destruct (rc =? 0); [rewrite IH; exact L1|].
    destruct (rc =? - ENOENT); [|exact L1].
    rewrite IH. rewrite length_ptr_store_blk; [exact L1|].
    apply length_memset.
Qed.

Lemma length_pread_aligned_handle_holes (obj : dstore_obj X) buf size off bs w :
  length (buf_of (pread_aligned_handle_holes heap_alloc ops obj buf size off bs w))
  = length buf.
Proof.
  unfold pread_aligned_handle_holes.
  pose proof (length_pread_aligned obj buf size off w) as L.
  destruct (pread_aligned _ _ _ _ _ _ _) as [[rc b] w1]. cbn [fst snd] in L.
  destruct (rc =? - ENOENT); [|exact L].
  rewrite length_reread_blocks. exact L.
Qed.

End BufferLengths.

(** ** The facade over the in-memory store *)

Module StoreIO.

Import MemMotr StoreFacts.

Lemma blit_firstn_self buf n : blit buf (firstn n buf) = buf.
Proof.
  unfold blit. rewrite length_firstn.
  destruct (Nat.le_gt_cases n (length buf)).
  - rewrite Nat.min_l by lia. rewrite firstn_skipn. apply firstn_all.
  - rewrite Nat.min_r by lia. rewrite (firstn_all2 (n:=n) buf) by lia.
    rewrite skipn_all. rewrite app_nil_r. apply firstn_all.
Qed.

Lemma oid_eqb_refl a : oid_eqb a a = true.
Proof. unfold oid_eqb. rewrite !Z.eqb_refl. reflexivity. Qed.

(** What [pread_aligned] does on the store: it never changes the
    objects; it fails with -ENOMEM or -ENOENT and leaves the buffer, or
    returns 0 with the extent, which is written throughout. *)
Lemma pread_aligned_spec (o : dstore_obj dstore_oid_t) buf size off w :
  exists rc buf' w',
    pread_aligned heap_alloc ops o buf size off w = (rc, buf', w')
    /\ objects w' = objects w
    /\ ((rc = - ENOMEM /\ buf' = buf)
        \/ (rc = - ENOENT /\ buf' = buf
            /\ match objects w (obj_ext o) with
               | None => True
               | Some d => extent_written d off size = false
               end)
        \/ (rc = 0
            /\ exists d, objects w (obj_ext o) = Some d
                         /\ extent_written d off size = true
                         /\ buf' = blit buf (read_extent d off size))).
Proof.
  destruct w as [objs heap lg bsz].
  unfold pread_aligned, dstore_io_buf_init, dstore_io_buf2vec,
    dstore_io_op_read, dstore_io_op_init_and_submit, dstore_io_op_wait,
    dstore_io_op_fini.
  destruct heap as [|[|[|[|n]]]];
    try (cbn; eexists _, _, _; split; [reflexivity|]; cbn; tauto).
  cbn. unfold cortx_ds_io_op_submit, sync_bufs. cbn.
  unfold MemMotr.m0_op_launch. cbn.
  destruct (objs (obj_ext o)) as [d|] eqn:Ed.
  - cbn. rewrite andb_true_r.
    destruct (extent_written d off size) eqn:Ew; cbn.
    + eexists _, _, _. split; [reflexivity|]. cbn.
      split; [reflexivity|]. right; right. split; [reflexivity|].
      exists d. auto.
    + rewrite blit_firstn_self.
      eexists _, _, _. split; [reflexivity|]. cbn. tauto.
  - cbn. rewrite blit_firstn_self.
    eexists _, _, _. split; [reflexivity|]. cbn. tauto.
Qed.

(** What [pwrite_aligned] does on the store: on success the extent holds
    the first [size] bytes of the buffer and nothing else changed. *)
Lemma pwrite_aligned_spec (o : dstore_obj dstore_oid_t) buf size off w :
  exists rc w',
    pwrite_aligned heap_alloc ops o buf size off w = (rc, w')
    /\ ((rc <> 0 /\ objects w' = objects w)
        \/ (rc = 0
            /\ exists d, objects w (obj_ext o) = Some d
                 /\ objects w'
                    = fun k => if oid_eqb k (obj_ext o)
                               then Some (write_extent d off size
                                            (firstn (Z.to_nat size) buf))
                               else objects w k)).
Proof.
  destruct w as [objs heap lg bsz].
  unfold pwrite_aligned, dstore_io_buf_init, dstore_io_buf2vec,
    dstore_io_op_write, dstore_io_op_init_and_submit, dstore_io_op_wait,
    dstore_io_op_fini.
  destruct heap as [|[|[|[|n]]]];
    try (cbn; eexists _, _; split; [reflexivity|]; cbn; left;
         split; [unfold ENOMEM; lia | reflexivity]).
  cbn. unfold cortx_ds_io_op_submit, sync_bufs. cbn.
  unfold MemMotr.m0_op_launch. cbn.
  destruct (objs (obj_ext o)) as [d|] eqn:Ed.
  - cbn. eexists _, _. split; [reflexivity|]. cbn. right.
    split; [reflexivity|]. exists d. auto.
  - cbn. eexists _, _. split; [reflexivity|]. cbn. left.
    split; [lia | reflexivity].
Qed.

Lemma reread_blocks_objects (o : dstore_obj dstore_oid_t) bs offset n i buf w :
  objects (snd (reread_blocks heap_alloc ops o bs offset n i buf w))
  = objects w.
Proof.
  revert i buf w. induction n as [|n IH]; intros i buf w; cbn [reread_blocks].
  - reflexivity.
  - destruct (pread_aligned_spec o (ptr_add buf (to_size_t (i * bs))) bs
                (to_off_t (to_size_t (offset + to_size_t (i * bs)))) w)
      as (rc & blk & w1 & E & Hobj & _).
    rewrite E.
    destruct (rc =? 0); [rewrite IH; exact Hobj|].
    destruct (rc =? - ENOENT); [rewrite IH; exact Hobj | exact Hobj].
Qed.

(** The hole-tolerant reader never changes the objects. *)
Lemma handle_holes_objects (o : dstore_obj dstore_oid_t) buf size off bs w :
  objects (snd (pread_aligned_handle_holes heap_alloc ops o buf size off bs w))
  = objects w.
Proof.
  unfold pread_aligned_handle_holes.
  destruct (pread_aligned_spec o buf size off w)
    as (rc & buf' & w1 & E & Hobj & _).
  rewrite E.
  destruct (rc =? - ENOENT); [|exact Hobj].
  rewrite reread_blocks_objects. exact Hobj.
Qed.

(** Over an extent that is written throughout, the hole-tolerant reader
    delivers the extent, or fails for lack of memory. *)
Lemma handle_holes_written (o : dstore_obj dstore_oid_t) buf size off bs w d :
  objects w (obj_ext o) = Some d ->
  extent_written d off size = true ->
  exists rc buf' w',
    pread_aligned_handle_holes heap_alloc ops o buf size off bs w
      = (rc, buf', w')
    /\ objects w' = objects w
    /\ ((rc = 0 /\ buf' = blit buf (read_extent d off size))
        \/ rc = - ENOMEM).
Proof.
  intros Hd Hw.
  pose proof (handle_holes_objects o buf size off bs w) as Hobj.
  unfold pread_aligned_handle_holes in *.
  destruct (pread_aligned_spec o buf size off w)
    as (rc & buf' & w1 & E & _ & Hcases).
  rewrite E in *.
  destruct Hcases as [[-> ->] | [(-> & _ & Hn) | (-> & d' & Hd' & _ & ->)]].
  - cbn in *. eexists _, _, _. split; [reflexivity|]. auto.
  - rewrite Hd, Hw in Hn. discriminate.
  - rewrite Hd in Hd'. inversion Hd'; subst d'.
    cbn in *. eexists _, _, _. split; [reflexivity|]. auto.
Qed.

End StoreIO.

(** ** Block arithmetic of an unaligned request *)

Lemma unaligned_blocks offset count bs :
  0 < bs -> 0 <= offset -> 0 <= count ->
  (count mod bs =? 0) && (offset mod bs =? 0) = false ->
  let L := first_block offset bs in
  let R := last_block offset count bs in
  0 <= L /\ L <= R /\ L * bs <= offset /\ offset < (L + 1) * bs
  /\ R * bs < offset + count + (if count =? 0 then 1 else 0)
  /\ offset + count <= (R + 1) * bs
  /\ R <= (offset + count) / bs.
Proof.
  intros Hbs Hoff Hcnt Hun. unfold first_block, last_block.
  pose proof (Z.div_mod offset bs ltac:(lia)) as D1.
  pose proof (Z.mod_pos_bound offset bs Hbs) as B1.
  pose proof (Z.div_mod (offset + count) bs ltac:(lia)) as D2.
  pose proof (Z.mod_pos_bound (offset + count) bs Hbs) as B2.
  pose proof (Z.div_pos offset bs Hoff Hbs) as P1.
  assert (Hmono : offset / bs <= (offset + count) / bs)
    by (apply Z.div_le_mono; lia).
  set (L := offset / bs) in *. set (Q := (offset + count) / bs) in *.
  set (ro := offset mod bs) in *. set (re := (offset + count) mod bs) in *.
  destruct (re =? 0) eqn:Ere.
  - apply Z.eqb_eq in Ere.
    assert (Hro : ro <> 0).
    { intros Hro. apply andb_false_iff in Hun.
      assert (Hc : count = (Q - L) * bs) by lia.
      destruct Hun as [Hun | Hun]; apply Z.eqb_neq in Hun; apply Hun.
      - rewrite Hc. apply Z.mod_mul. lia.
      - exact Hro. }
    assert (L < Q) by nia.
    destruct (count =? 0) eqn:Ec; [apply Z.eqb_eq in Ec | apply Z.eqb_neq in Ec];
      repeat split; try lia; nia.
  - apply Z.eqb_neq in Ere.
    destruct (count =? 0) eqn:Ec; [apply Z.eqb_eq in Ec | apply Z.eqb_neq in Ec];
      repeat split; try lia; nia.
Qed.

(** ** The unaligned write is the read-modify-write of the design *)

Section UnalignedWrite.

Context {W X Y : Type}.
Variable heap_alloc : W -> bool * W.
Variable ops : dstore_ops W X Y.

(** Within 32-bit block numbers the C arithmetic of [pwrite_unaligned]
    computes the blocks L..R of the request, and the function is the
    read-modify-write [rmw_write]. *)
Lemma pwrite_unaligned_as_rmw (o : dstore_obj X) offset count bs buf w :
  fits_uint32 offset count bs ->
  aligned offset count bs = false ->
  pwrite_unaligned heap_alloc ops o offset count bs buf w
  = rmw_write heap_alloc ops o offset count bs buf w.
Proof.
  intros (Hbs & Hoff & Hcnt & Hblk & Hfit) Hun.
  unfold aligned in Hun.
  rewrite to_size_t_id in Hun by (unfold in_size_t; nia).
  destruct (unaligned_blocks offset count bs ltac:(lia) Hoff ltac:(lia) Hun)
    as (HL0 & HLR & HLo & HoL & HRlo & HRhi & HRQ).
  unfold pwrite_unaligned, rmw_write.
  assert (HQ : (offset + count) / bs < 4294967296)
    by (apply Z.div_lt_upper_bound; lia).
  rewrite (to_size_t_id offset) by (unfold in_size_t; nia).
  rewrite (to_size_t_id (offset + count)) by (unfold in_size_t; nia).
  fold (first_block offset bs).
  rewrite (to_uint32_id (first_block offset bs)) by lia.
  assert (HR : (if (offset + count) mod bs =? 0
                then to_uint32 (to_uint32 ((offset + count) / bs) - 1)
                else to_uint32 ((offset + count) / bs))
               = last_block offset count bs).
  { rewrite (to_uint32_id ((offset + count) / bs))
      by (split; [apply Z.div_pos; lia | exact HQ]).
    unfold last_block in *.
    destruct ((offset + count) mod bs =? 0); [|reflexivity].
    apply to_uint32_id. lia. }
  rewrite HR. clear HR.
  assert (Hbs2 : 2 <= bs).
  { destruct (Z.eq_dec bs 1) as [->|]; [|lia].
    rewrite !Z.mod_1_r in Hun. discriminate. }
  set (L := first_block offset bs) in *.
  set (R := last_block offset count bs) in *.
  assert (HN : R - L + 1 < 4294967296).
  { destruct (count =? 0); nia. }
  rewrite (to_uint32_id (R - L + 1)) by lia.
  assert (HLb : 0 <= L * bs) by (apply Z.mul_nonneg_nonneg; lia).
  assert (HRb : R * bs <= offset + count) by (destruct (count =? 0); lia).
  assert (HRb0 : L * bs <= R * bs) by (apply Z.mul_le_mono_nonneg_r; lia).
  assert (HNb : (R - L + 1) * bs = R * bs - L * bs + bs) by ring.
  assert (HNb1 : (R - L + 1 - 1) * bs = R * bs - L * bs) by ring.
  set (N := R - L + 1) in *.
  rewrite (to_uint32_id (N - 1)) by lia.
  rewrite (to_size_t_id (N * bs)) by (unfold in_size_t; lia).
  rewrite (to_size_t_id (L * bs)) by (unfold in_size_t; lia).
  rewrite (to_size_t_id (R * bs)) by (unfold in_size_t; lia).
  rewrite (to_size_t_id ((N - 1) * bs)) by (unfold in_size_t; lia).
  rewrite (to_off_t_id (L * bs)) by (unfold in_off_t, in_ssize_t; lia).
  rewrite (to_off_t_id (R * bs)) by (unfold in_off_t, in_ssize_t; lia).
  rewrite (to_size_t_id (offset - L * bs)) by (unfold in_size_t; lia).
  rewrite (to_uint32_id (offset - L * bs)) by lia.
  unfold calloc. destruct (heap_alloc w) as [[|] w1]; [|reflexivity].
  rewrite Z.mul_1_r, (to_size_t_id (N * bs)) by (unfold in_size_t; lia).
  reflexivity.
Qed.

(** The unaligned write refines the read-modify-write of the design:
    for a request that is not aligned and fits 32-bit block numbers,
    [pwrite_unaligned] is [rmw_write]. *)
Theorem pwrite_unaligned_rmw (o : dstore_obj X) offset count bs buf w :
  fits_uint32 offset count bs ->
  aligned offset count bs = false ->
  pwrite_unaligned heap_alloc ops o offset count bs buf w
  = rmw_write heap_alloc ops o offset count bs buf w.
Proof.
  intros Hfits Hun.
  rewrite (pwrite_unaligned_as_rmw o offset count bs buf w Hfits Hun).
  reflexivity.
Qed.

End UnalignedWrite.

Module StoreWrite.

Import MemMotr StoreSpec StoreFacts StoreIO.
Lemma heap_alloc_objects w : objects (snd (heap_alloc w)) = objects w.
Proof. unfold heap_alloc. destruct (heap_left w); reflexivity. Qed.

(** [ptr_store] of a [memcpy] at [pos]: the bytes land at [pos]. *)
Lemma skipn_store_memcpy buf pos src n :
  0 <= pos -> 0 <= n ->
  (Z.to_nat n <= length src)%nat ->
  (Z.to_nat pos + Z.to_nat n <= length buf)%nat ->
  let buf' := ptr_store buf pos (memcpy (ptr_add buf pos) src n) in
  length buf' = length buf
  /\ firstn (Z.to_nat pos) buf' = firstn (Z.to_nat pos) buf
  /\ firstn (Z.to_nat n) (skipn (Z.to_nat pos) buf') = firstn (Z.to_nat n) src
  /\ skipn (Z.to_nat pos + Z.to_nat n) buf'
     = skipn (Z.to_nat pos + Z.to_nat n) buf.
Proof.
  intros Hpos Hn Hsrc Hfit. cbn zeta.
  unfold ptr_store, ptr_add, memcpy.
  assert (Lp : length (firstn (Z.to_nat pos) buf) = Z.to_nat pos)
    by (rewrite length_firstn; lia).
  assert (Ls : length (firstn (Z.to_nat n) src) = Z.to_nat n)
    by (rewrite length_firstn; lia).
  rewrite blit_exact by (rewrite Ls, length_skipn; lia).
  rewrite Ls, skipn_skipn.
  repeat split.
  - rewrite !length_app, Lp, Ls, length_skipn. lia.
  - rewrite <- Lp at 1. rewrite firstn_app, Nat.sub_diag, firstn_O, app_nil_r.
    apply firstn_all.
  - rewrite <- Lp at 1. rewrite skipn_app, Nat.sub_diag, skipn_all. cbn [app skipn].
    rewrite <- Ls at 1. rewrite firstn_app, Nat.sub_diag, firstn_O, app_nil_r.
    apply firstn_all.
  - rewrite app_assoc.
    replace (Z.to_nat pos + Z.to_nat n)%nat
      with (length (firstn (Z.to_nat pos) buf ++ firstn (Z.to_nat n) src))
      at 1 by (rewrite length_app; lia).
    rewrite skipn_app, Nat.sub_diag, skipn_all. cbn [app skipn].
    f_equal. lia.
Qed.

(** An unaligned write that fits and succeeds is one write of the
    blocks L..R, whose bytes at the request's place are the payload. *)
Lemma pwrite_unaligned_store (o : dstore_obj dstore_oid_t)
    offset count bs buf w w' :
  fits_uint32 offset count bs ->
  aligned offset count bs = false ->
  (Z.to_nat count <= length buf)%nat ->
  pwrite_unaligned heap_alloc ops o offset count bs buf w = (0, w') ->
  let L := first_block offset bs in
  let N := last_block offset count bs - L + 1 in
  exists d tmp,
    objects w (obj_ext o) = Some d
    /\ length tmp = Z.to_nat (N * bs)
    /\ firstn (Z.to_nat count) (skipn (Z.to_nat (offset - L * bs)) tmp)
       = firstn (Z.to_nat count) buf
    /\ objects w'
       = fun k => if oid_eqb k (obj_ext o)
                  then Some (write_extent d (L * bs) (N * bs) tmp)
                  else objects w k.
Proof.
  intros Hfits Hun Hbuf.
  rewrite (pwrite_unaligned_as_rmw heap_alloc ops o offset count bs buf w Hfits Hun).
  destruct Hfits as (Hbs & Hoff & Hcnt & Hblk & Hfit).
  unfold aligned in Hun.
  rewrite to_size_t_id in Hun by (unfold in_size_t; nia).
  destruct (unaligned_blocks offset count bs ltac:(lia) Hoff ltac:(lia) Hun)
    as (HL0 & HLR & HLo & HoL & HRlo & HRhi & HRQ).
  cbn zeta. unfold rmw_write.
  set (L := first_block offset bs) in *.
  set (R := last_block offset count bs) in *.
  assert (HLb : 0 <= L * bs) by (apply Z.mul_nonneg_nonneg; lia).
  assert (HRb : R * bs <= offset + count) by (destruct (count =? 0); lia).
  assert (HRb0 : L * bs <= R * bs) by (apply Z.mul_le_mono_nonneg_r; lia).
  assert (HNb : (R - L + 1) * bs = R * bs - L * bs + bs) by ring.
  assert (HNb1 : (R - L + 1 - 1) * bs = R * bs - L * bs) by ring.
  set (N := R - L + 1) in *.
  pose proof (heap_alloc_objects w) as Hw1.
  destruct (heap_alloc w) as [[|] w1]; cbn [snd] in Hw1;
    [|intros H; inversion H].
  (* left edge *)
  assert (Hleft : exists rc1 t1 w2,
             (if negb (offset mod bs =? 0)
              then pread_aligned_handle_holes heap_alloc ops o
                     (zeros (N * bs)) bs (L * bs) bs w1
              else (0, zeros (N * bs), w1)) = (rc1, t1, w2)
             /\ length t1 = Z.to_nat (N * bs) /\ objects w2 = objects w).
  { destruct (negb (offset mod bs =? 0)).
    - pose proof (handle_holes_objects o (zeros (N * bs)) bs (L * bs) bs w1) as Ho.
      pose proof (length_pread_aligned_handle_holes heap_alloc ops o
                    (zeros (N * bs)) bs (L * bs) bs w1) as Hl.
      destruct (pread_aligned_handle_holes _ _ _ _ _ _ _ _) as [[rc1 t1] w2].
      cbn [fst snd] in *. exists rc1, t1, w2.
      rewrite Hl, length_zeros, Ho, Hw1. auto.
    - exists 0, (zeros (N * bs)), w1. rewrite length_zeros. auto. }
  destruct Hleft as (rc1 & t1 & w2 & -> & Ht1 & Hw2).
  destruct (rc1 <? 0) eqn:E1;
    [intros H; inversion H; subst; discriminate|].
  (* right edge *)
  assert (Hright : exists rc2 t2 w3,
             (if negb ((offset + count) mod bs =? 0) && negb (L =? R)
              then
                let '(rc, blk, w'0) :=
                  pread_aligned_handle_holes heap_alloc ops o
                    (ptr_add t1 ((N - 1) * bs)) bs (R * bs) bs w2 in
                (rc, ptr_store t1 ((N - 1) * bs) blk, w'0)
              else (rc1, t1, w2)) = (rc2, t2, w3)
             /\ length t2 = Z.to_nat (N * bs) /\ objects w3 = objects w).
  { destruct (negb ((offset + count) mod bs =? 0) && negb (L =? R)).
    - pose proof (handle_holes_objects o (ptr_add t1 ((N - 1) * bs)) bs
                    (R * bs) bs w2) as Ho.
      pose proof (length_pread_aligned_handle_holes heap_alloc ops o
                    (ptr_add t1 ((N - 1) * bs)) bs (R * bs) bs w2) as Hl.
      destruct (pread_aligned_handle_holes _ _ _ _ _ _ _ _) as [[rc2 blk] w3].
      cbn [fst snd] in *. exists rc2, (ptr_store t1 ((N - 1) * bs) blk), w3.
      split; [reflexivity|]. split; [|congruence].
      rewrite length_ptr_store_blk by exact Hl. exact Ht1.
    - exists rc1, t1, w2. auto. }
  destruct Hright as (rc2 & t2 & w3 & -> & Ht2 & Hw3).
  destruct (rc2 <? 0) eqn:E2;
    [intros H; inversion H; subst; discriminate|].
  (* the payload, and the write *)
  destruct (skipn_store_memcpy t2 (offset - L * bs) buf count)
    as (Hlen & _ & Hpay & _); try lia.
  set (tmp := ptr_store t2 (offset - L * bs)
                (memcpy (ptr_add t2 (offset - L * bs)) buf count)) in *.
  destruct (pwrite_aligned_spec o tmp (N * bs) (L * bs) w3)
    as (rc & w4 & -> & Hcases).
  intros H. inversion H; subst rc w4.
  destruct Hcases as [[Hne _] | (_ & d & Hd & Hobj)]; [contradiction|].
  exists d, tmp. rewrite Hw3 in Hd, Hobj.
  rewrite firstn_all2 in Hobj by lia.
  repeat split; try assumption. lia.
Qed.

End StoreWrite.

Module StoreHoles.

Import MemMotr StoreSpec StoreFacts StoreIO.

Lemma written_reads_stored o bs d off size :
  extent_written d off size = true -> reads_stored o bs d off size.
Proof.
  intros Hw buf w Hd _. apply handle_holes_written; assumption.
Qed.

Lemma read_extent_hole d a n :
  (forall k, a <= k < a + n -> d k = None) ->
  read_extent d a n = zeros n.
Proof.
  intros H. apply nth_ext with (d := x00) (d' := x00).
  - rewrite length_read_extent, length_zeros. reflexivity.
  - intros i Hi. rewrite length_read_extent in Hi.
    unfold read_extent, zeros.
    rewrite (nth_indep _ x00 (byte_at d (a + Z.of_nat 0)))
      by (rewrite length_map, length_seq; exact Hi).
    rewrite (map_nth (fun i => byte_at d (a + Z.of_nat i))).
    rewrite seq_nth by exact Hi. cbn [Nat.add].
    unfold byte_at. rewrite H by lia.
    symmetry. apply nth_repeat.
Qed.

Lemma blit_app rest a b :
  (length a + length b <= length rest)%nat ->
  blit rest (a ++ b) = a ++ blit (skipn (length a) rest) b.
Proof.
  intros H.
  rewrite !blit_exact by (try rewrite length_app; try rewrite length_skipn; lia).
  rewrite length_app, skipn_skipn, <- app_assoc.
  do 3 f_equal. lia.
Qed.

(** The retry loop over a block-uniform object fills the blocks with
    their stored bytes, zero for the holes. *)
Lemma reread_blocks_view o d bs off :
  0 < bs -> block_uniform d bs -> off mod bs = 0 -> 0 <= off ->
  forall n i pre rest w,
    0 <= i ->
    off + (i + Z.of_nat n) * bs < 9223372036854775808 ->
    objects w (obj_ext o) = Some d ->
    length pre = Z.to_nat (i * bs) ->
    (Z.to_nat (Z.of_nat n * bs) <= length rest)%nat ->
    exists rc buf' w',
      reread_blocks heap_alloc ops o bs off n i (pre ++ rest) w
        = (rc, buf', w')
      /\ objects w' = objects w
      /\ ((rc = 0
           /\ buf' = pre ++ blit rest
                              (read_extent d (off + i * bs) (Z.of_nat n * bs)))
          \/ rc = - ENOMEM).
Proof.
  intros Hbs Hu Hal Hoff.
  induction n as [|n IH]; intros i pre rest w Hi Hfit Hd Hpre Hrest;
    cbn [reread_blocks].
  - eexists _, _, _. split; [reflexivity|]. split; [reflexivity|]. left.
    split; [reflexivity|]. f_equal. symmetry. apply blit_firstn_self with (n := 0%nat).
  - assert (Hib : 0 <= i * bs) by (apply Z.mul_nonneg_nonneg; lia).
    assert (Hnb : 0 <= Z.of_nat n * bs) by (apply Z.mul_nonneg_nonneg; lia).
    assert (Hsplit : (i + Z.of_nat (S n)) * bs
                     = i * bs + bs + Z.of_nat n * bs) by lia.
    assert (Hsn : Z.of_nat (S n) * bs = bs + Z.of_nat n * bs) by lia.
    rewrite (to_size_t_id (i * bs)) by (unfold in_size_t; lia).
    rewrite (to_size_t_id (off + i * bs)) by (unfold in_size_t; lia).
    rewrite (to_off_t_id (off + i * bs)) by (unfold in_off_t, in_ssize_t; lia).
    assert (Hadd : ptr_add (pre ++ rest) (i * bs) = rest).
    { unfold ptr_add. rewrite <- Hpre, skipn_app, Nat.sub_diag, skipn_all.
      reflexivity. }
    assert (Hsto : forall t, ptr_store (pre ++ rest) (i * bs) t = pre ++ t).
    { intros t. unfold ptr_store.
      rewrite <- Hpre, firstn_app, Nat.sub_diag, firstn_O, app_nil_r, firstn_all.
      reflexivity. }
    assert (Hsto' : forall t u, length t = length rest ->
              ptr_store (pre ++ t) (i * bs) u = pre ++ u).
    { intros t u _. unfold ptr_store.
      rewrite <- Hpre, firstn_app, Nat.sub_diag, firstn_O, app_nil_r, firstn_all.
      reflexivity. }
    rewrite Hadd.
    destruct (pread_aligned_spec o rest bs (off + i * bs) w)
      as (rc & blk & w1 & -> & Hobj & Hcase).
    rewrite Hsto.
    assert (Hd1 : objects w1 (obj_ext o) = Some d) by (rewrite Hobj; exact Hd).
    (* the next iterations, over the rest of the buffer *)
    assert (Hnext : forall blk0,
              length blk0 = Z.to_nat bs ->
              blk0 = read_extent d (off + i * bs) bs ->
              exists rc buf' w',
                reread_blocks heap_alloc ops o bs off n (i + 1)
                  (pre ++ blk0 ++ skipn (Z.to_nat bs) rest) w1 = (rc, buf', w')
                /\ objects w' = objects w
                /\ ((rc = 0
                     /\ buf' = pre ++ blit rest
                                 (read_extent d (off + i * bs)
                                    (Z.of_nat (S n) * bs)))
                    \/ rc = - ENOMEM)).
    { intros blk0 Hl0 Hb0.
      destruct (IH (i + 1) (pre ++ blk0) (skipn (Z.to_nat bs) rest) w1)
        as (rc' & buf' & w' & E & Hobj' & Hc'); try assumption; try lia.
      - rewrite length_app, Hpre, Hl0. lia.
      - rewrite length_skipn. lia.
      - rewrite <- app_assoc in E. eexists _, _, _. split; [exact E|].
        split; [congruence|].
        destruct Hc' as [[-> ->] | ->]; [left | right; reflexivity].
        split; [reflexivity|].
        rewrite <- app_assoc. f_equal.
        rewrite Hsn, read_extent_app by lia.
        rewrite blit_app by (rewrite !length_read_extent; lia).
        rewrite length_read_extent, <- Hb0. do 3 f_equal. lia. }
    destruct Hcase as [[-> ->] | [(-> & -> & Hn) | (-> & d' & Hd' & Hw & ->)]].
    + (* no memory for the block read: fatal *)
      cbn. eexists _, _, _. split; [reflexivity|]. auto.
    + (* a hole: the block is zero-filled *)
      cbn [Z.eqb Z.opp ENOENT Pos.eqb].
      rewrite Hd in Hn.
      destruct (Hu (off / bs + i)) as [Hfull | Hhole].
      { replace ((off / bs + i) * bs) with (off + i * bs) in Hfull
          by (pose proof (Z.div_mod off bs ltac:(lia)); lia).
        congruence. }
      replace ((off / bs + i) * bs) with (off + i * bs) in Hhole
        by (pose proof (Z.div_mod off bs ltac:(lia)); lia).
      rewrite Hadd, Hsto.
      unfold memset. fold (zeros bs).
      rewrite blit_exact by (rewrite length_zeros; lia).
      rewrite length_zeros.
      apply Hnext; [apply length_zeros|].
      symmetry. apply read_extent_hole. exact Hhole.
    + (* a written block *)
      cbn [Z.eqb].
      rewrite Hd in Hd'. inversion Hd'; subst d'.
      rewrite blit_exact by (rewrite length_read_extent; lia).
      rewrite length_read_extent.
      apply Hnext; [apply length_read_extent | reflexivity].
Qed.

(** Over a block-uniform object, aligned extents read as stored. *)
Lemma uniform_reads_stored o bs d off size :
  0 < bs -> block_uniform d bs ->
  0 <= off -> off mod bs = 0 ->
  0 <= size -> size mod bs = 0 -> size / bs < 2147483648 ->
  off + size < 9223372036854775808 ->
  reads_stored o bs d off size.
Proof.
  intros Hbs Hu Hoff Hal Hsz Hsal Hk Hfit buf w Hd Hlen.
  pose proof (Z.div_mod size bs ltac:(lia)) as D. rewrite Hsal in D.
  pose proof (Z.div_pos size bs Hsz Hbs) as P.
  unfold pread_aligned_handle_holes.
  destruct (pread_aligned_spec o buf size off w)
    as (rc & buf' & w1 & -> & Hobj & Hcase).
  destruct Hcase as [[-> ->] | [(-> & -> & _) | (-> & d' & Hd' & _ & ->)]].
  - cbn. eexists _, _, _. split; [reflexivity|]. auto.
  - cbn [Z.eqb Z.opp ENOENT Pos.eqb].
    rewrite to_int_id by lia.
    destruct (reread_blocks_view o d bs off Hbs Hu Hal Hoff
                (Z.to_nat (size / bs)) 0 [] buf w1)
      as (rc & buf' & w' & E & Hobj' & Hc);
      try reflexivity; try lia.
    + rewrite Hobj. exact Hd.
    + cbn [app] in E. rewrite E. eexists _, _, _. split; [reflexivity|].
      split; [congruence|].
      destruct Hc as [[-> ->] | ->]; [left | right; reflexivity].
      split; [reflexivity|]. cbn [app].
      rewrite Z2Nat.id by lia. do 2 f_equal; lia.
  - rewrite Hd in Hd'. inversion Hd'; subst d'.
    cbn. eexists _, _, _. split; [reflexivity|]. auto.
Qed.

End StoreHoles.
Module StoreRead.

Import MemMotr StoreSpec StoreFacts StoreIO StoreHoles StoreWrite.

(** A [blit] at the end of the prefix [pre] of a buffer. *)
Lemma store_blit_at pre rest pos data :
  Z.to_nat pos = length pre ->
  (length data <= length rest)%nat ->
  ptr_store (pre ++ rest) pos (blit (ptr_add (pre ++ rest) pos) data)
  = (pre ++ data) ++ skipn (length data) rest.
Proof.
  intros Hpos Hlen. unfold ptr_store, ptr_add. rewrite Hpos.
  rewrite skipn_app, Nat.sub_diag, skipn_all. cbn [app skipn].
  rewrite firstn_app, Nat.sub_diag, firstn_O, app_nil_r, firstn_all.
  rewrite blit_exact by exact Hlen. apply app_assoc.
Qed.

Lemma blit_same_length buf data :
  length data = length buf -> blit buf data = data.
Proof.
  intros H. rewrite blit_exact by lia. rewrite H, skipn_all. apply app_nil_r.
Qed.

Section Reads.

Variable o : dstore_obj dstore_oid_t.
Variable d : Z -> option byte.
Variable bs : Z.
Hypothesis Hbs : 0 < bs.

Lemma read_right_most_ok tmpbuf rc count offset buf_pos pre rest w rc' r w' :
  objects w (obj_ext o) = Some d ->
  0 <= count <= bs ->
  (count <> 0 -> reads_stored o bs d offset bs) ->
  length tmpbuf = Z.to_nat bs ->
  Z.to_nat buf_pos = length pre ->
  length rest = Z.to_nat count ->
  read_right_most heap_alloc ops o bs tmpbuf rc count offset buf_pos
    (pre ++ rest) w = (rc', r, w') ->
  rc' = 0 ->
  r = pre ++ read_extent d offset count.
Proof.
  intros Hd Hcnt Hw Htmp Hpos Hrest. unfold read_right_most.
  destruct (count =? 0) eqn:E0.
  - apply Z.eqb_eq in E0. subst count. intros H _. inversion H; subst.
    destruct rest; [reflexivity | discriminate].
  - apply Z.eqb_neq in E0.
    destruct (Hw E0 tmpbuf w Hd ltac:(lia))
      as (rc1 & t1 & w1 & -> & _ & Hcase).
    destruct Hcase as [[-> ->] | ->].
    + cbn [Z.ltb Z.compare]. intros H _. inversion H; subst.
      rewrite blit_same_length by (rewrite length_read_extent; lia).
      unfold memcpy. rewrite firstn_read_extent by lia.
      rewrite store_blit_at
        by (try rewrite length_read_extent; try assumption; lia).
      rewrite length_read_extent, <- Hrest, skipn_all. apply app_nil_r.
    + cbn. intros H Hrc. inversion H; subst. discriminate.
Qed.

Lemma continous_aligned_read_ok tmpbuf rc count offset buf_pos pre rest
    w rc' r w' :
  objects w (obj_ext o) = Some d ->
  0 <= count -> 0 <= offset -> 0 <= buf_pos ->
  count / bs < 4294967296 ->
  buf_pos + count < 4294967296 ->
  offset + count < 9223372036854775808 ->
  reads_stored o bs d offset (count / bs * bs) ->
  (count mod bs <> 0 ->
   reads_stored o bs d (offset + count / bs * bs) bs) ->
  length tmpbuf = Z.to_nat bs ->
  Z.to_nat buf_pos = length pre ->
  length rest = Z.to_nat count ->
  continous_aligned_read heap_alloc ops o bs tmpbuf rc count offset buf_pos
    (pre ++ rest) w = (rc', r, w') ->
  rc' = 0 ->
  r = pre ++ read_extent d offset count.
Proof.
  intros Hd Hcnt Hoff Hpos0 Hc32 Hp32 Hfit Hrun Htail Htmp Hpos Hrest.
  pose proof (Z.div_mod count bs ltac:(lia)) as D.
  pose proof (Z.mod_pos_bound count bs Hbs) as B.
  pose proof (Z.div_pos count bs Hcnt Hbs) as P.
  assert (Hcb : 0 <= count / bs * bs) by (apply Z.mul_nonneg_nonneg; lia).
  unfold continous_aligned_read.
  rewrite (to_uint32_id (count / bs)) by lia.
  set (c := count / bs) in *.
  destruct (0 <? c) eqn:Ec.
  - rewrite (to_size_t_id (c * bs)) by (unfold in_size_t; lia).
    assert (Hadd : ptr_add (pre ++ rest) buf_pos = rest).
    { unfold ptr_add. rewrite Hpos, skipn_app, Nat.sub_diag, skipn_all.
      reflexivity. }
    destruct (Hrun (ptr_add (pre ++ rest) buf_pos) w Hd
                ltac:(rewrite Hadd; lia))
      as (rc1 & run & w1 & -> & Hobj & Hcase).
    destruct Hcase as [[-> ->] | ->];
      [|cbn; intros H Hrc; inversion H; subst; discriminate].
    cbn [Z.ltb Z.compare].
    rewrite store_blit_at
      by (try rewrite length_read_extent; try assumption; lia).
    rewrite length_read_extent.
    rewrite (to_size_t_id (count - c * bs)) by (unfold in_size_t; lia).
    rewrite (to_size_t_id (offset + c * bs)) by (unfold in_size_t; lia).
    rewrite (to_off_t_id (offset + c * bs))
      by (unfold in_off_t, in_ssize_t; lia).
    rewrite (to_size_t_id (buf_pos + c * bs)) by (unfold in_size_t; lia).
    rewrite (to_uint32_id (buf_pos + c * bs)) by lia.
    intros H Hrc.
    apply read_right_most_ok in H; try assumption; try lia.
    + subst r. rewrite <- app_assoc. f_equal.
      rewrite <- read_extent_app by lia. f_equal. lia.
    + rewrite Hobj. exact Hd.
    + intros Hne. apply Htail. lia.
    + rewrite length_app, length_read_extent. lia.
    + rewrite length_skipn. lia.
  - apply Z.ltb_ge in Ec. assert (Hc0 : c = 0) by lia.
    intros H Hrc.
    apply read_right_most_ok in H; try assumption; try lia.
    intros Hne. replace offset with (offset + c * bs) by lia.
    apply Htail. lia.
Qed.

End Reads.

Lemma div_le_self a b : 0 <= a -> 0 < b -> a / b <= a.
Proof.
  intros Ha Hb. apply Z.div_le_upper_bound; [lia|]. nia.
Qed.

Lemma next_block_fits a n bs hi :
  0 < bs -> 0 <= n -> a mod bs = 0 -> hi mod bs = 0 -> a + n <= hi ->
  n mod bs <> 0 ->
  a + n / bs * bs + bs <= hi.
Proof.
  intros Hbs Hn Ha Hhi Hle Hne.
  pose proof (Z.div_mod a bs ltac:(lia)) as Da.
  pose proof (Z.div_mod hi bs ltac:(lia)) as Dh.
  pose proof (Z.div_mod n bs ltac:(lia)) as Dn.
  pose proof (Z.mod_pos_bound n bs Hbs) as Bn.
  rewrite Ha in Da. rewrite Hhi in Dh.
  set (ka := a / bs) in *. set (kh := hi / bs) in *. set (c := n / bs) in *.
  assert (ka + c < kh) by nia. nia.
Qed.

(** An unaligned read that fits delivers the stored bytes of the
    requested range, provided the hole-tolerant reader does so for the
    block-aligned extents within the blocks of the request. *)
Lemma pread_unaligned_ok (o : dstore_obj dstore_oid_t)
    offset count bs r0 w d rc r w' :
  fits_uint32 offset count bs ->
  aligned offset count bs = false ->
  objects w (obj_ext o) = Some d ->
  (forall off size,
     first_block offset bs * bs <= off ->
     off + size <= (last_block offset count bs + 1) * bs ->
     0 <= size -> size <= count \/ size = bs ->
     off mod bs = 0 -> size mod bs = 0 ->
     reads_stored o bs d off size) ->
  length r0 = Z.to_nat count ->
  pread_unaligned heap_alloc ops o offset count bs r0 w = (rc, r, w') ->
  rc = 0 ->
  r = read_extent d offset count.
Proof.
  intros (Hbs & Hoff & Hcnt & Hblk & Hfit) Hun Hd Hrs Hr0.
  unfold aligned in Hun.
  rewrite to_size_t_id in Hun by (unfold in_size_t; nia).
  destruct (unaligned_blocks offset count bs ltac:(lia) Hoff ltac:(lia) Hun)
    as (HL0 & HLR & HLo & HoL & HRlo & HRhi & HRQ).
  set (L := first_block offset bs) in *.
  set (R := last_block offset count bs) in *.
  assert (HLb : 0 <= L * bs) by (apply Z.mul_nonneg_nonneg; lia).
  assert (HL1 : (L + 1) * bs = L * bs + bs) by ring.
  assert (HRm : ((R + 1) * bs) mod bs = 0) by (apply Z.mod_mul; lia).
  assert (HLm : (L * bs) mod bs = 0) by (apply Z.mod_mul; lia).
  assert (Hbm : bs mod bs = 0) by (apply Z.mod_same; lia).
  assert (HLR1 : (L + 1) * bs <= (R + 1) * bs)
    by (apply Z.mul_le_mono_nonneg_r; lia).
  assert (Hcd : count / bs <= count) by (apply div_le_self; lia).
  pose proof (Z.div_pos count bs ltac:(lia) ltac:(lia)) as Hcp.
  pose proof (Z.mul_div_le count bs ltac:(lia)) as Hcm.
  unfold pread_unaligned, calloc.
  pose proof (heap_alloc_objects w) as Hw1.
  destruct (heap_alloc w) as [[|] w1]; cbn [snd] in Hw1;
    [|intros H Hrc; inversion H; subst; discriminate].
  rewrite <- Hw1 in Hd.
  rewrite Z.mul_1_r, (to_size_t_id bs) by (unfold in_size_t; lia).
  rewrite (to_size_t_id offset) by (unfold in_size_t; lia).
  destruct ((offset mod bs =? 0) && (bs <=? count)) eqn:Ebr.
  - (* IO is already left aligned *)
    apply andb_true_iff in Ebr. destruct Ebr as [Eo Ec].
    apply Z.eqb_eq in Eo. apply Z.leb_le in Ec.
    intros H Hrc.
    apply (continous_aligned_read_ok o d bs ltac:(lia) (zeros bs) 0 count
             offset 0 [] r0) in H;
      try assumption; try lia; try reflexivity; try apply length_zeros.
    + apply Hrs; try lia. apply Z.mod_mul. lia.
    + intros Hne.
      pose proof (next_block_fits offset count bs ((R + 1) * bs)
                    ltac:(lia) ltac:(lia) Eo HRm HRhi Hne).
      apply Hrs; try lia.
      rewrite Z.mod_add by lia. exact Eo.
  - (* read left most block *)
    fold (first_block offset bs). fold L.
    rewrite (to_uint32_id L)
      by (split; [lia|]; apply Z.div_lt_upper_bound; lia).
    rewrite (to_size_t_id (L * bs)) by (unfold in_size_t; lia).
    rewrite (to_off_t_id (L * bs)) by (unfold in_off_t, in_ssize_t; lia).
    rewrite (to_size_t_id (offset - L * bs)) by (unfold in_size_t; lia).
    rewrite (to_uint32_id (offset - L * bs)) by lia.
    set (lb := offset - L * bs) in *.
    rewrite (to_size_t_id (bs - lb)) by (unfold in_size_t; lia).
    rewrite (to_uint32_id (bs - lb)) by lia.
    set (rb := bs - lb) in *.
    assert (Hwl : reads_stored o bs d (L * bs) bs) by (apply Hrs; lia).
    destruct (Hwl (zeros bs) w1 Hd ltac:(rewrite length_zeros; lia))
      as (rc1 & t1 & w2 & -> & Hobj & Hcase).
    destruct Hcase as [[-> ->] | ->];
      [|cbn; intros H Hrc; inversion H; subst; discriminate].
    cbn [Z.ltb Z.compare].
    rewrite blit_same_length by (rewrite length_read_extent, length_zeros; lia).
    unfold memcpy at 1 2. unfold ptr_add at 1 2.
    rewrite skipn_read_extent by lia.
    replace (L * bs + lb) with offset by lia. fold rb.
    destruct (count <=? rb) eqn:Ecr.
    + apply Z.leb_le in Ecr.
      replace (if count <? rb then count else rb) with count
        by (destruct (count <? rb) eqn:E; [|apply Z.ltb_ge in E]; lia).
      rewrite (to_uint32_id count) by lia.
      rewrite firstn_read_extent by lia.
      rewrite blit_same_length by (rewrite length_read_extent; lia).
      intros H _. inversion H; subst. reflexivity.
    + apply Z.leb_gt in Ecr.
      replace (if count <? rb then count else rb) with rb
        by (destruct (count <? rb) eqn:E; [apply Z.ltb_lt in E|]; lia).
      rewrite (to_uint32_id rb) by lia.
      rewrite firstn_read_extent by lia.
      rewrite blit_exact by (rewrite length_read_extent; lia).
      rewrite length_read_extent.
      rewrite (to_size_t_id (count - rb)) by (unfold in_size_t; lia).
      rewrite (to_off_t_id (offset + rb)) by (unfold in_off_t, in_ssize_t; lia).
      assert (Eo : (offset + rb) mod bs = 0).
      { replace (offset + rb) with ((L + 1) * bs) by lia.
        apply Z.mod_mul. lia. }
      pose proof (Z.div_pos (count - rb) bs ltac:(lia) ltac:(lia)) as Hcp'.
      pose proof (Z.mul_div_le (count - rb) bs ltac:(lia)) as Hcm'.
      assert (Hcd' : (count - rb) / bs <= count - rb)
        by (apply div_le_self; lia).
      intros H Hrc.
      apply (continous_aligned_read_ok o d bs ltac:(lia)) in H;
        try assumption; try lia; try apply length_zeros;
        try (rewrite length_read_extent; reflexivity).
      * subst r. rewrite <- read_extent_app by lia. f_equal. lia.
      * rewrite Hobj. exact Hd.
      * apply Hrs; try lia. apply Z.mod_mul. lia.
      * intros Hne.
        pose proof (next_block_fits (offset + rb) (count - rb) bs
                      ((R + 1) * bs) ltac:(lia) ltac:(lia) Eo HRm
                      ltac:(lia) Hne).
        apply Hrs; try lia.
        rewrite Z.mod_add by lia. exact Eo.
      * rewrite length_skipn. lia.
Qed.

End StoreRead.

Module RoundTrip.

Import MemMotr StoreSpec StoreFacts StoreIO StoreHoles StoreWrite StoreRead.

(** Read-after-write round trip, where it holds: for an aligned
    request at any offset, and for an unaligned request whose block
    numbers and buffer positions fit the 32-bit locals, a successful
    [dstore_pwrite] followed by a successful [dstore_pread] of the same
    range returns the bytes that were written. *)
Theorem pwrite_pread_roundtrip (o : dstore_obj dstore_oid_t)
    offset count bs buf r0 w w1 r w2 :
  0 <= count ->
  aligned offset count bs = true \/ fits_uint32 offset count bs ->
  length buf = Z.to_nat count ->
  length r0 = Z.to_nat count ->
  pwrite o offset count bs buf w = (0, w1) ->
  pread o offset count bs r0 w1 = (0, r, w2) ->
  r = buf.
Proof.
  intros Hcnt Hcase Hbuf Hr0.
  unfold pwrite, pread, dstore_pwrite, dstore_pread,
    __dstore_pwrite, __dstore_pread.
  fold (aligned offset count bs).
  destruct (aligned offset count bs) eqn:Ea.
  - (* aligned: one write, one hole-tolerant read *)
    intros Hwr Hrd.
    destruct (pwrite_aligned_spec o buf count offset w)
      as (rc & w1' & E & Hc).
    rewrite E in Hwr. inversion Hwr; subst rc w1'.
    destruct Hc as [[Hne _] | (_ & d & Hd & Hobj)]; [contradiction|].
    rewrite <- Hbuf, firstn_all in Hobj.
    assert (Hd1 : objects w1 (obj_ext o)
                  = Some (write_extent d offset count buf))
      by (rewrite Hobj, oid_eqb_refl; reflexivity).
    destruct (handle_holes_written o r0 count offset bs w1 _ Hd1
                (extent_written_write_extent d offset count buf))
      as (rc & r' & w2' & E' & _ & Hc').
    rewrite E' in Hrd. inversion Hrd; subst rc r' w2'.
    destruct Hc' as [[_ ->] | Hne]; [|discriminate].
    rewrite read_extent_write_extent by (try assumption; lia).
    rewrite Z.sub_diag. cbn [Z.to_nat skipn].
    rewrite <- Hbuf, firstn_all.
    apply blit_same_length. congruence.
  - (* unaligned: read-modify-write, then the three-segment read *)
    destruct Hcase as [Hc | Hfit]; [discriminate|].
    intros Hwr Hrd.
    pose proof Hfit as (Hbs & Hoff & Hc32 & Hblk & Hoft).
    pose proof Ea as Hun. unfold aligned in Hun.
    rewrite to_size_t_id in Hun by (unfold in_size_t; lia).
    destruct (unaligned_blocks offset count bs ltac:(lia) Hoff Hcnt Hun)
      as (HL0 & HLR & HLo & HoL & HRlo & HRhi & HRQ).
    apply pwrite_unaligned_store in Hwr; try assumption; try lia.
    cbn zeta in Hwr.
    destruct Hwr as (d & tmp & Hd & Htmp & Hpay & Hobj).
    set (L := first_block offset bs) in *.
    set (R := last_block offset count bs) in *.
    assert (HNb : (R - L + 1) * bs = (R + 1) * bs - L * bs) by ring.
    assert (Hd1 : objects w1 (obj_ext o)
                  = Some (write_extent d (L * bs) ((R - L + 1) * bs) tmp))
      by (rewrite Hobj, oid_eqb_refl; reflexivity).
    assert (Hr : r = read_extent
                       (write_extent d (L * bs) ((R - L + 1) * bs) tmp)
                       offset count).
    { eapply pread_unaligned_ok;
        [exact Hfit | exact Ea | exact Hd1 | | exact Hr0 | exact Hrd
         | reflexivity].
      intros off size Hlo Hhi Hsz _ _ _. apply written_reads_stored.
      eapply extent_written_sub;
        [apply extent_written_write_extent | |];
        fold L in Hlo, Hhi; fold R in Hhi; lia. }
    rewrite Hr.
    rewrite read_extent_write_extent by (try assumption; lia).
    rewrite Hpay, <- Hbuf. apply firstn_all.
Qed.

End RoundTrip.

(** ** What a read observes *)

Module Views.

Import MemMotr StoreSpec StoreFacts StoreIO StoreHoles StoreWrite StoreRead.

(** Over an object whose blocks are each written throughout or not at
    all, a successful [dstore_pread] that fits delivers the stored bytes
    of the range verbatim and zero for every byte of a hole. *)
Theorem pread_reads_stored (o : dstore_obj dstore_oid_t)
    offset count bs r0 w d r w' :
  fits_uint32 offset count bs ->
  count / bs < 2147483648 ->
  objects w (obj_ext o) = Some d ->
  block_uniform d bs ->
  length r0 = Z.to_nat count ->
  pread o offset count bs r0 w = (0, r, w') ->
  r = read_extent d offset count.
Proof.
  intros Hfits Hk Hd Hu Hr0.
  pose proof Hfits as (Hbs & Hoff & Hcnt & Hblk & Hfit).
  unfold pread, dstore_pread, __dstore_pread.
  fold (aligned offset count bs).
  destruct (aligned offset count bs) eqn:Ea.
  - unfold aligned in Ea.
    rewrite to_size_t_id in Ea by (unfold in_size_t; lia).
    apply andb_true_iff in Ea. destruct Ea as [Ec Eo].
    apply Z.eqb_eq in Ec, Eo.
    intros Hrd.
    destruct (uniform_reads_stored o bs d offset count ltac:(lia) Hu Hoff Eo
                ltac:(lia) Ec Hk ltac:(lia) r0 w Hd ltac:(lia))
      as (rc & r' & w2 & E & _ & Hc).
    rewrite E in Hrd. inversion Hrd; subst rc r' w2.
    destruct Hc as [[_ ->] | Hne]; [|discriminate].
    apply blit_same_length. rewrite length_read_extent. congruence.
  - intros Hrd.
    pose proof Ea as Hun. unfold aligned in Hun.
    rewrite to_size_t_id in Hun by (unfold in_size_t; lia).
    destruct (unaligned_blocks offset count bs ltac:(lia) Hoff ltac:(lia) Hun)
      as (HL0 & HLR & HLo & HoL & HRlo & HRhi & HRQ).
    assert (HLb : 0 <= first_block offset bs * bs)
      by (apply Z.mul_nonneg_nonneg; lia).
    assert (HRb : last_block offset count bs * bs <= offset + count)
      by (destruct (count =? 0); lia).
    eapply (pread_unaligned_ok o offset count bs r0 w d 0 r w' Hfits Ea Hd);
      try eassumption; try reflexivity.
    intros off size Hlo Hhi Hsz Hsize Hom Hsm.
    apply uniform_reads_stored; try assumption; try lia.
    destruct Hsize as [Hle | ->].
    + apply Z.le_lt_trans with (m := count / bs); [|exact Hk].
      apply Z.div_le_mono; lia.
    + rewrite Z.div_same by lia. lia.
Qed.

End Views.

(** ** What an unaligned write leaves in the object *)

Module Framing.

Import MemMotr StoreSpec StoreFacts StoreIO StoreHoles StoreWrite StoreRead.

Lemma length_zeros_skip n : skipn (Z.to_nat n) (zeros n) = [].
Proof. apply skipn_all2. rewrite length_zeros. lia. Qed.

Lemma split3 (t : list byte) a b :
  t = firstn a t ++ firstn b (skipn a t) ++ skipn (a + b) t.
Proof.
  rewrite (Nat.add_comm a b), <- skipn_skipn, firstn_skipn, firstn_skipn.
  reflexivity.
Qed.

Lemma edge_sizes offset count bs :
  0 < bs ->
  offset - first_block offset bs * bs = offset mod bs
  /\ (last_block offset count bs + 1) * bs - (offset + count)
     = if (offset + count) mod bs =? 0 then 0
       else bs - (offset + count) mod bs.
Proof.
  intros Hbs. unfold first_block, last_block.
  rewrite (Z.mod_eq offset bs), (Z.mod_eq (offset + count) bs) by lia.
  destruct (_ =? 0) eqn:E; [apply Z.eqb_eq in E|]; split; lia.
Qed.

(** The scratch block of a successful unaligned write whose edges are
    read: the stored bytes before the request, the payload, the stored
    bytes after it. *)
Lemma pwrite_unaligned_scratch (o : dstore_obj dstore_oid_t)
    offset count bs buf w w' d :
  fits_uint32 offset count bs ->
  aligned offset count bs = false ->
  ends_inside_first_block offset count bs = false ->
  (Z.to_nat count <= length buf)%nat ->
  objects w (obj_ext o) = Some d ->
  block_uniform d bs ->
  pwrite_unaligned heap_alloc ops o offset count bs buf w = (0, w') ->
  let L := first_block offset bs in
  let R := last_block offset count bs in
  objects w'
  = fun k =>
      if oid_eqb k (obj_ext o)
      then Some (write_extent d (L * bs) ((R - L + 1) * bs)
                   (read_extent d (L * bs) (offset - L * bs)
                    ++ firstn (Z.to_nat count) buf
                    ++ read_extent d (offset + count)
                         ((R + 1) * bs - (offset + count))))
      else objects w k.
Proof.
  intros Hfits Hun Hshape Hbuf Hd Hu.
  rewrite (pwrite_unaligned_as_rmw heap_alloc ops o offset count bs buf w Hfits Hun).
  destruct Hfits as (Hbs & Hoff & Hcnt & Hblk & Hfit).
  unfold aligned in Hun.
  rewrite to_size_t_id in Hun by (unfold in_size_t; nia).
  destruct (unaligned_blocks offset count bs ltac:(lia) Hoff ltac:(lia) Hun)
    as (HL0 & HLR & HLo & HoL & HRlo & HRhi & HRQ).
  destruct (edge_sizes offset count bs ltac:(lia)) as (Hlb & Hte).
  pose proof (Z.mod_pos_bound offset bs ltac:(lia)) as Bo.
  pose proof (Z.mod_pos_bound (offset + count) bs ltac:(lia)) as Be.
  unfold ends_inside_first_block in Hshape.
  cbn zeta. unfold rmw_write.
  set (L := first_block offset bs) in *.
  set (R := last_block offset count bs) in *.
  assert (HLb : 0 <= L * bs) by (apply Z.mul_nonneg_nonneg; lia).
  assert (HRb : R * bs <= offset + count) by (destruct (count =? 0); lia).
  assert (HRb0 : L * bs <= R * bs) by (apply Z.mul_le_mono_nonneg_r; lia).
  assert (HNb : (R - L + 1) * bs = R * bs - L * bs + bs) by ring.
  assert (HNb1 : (R - L + 1 - 1) * bs = R * bs - L * bs) by ring.
  assert (HR1 : (R + 1) * bs = R * bs + bs) by ring.
  set (N := R - L + 1) in *.
  set (lb := offset - L * bs) in *.
  set (te := (R + 1) * bs - (offset + count)) in *.
  pose proof (heap_alloc_objects w) as Hw1.
  destruct (heap_alloc w) as [[|] w1]; cbn [snd] in Hw1;
    [|intros H; inversion H].
  assert (Hrs : forall b, L <= b <= R -> reads_stored o bs d (b * bs) bs).
  { intros b Hb.
    assert (0 <= b * bs) by (apply Z.mul_nonneg_nonneg; lia).
    assert (b * bs <= R * bs) by (apply Z.mul_le_mono_nonneg_r; lia).
    apply uniform_reads_stored; try assumption; try lia.
    - apply Z.mod_mul. lia.
    - apply Z.mod_same. lia.
    - rewrite Z.div_same by lia. lia. }
  (* the write, once the scratch holds the edges *)
  assert (Hfin : forall t2 w3,
            length t2 = Z.to_nat (N * bs) ->
            firstn (Z.to_nat lb) t2 = read_extent d (L * bs) lb ->
            skipn (Z.to_nat lb + Z.to_nat count) t2
              = read_extent d (offset + count) te ->
            objects w3 = objects w ->
            pwrite_aligned heap_alloc ops o
              (ptr_store t2 lb (memcpy (ptr_add t2 lb) buf count))
              (N * bs) (L * bs) w3 = (0, w') ->
            objects w'
            = fun k =>
                if oid_eqb k (obj_ext o)
                then Some (write_extent d (L * bs) (N * bs)
                             (read_extent d (L * bs) lb
                              ++ firstn (Z.to_nat count) buf
                              ++ read_extent d (offset + count) te))
                else objects w k).
  { intros t2 w3 Ht2 Hpre Hpost Hw3.
    destruct (skipn_store_memcpy t2 lb buf count)
      as (Hlen & Hfst & Hpay & Hskp); try lia.
    set (tmp := ptr_store t2 lb (memcpy (ptr_add t2 lb) buf count)) in *.
    destruct (pwrite_aligned_spec o tmp (N * bs) (L * bs) w3)
      as (rc & w4 & -> & Hcases).
    intros H. inversion H; subst rc w4.
    destruct Hcases as [[Hne _] | (_ & d0 & Hd0 & Hobj)]; [contradiction|].
    rewrite Hw3 in Hd0, Hobj. rewrite Hd in Hd0. inversion Hd0; subst d0.
    rewrite firstn_all2 in Hobj by lia.
    rewrite Hobj.
    rewrite (split3 tmp (Z.to_nat lb) (Z.to_nat count)).
    rewrite Hfst, Hpay, Hskp, Hpre, Hpost. reflexivity. }
  destruct (offset mod bs =? 0) eqn:Eo; cbn [negb].
  - (* left aligned: no left read *)
    apply Z.eqb_eq in Eo. assert (Hlb0 : lb = 0) by lia.
    cbn [Z.ltb Z.compare].
    destruct ((offset + count) mod bs =? 0) eqn:Ee; cbn [negb andb].
    + (* ... and right aligned: impossible for an unaligned request *)
      apply Z.eqb_eq in Ee. exfalso.
      rewrite andb_true_r in Hun.
      apply Z.eqb_neq in Hun. apply Hun.
      replace count with ((offset + count) - offset) by lia.
      rewrite Zminus_mod, Ee, Eo. reflexivity.
    + cbn [andb negb] in Hshape.
      rewrite Hshape. cbn [negb].
      apply Z.eqb_neq in Hshape, Ee.
      destruct (Hrs R ltac:(lia) (ptr_add (zeros (N * bs)) ((N - 1) * bs)) w1)
        as (rc2 & blk & w3 & -> & Hw3 & Hc).
      { rewrite Hw1. exact Hd. }
      { unfold ptr_add. rewrite length_skipn, length_zeros. lia. }
      destruct Hc as [[-> ->] | ->]; [|cbn; intros H; inversion H].
      cbn [Z.ltb Z.compare].
      apply Hfin.
      * rewrite length_ptr_store_blk by apply length_blit. apply length_zeros.
      * rewrite Hlb0. reflexivity.
      * unfold ptr_store, ptr_add.
        rewrite blit_same_length
          by (rewrite length_read_extent, length_skipn, length_zeros; lia).
        rewrite skipn_app, skipn_all2
          by (rewrite length_firstn, length_zeros; lia).
        rewrite length_firstn, length_zeros. cbn [app].
        replace (Z.to_nat lb + Z.to_nat count
                 - Nat.min (Z.to_nat ((N - 1) * bs)) (Z.to_nat (N * bs)))%nat
          with (Z.to_nat (offset + count - R * bs)) by lia.
        rewrite skipn_read_extent by lia.
        f_equal; lia.
      * congruence.
  - (* the left block is read *)
    apply Z.eqb_neq in Eo.
    destruct (Hrs L ltac:(lia) (zeros (N * bs)) w1)
      as (rc1 & t1 & w2 & -> & Hw2 & Hc).
    { rewrite Hw1. exact Hd. }
    { rewrite length_zeros. lia. }
    destruct Hc as [[-> ->] | ->]; [|cbn; intros H; inversion H].
    cbn [Z.ltb Z.compare].
    rewrite blit_exact by (rewrite length_read_extent, length_zeros; lia).
    rewrite length_read_extent.
    set (t1 := read_extent d (L * bs) bs ++ skipn (Z.to_nat bs) (zeros (N * bs))).
    assert (Ht1 : length t1 = Z.to_nat (N * bs)).
    { unfold t1. rewrite length_app, length_read_extent, length_skipn,
        length_zeros. lia. }
    assert (Hpre1 : firstn (Z.to_nat lb) t1 = read_extent d (L * bs) lb).
    { unfold t1. rewrite firstn_app, length_read_extent.
      replace (Z.to_nat lb - Z.to_nat bs)%nat with 0%nat by lia.
      rewrite firstn_O, app_nil_r. apply firstn_read_extent. lia. }
    destruct (negb ((offset + count) mod bs =? 0) && negb (L =? R)) eqn:Er.
    + (* the right block is read as well *)
      apply andb_true_iff in Er. destruct Er as [Ee ELR].
      apply negb_true_iff in Ee, ELR. rewrite Ee in Hte.
      apply Z.eqb_neq in Ee, ELR.
      destruct (Hrs R ltac:(lia) (ptr_add t1 ((N - 1) * bs)) w2)
        as (rc2 & blk & w3 & -> & Hw3 & Hc).
      { rewrite Hw2, Hw1. exact Hd. }
      { unfold ptr_add. rewrite length_skipn, Ht1. lia. }
      destruct Hc as [[-> ->] | ->]; [|cbn; intros H; inversion H].
      cbn [Z.ltb Z.compare].
      assert (HLR1 : L * bs + bs <= R * bs).
      { replace (L * bs + bs) with ((L + 1) * bs) by ring.
        apply Z.mul_le_mono_nonneg_r; lia. }
      apply Hfin.
      * rewrite length_ptr_store_blk by apply length_blit. exact Ht1.
      * unfold ptr_store. rewrite firstn_app, firstn_firstn.
        rewrite length_firstn, Ht1.
        replace (Z.to_nat lb - Nat.min (Z.to_nat ((N - 1) * bs))
                                 (Z.to_nat (N * bs)))%nat with 0%nat by lia.
        rewrite firstn_O, app_nil_r.
        rewrite Nat.min_l by lia. exact Hpre1.
      * unfold ptr_store, ptr_add.
        rewrite blit_same_length
          by (rewrite length_read_extent, length_skipn, Ht1; lia).
        rewrite skipn_app, skipn_all2 by (rewrite length_firstn, Ht1; lia).
        rewrite length_firstn, Ht1. cbn [app].
        replace (Z.to_nat lb + Z.to_nat count
                 - Nat.min (Z.to_nat ((N - 1) * bs)) (Z.to_nat (N * bs)))%nat
          with (Z.to_nat (offset + count - R * bs)) by lia.
        rewrite skipn_read_extent by lia.
        f_equal; lia.
      * congruence.
    + (* only the left block is read *)
      apply Hfin; try assumption; try congruence.
      apply andb_false_iff in Er.
      destruct Er as [Ee | ELR].
      * (* right aligned: nothing follows the payload *)
        apply negb_false_iff in Ee. rewrite Ee in Hte.
        rewrite skipn_all2 by lia.
        replace te with 0 by lia. reflexivity.
      * (* a single block, which the left read filled *)
        apply negb_false_iff, Z.eqb_eq in ELR.
        assert (HN1 : N * bs = bs) by lia.
        unfold t1. rewrite HN1, length_zeros_skip.
        rewrite app_nil_r.
        replace (Z.to_nat lb + Z.to_nat count)%nat
          with (Z.to_nat (lb + count)) by lia.
        rewrite skipn_read_extent by lia.
        f_equal; lia.
Qed.

Lemma nth_read_extent d a n i :
  (i < Z.to_nat n)%nat ->
  nth i (read_extent d a n) x00 = byte_at d (a + Z.of_nat i).
Proof.
  intros Hi. unfold read_extent.
  rewrite (nth_indep _ x00 (byte_at d (a + Z.of_nat 0)))
    by (rewrite length_map, length_seq; exact Hi).
  rewrite (map_nth (fun i => byte_at d (a + Z.of_nat i))).
  rewrite seq_nth by exact Hi. reflexivity.
Qed.

Lemma byte_at_write_extent_inside d a n buf k :
  a <= k < a + n ->
  byte_at (write_extent d a n buf) k = nth (Z.to_nat (k - a)) buf x00.
Proof.
  intros H. unfold byte_at. rewrite write_extent_inside by exact H.
  reflexivity.
Qed.

Lemma byte_at_write_extent_outside d a n buf k :
  k < a \/ a + n <= k ->
  byte_at (write_extent d a n buf) k = byte_at d k.
Proof.
  intros H. unfold byte_at. rewrite write_extent_outside by exact H.
  reflexivity.
Qed.

(** Writing whole blocks keeps every block written throughout or not at
    all. *)
Lemma block_uniform_write d a n buf bs :
  0 < bs -> 0 <= n -> a mod bs = 0 -> n mod bs = 0 ->
  block_uniform d bs ->
  block_uniform (write_extent d a n buf) bs.
Proof.
  intros Hbs Hn Ha Hnm Hu b.
  pose proof (Z.div_mod a bs ltac:(lia)) as Da. rewrite Ha in Da.
  pose proof (Z.div_mod n bs ltac:(lia)) as Dn. rewrite Hnm in Dn.
  set (ka := a / bs) in *. set (kn := n / bs) in *.
  destruct (Z_lt_le_dec b ka) as [Hlo | Hlo];
    [|destruct (Z_lt_le_dec b (ka + kn)) as [Hin | Hhi]].
  - (* the block lies before the extent *)
    assert (b * bs + bs <= a) by nia.
    destruct (Hu b) as [Hw | Hh]; [left | right].
    + apply extent_written_iff. intros k Hk. unfold is_written.
      rewrite write_extent_outside by lia.
      exact (proj1 (extent_written_iff d (b * bs) bs) Hw k Hk).
    + intros k Hk. rewrite write_extent_outside by lia. apply Hh, Hk.
  - (* the block lies inside the extent *)
    assert (a <= b * bs) by nia. assert (b * bs + bs <= a + n) by nia.
    left. apply extent_written_iff. intros k Hk. unfold is_written.
    rewrite write_extent_inside by lia. reflexivity.
  - (* the block lies after the extent *)
    assert (a + n <= b * bs) by nia.
    destruct (Hu b) as [Hw | Hh]; [left | right].
    + apply extent_written_iff. intros k Hk. unfold is_written.
      rewrite write_extent_outside by lia.
      exact (proj1 (extent_written_iff d (b * bs) bs) Hw k Hk).
    + intros k Hk. rewrite write_extent_outside by lia. apply Hh, Hk.
Qed.

(** Write framing, where it holds: over an object whose blocks are each
    written throughout or not at all, a successful [dstore_pwrite] that
    fits, and that is not a left-aligned write ending inside its first
    block, sets the bytes of [offset, offset + count) to the payload and
    leaves every other byte, and every other object, as it was; the
    blocks of the object stay uniform. *)
Theorem pwrite_frame (o : dstore_obj dstore_oid_t)
    offset count bs buf w w' d :
  fits_uint32 offset count bs ->
  ends_inside_first_block offset count bs = false ->
  (Z.to_nat count <= length buf)%nat ->
  objects w (obj_ext o) = Some d ->
  block_uniform d bs ->
  pwrite o offset count bs buf w = (0, w') ->
  exists d',
    objects w' (obj_ext o) = Some d'
    /\ (forall k, oid_eqb k (obj_ext o) = false -> objects w' k = objects w k)
    /\ block_uniform d' bs
    /\ written_in_frame d d' offset count buf.
Proof.
  intros Hfits Hshape Hbuf Hd Hu.
  pose proof Hfits as (Hbs & Hoff & Hcnt & Hblk & Hfit).
  unfold pwrite, dstore_pwrite, __dstore_pwrite.
  fold (aligned offset count bs).
  destruct (aligned offset count bs) eqn:Ea.
  - (* aligned: the extent is written as it is *)
    unfold aligned in Ea.
    rewrite to_size_t_id in Ea by (unfold in_size_t; lia).
    apply andb_true_iff in Ea. destruct Ea as [Ec Eo].
    apply Z.eqb_eq in Ec, Eo.
    intros Hwr.
    destruct (pwrite_aligned_spec o buf count offset w)
      as (rc & w1 & E & Hc).
    rewrite E in Hwr. inversion Hwr; subst rc w1.
    destruct Hc as [[Hne _] | (_ & d0 & Hd0 & Hobj)]; [contradiction|].
    rewrite Hd in Hd0. inversion Hd0; subst d0.
    eexists. rewrite Hobj, oid_eqb_refl. split; [reflexivity|].
    split; [intros k Hk; rewrite Hk; reflexivity|].
    split; [apply block_uniform_write; try assumption; lia|].
    split.
    + intros k Hk. rewrite byte_at_write_extent_inside by exact Hk.
      rewrite nth_firstn.
      replace (Z.to_nat (k - offset) <? Z.to_nat count)%nat with true
        by (symmetry; apply Nat.ltb_lt; lia).
      reflexivity.
    + intros k Hk. apply byte_at_write_extent_outside. exact Hk.
  - (* unaligned: read-modify-write of the blocks L..R *)
    intros Hwr.
    pose proof Ea as Hun. unfold aligned in Hun.
    rewrite to_size_t_id in Hun by (unfold in_size_t; lia).
    destruct (unaligned_blocks offset count bs ltac:(lia) Hoff ltac:(lia) Hun)
      as (HL0 & HLR & HLo & HoL & HRlo & HRhi & HRQ).
    apply (pwrite_unaligned_scratch o offset count bs buf w w' d) in Hwr;
      try assumption.
    cbn zeta in Hwr.
    set (L := first_block offset bs) in *.
    set (R := last_block offset count bs) in *.
    assert (HLb : 0 <= L * bs) by (apply Z.mul_nonneg_nonneg; lia).
    assert (HNb : (R - L + 1) * bs = (R + 1) * bs - L * bs) by ring.
    assert (HN0 : 0 <= (R - L + 1) * bs) by (apply Z.mul_nonneg_nonneg; lia).
    set (pre := read_extent d (L * bs) (offset - L * bs)) in *.
    set (mid := firstn (Z.to_nat count) buf) in *.
    set (post := read_extent d (offset + count)
                   ((R + 1) * bs - (offset + count))) in *.
    assert (Lpre : length pre = Z.to_nat (offset - L * bs))
      by apply length_read_extent.
    assert (Lmid : length mid = Z.to_nat count)
      by (unfold mid; rewrite length_firstn; lia).
    assert (Lpost : length post = Z.to_nat ((R + 1) * bs - (offset + count)))
      by apply length_read_extent.
    eexists. rewrite Hwr, oid_eqb_refl. split; [reflexivity|].
    split; [intros k Hk; rewrite Hk; reflexivity|].
    split.
    { apply block_uniform_write; try assumption; try lia;
        apply Z.mod_mul; lia. }
    split.
    + intros k Hk. rewrite byte_at_write_extent_inside by lia.
      rewrite app_nth2 by lia. rewrite app_nth1 by lia.
      unfold mid. rewrite nth_firstn.
      replace (Z.to_nat (k - L * bs) - length pre <? Z.to_nat count)%nat
        with true by (symmetry; apply Nat.ltb_lt; lia).
      f_equal. lia.
    + intros k Hk.
      destruct (Z_lt_le_dec k (L * bs)) as [H1 | H1];
        [apply byte_at_write_extent_outside; lia|].
      destruct (Z_lt_le_dec k ((R + 1) * bs)) as [H2 | H2];
        [|apply byte_at_write_extent_outside; lia].
      rewrite byte_at_write_extent_inside by lia.
      destruct Hk as [Hk | Hk].
      * rewrite app_nth1 by lia. unfold pre.
        rewrite nth_read_extent by lia. f_equal. lia.
      * rewrite app_nth2 by lia. rewrite app_nth2 by lia. unfold post.
        rewrite nth_read_extent by lia. f_equal. lia.
Qed.

End Framing.
(** ** Outcomes and memory use over the in-memory store *)

Module StoreOutcome.

Import MemMotr StoreFacts StoreIO StoreWrite Budget.

Local Abbreviation rc_of := (fun r : Z * list byte * world => fst (fst r)).

(** [pread_aligned] takes at most four allocations, fails with -ENOMEM
    only when fewer are left, and otherwise returns 0 or -ENOENT. *)
Lemma pread_aligned_outcome (o : dstore_obj dstore_oid_t) buf size off w :
  let r := pread_aligned heap_alloc ops o buf size off w in
  objects (snd r) = objects w
  /\ (heap_left w <= heap_left (snd r) + 4)%nat
  /\ (rc_of r = 0 \/ rc_of r = - ENOENT
      \/ (rc_of r = - ENOMEM /\ (heap_left w < 4)%nat)).
Proof.
  destruct w as [objs heap lg bsz].
  unfold pread_aligned, dstore_io_buf_init, dstore_io_buf2vec,
    dstore_io_op_read, dstore_io_op_init_and_submit, dstore_io_op_wait,
    dstore_io_op_fini.
  destruct heap as [|[|[|[|n]]]];
    try (cbn; repeat split; try reflexivity; unfold ENOMEM, ENOENT; lia).
  cbn. unfold cortx_ds_io_op_submit, sync_bufs. cbn.
  unfold MemMotr.m0_op_launch. cbn.
  destruct (objs (obj_ext o)) as [d|] eqn:Ed.
  - cbn. rewrite andb_true_r.
    destruct (extent_written d off size) eqn:Ew; cbn;
      repeat split; try lia; auto.
  - cbn. repeat split; try lia; auto.
Qed.


Lemma reread_blocks_outcome (o : dstore_obj dstore_oid_t) bs offset n i buf w :
  let r := reread_blocks heap_alloc ops o bs offset n i buf w in
  objects (snd r) = objects w
  /\ (heap_left w <= heap_left (snd r) + 4 * n)%nat
  /\ (rc_of r = 0 \/ (rc_of r = - ENOMEM /\ (heap_left w < 4 * n)%nat)).
Proof.
  revert i buf w. induction n as [|n IH]; intros i buf w; cbn [reread_blocks].
  - cbn. repeat split; try lia; auto.
  - pose proof (pread_aligned_outcome o (ptr_add buf (to_size_t (i * bs))) bs
                  (to_off_t (to_size_t (offset + to_size_t (i * bs)))) w) as H.
    cbn zeta in H.
    destruct (pread_aligned _ _ _ _ _ _ _) as [[rc blk] w1].
    cbn [fst snd] in H. destruct H as (Ho & Hh & Hrc).
    destruct Hrc as [-> | [-> | [-> Hlt]]].
    + cbn [Z.eqb].
      specialize (IH (i + 1) (ptr_store buf (to_size_t (i * bs)) blk) w1).
      cbn zeta in IH. destruct IH as (Ho' & Hh' & Hrc').
      repeat split; [congruence | lia |].
      destruct Hrc' as [E | [E Hlt]]; [left; exact E | right; split; [exact E | lia]].
    + cbn [Z.eqb Z.opp ENOENT Pos.eqb].
      match goal with |- context [reread_blocks _ _ _ _ _ _ _ ?b w1] =>
        specialize (IH (i + 1) b w1) end.
      cbn zeta in IH. destruct IH as (Ho' & Hh' & Hrc').
      repeat split; [congruence | lia |].
      destruct Hrc' as [E | [E Hlt]]; [left; exact E | right; split; [exact E | lia]].
    + cbn. repeat split; [exact Ho | lia |]. right. split; [reflexivity | lia].
Qed.

(** The hole-tolerant reader never changes the objects and never
    returns -ENOENT: it returns 0, or -ENOMEM when the heap cannot serve
    its reads. *)
Lemma handle_holes_outcome (o : dstore_obj dstore_oid_t) buf size off bs w :
  let r := pread_aligned_handle_holes heap_alloc ops o buf size off bs w in
  objects (snd r) = objects w
  /\ (heap_left w <= heap_left (snd r) + holes_cost size bs)%nat
  /\ (rc_of r = 0
      \/ (rc_of r = - ENOMEM /\ (heap_left w < holes_cost size bs)%nat)).
Proof.
  unfold pread_aligned_handle_holes, holes_cost.
  pose proof (pread_aligned_outcome o buf size off w) as H. cbn zeta in H.
  destruct (pread_aligned _ _ _ _ _ _ _) as [[rc buf'] w1].
  cbn [fst snd] in H. destruct H as (Ho & Hh & Hrc).
  destruct Hrc as [-> | [-> | [-> Hlt]]].
  - cbn. repeat split; [exact Ho | lia | auto].
  - cbn [Z.eqb Z.opp ENOENT Pos.eqb].
    pose proof (reread_blocks_outcome o bs off (Z.to_nat (to_int (size / bs)))
                  0 buf' w1) as H.
    cbn zeta in H. destruct H as (Ho' & Hh' & Hrc').
    repeat split; [congruence | lia |].
    destruct Hrc' as [E | [E Hlt]]; [left; exact E | right; split; [exact E | lia]].
  - cbn. repeat split; [exact Ho | lia |]. right. split; [reflexivity | lia].
Qed.

(** A read of one block costs at most eight allocations. *)
Lemma holes_cost_block bs : (holes_cost bs bs <= 8)%nat.
Proof.
  unfold holes_cost.
  destruct (Z.eq_dec bs 0) as [->|Hne].
  - cbn. lia.
  - rewrite Z.div_same by exact Hne. cbn. lia.
Qed.

Lemma holes_cost_blocks size bs :
  0 < bs -> 0 <= size -> size / bs < 2147483648 ->
  holes_cost size bs = (4 + 4 * Z.to_nat (size / bs))%nat.
Proof.
  intros Hbs Hsz Hk. unfold holes_cost.
  rewrite to_int_id; [reflexivity|].
  pose proof (Z.div_pos size bs Hsz Hbs). lia.
Qed.

(** [pwrite_aligned] takes at most four allocations; it changes the
    objects only when it returns 0; on an existing object it fails only
    for lack of memory. *)
Lemma pwrite_aligned_outcome (o : dstore_obj dstore_oid_t) buf size off w :
  let r := pwrite_aligned heap_alloc ops o buf size off w in
  (heap_left w <= heap_left (snd r) + 4)%nat
  /\ (fst r <> 0 -> objects (snd r) = objects w)
  /\ (objects w (obj_ext o) <> None ->
      fst r = 0 \/ (fst r = - ENOMEM /\ (heap_left w < 4)%nat)).
Proof.
  destruct w as [objs heap lg bsz].
  unfold pwrite_aligned, dstore_io_buf_init, dstore_io_buf2vec,
    dstore_io_op_write, dstore_io_op_init_and_submit, dstore_io_op_wait,
    dstore_io_op_fini.
  destruct heap as [|[|[|[|n]]]];
    try (cbn; repeat split; try reflexivity; unfold ENOMEM; lia).
  cbn. unfold cortx_ds_io_op_submit, sync_bufs. cbn.
  unfold MemMotr.m0_op_launch. cbn.
  destruct (objs (obj_ext o)) as [d|] eqn:Ed.
  - cbn. repeat split; try lia; try tauto.
  - cbn. repeat split; try lia; try reflexivity. intros H. contradiction.
Qed.


Lemma heap_alloc_outcome w :
  objects (snd (heap_alloc w)) = objects w
  /\ (heap_left w <= heap_left (snd (heap_alloc w)) + 1)%nat
  /\ (fst (heap_alloc w) = false -> (heap_left w < 1)%nat).
Proof.
  unfold heap_alloc. destruct (heap_left w) eqn:E; cbn; rewrite ?E;
    repeat split; try lia; discriminate.
Qed.

(** [pwrite_unaligned] takes at most 21 allocations (the scratch buffer,
    two edge reads with their retries, the write); it changes the
    objects only when it returns 0; on an existing object it fails only
    for lack of memory. *)
Lemma pwrite_unaligned_outcome (o : dstore_obj dstore_oid_t)
    offset count bs buf w :
  let r := pwrite_unaligned heap_alloc ops o offset count bs buf w in
  (heap_left w <= heap_left (snd r) + 21)%nat
  /\ (fst r <> 0 -> objects (snd r) = objects w)
  /\ (objects w (obj_ext o) <> None ->
      fst r = 0 \/ (fst r = - ENOMEM /\ (heap_left w < 21)%nat)).
Proof.
  unfold pwrite_unaligned, calloc.
  destruct (heap_alloc_outcome w) as (Ho1 & Hh1 & Hf1).
  destruct (heap_alloc w) as [[|] w1]; cbn [fst snd] in *;
    [|specialize (Hf1 eq_refl); cbn; repeat split; unfold ENOMEM; lia || auto].
  clear Hf1.
  set (L := to_uint32 (to_size_t offset / bs)).
  set (R := if to_size_t (offset + count) mod bs =? 0
            then to_uint32 (to_uint32 (to_size_t (offset + count) / bs) - 1)
            else to_uint32 (to_size_t (offset + count) / bs)).
  set (N := to_uint32 (R - L + 1)).
  set (tmp0 := zeros (to_size_t (to_size_t (N * bs) * 1))).
  (* left edge *)
  assert (Hleft : exists rc1 t1 w2,
            (if negb (to_size_t offset mod bs =? 0)
             then pread_aligned_handle_holes heap_alloc ops o tmp0 bs
                    (to_off_t (to_size_t (L * bs))) bs w1
             else (0, tmp0, w1)) = (rc1, t1, w2)
            /\ objects w2 = objects w
            /\ (heap_left w <= heap_left w2 + 9)%nat
            /\ (rc1 = 0 \/ (rc1 = - ENOMEM /\ (heap_left w < 9)%nat))).
  { destruct (negb (to_size_t offset mod bs =? 0)).
    - pose proof (handle_holes_outcome o tmp0 bs
                    (to_off_t (to_size_t (L * bs))) bs w1) as H.
      pose proof (holes_cost_block bs) as Hc.
      cbn zeta in H.
      destruct (pread_aligned_handle_holes _ _ _ _ _ _ _ _) as [[rc1 t1] w2].
      cbn [fst snd] in H. destruct H as (Ho & Hh & Hrc).
      exists rc1, t1, w2. split; [reflexivity|].
      split; [congruence|]. split; [lia|].
      destruct Hrc as [E | [E Hlt]]; [left; exact E | right; split; [exact E | lia]].
    - exists 0, tmp0, w1. split; [reflexivity|].
      split; [exact Ho1|]. split; [lia | auto]. }
  destruct Hleft as (rc1 & t1 & w2 & -> & Ho2 & Hh2 & Hrc1).
  destruct Hrc1 as [-> | [-> Hlt]];
    [|cbn; repeat split; unfold ENOMEM; lia || auto].
  cbn [Z.ltb Z.compare].
  (* right edge *)
  assert (Hright : exists rc2 t2 w3,
            (if negb (to_size_t (offset + count) mod bs =? 0)
                && negb (L =? R)
             then
               let '(rc, blk, w') :=
                 pread_aligned_handle_holes heap_alloc ops o
                   (ptr_add t1 (to_size_t (to_uint32 (N - 1) * bs))) bs
                   (to_off_t (to_size_t (R * bs))) bs w2 in
               (rc, ptr_store t1 (to_size_t (to_uint32 (N - 1) * bs)) blk, w')
             else (0, t1, w2)) = (rc2, t2, w3)
            /\ objects w3 = objects w
            /\ (heap_left w <= heap_left w3 + 17)%nat
            /\ (rc2 = 0 \/ (rc2 = - ENOMEM /\ (heap_left w < 17)%nat))).
  { destruct (negb (to_size_t (offset + count) mod bs =? 0) && negb (L =? R)).
    - cbn zeta.
      pose proof (handle_holes_outcome o
                    (ptr_add t1 (to_size_t (to_uint32 (N - 1) * bs))) bs
                    (to_off_t (to_size_t (R * bs))) bs w2) as H.
      pose proof (holes_cost_block bs) as Hc.
      cbn zeta in H.
      destruct (pread_aligned_handle_holes _ _ _ _ _ _ _ _) as [[rc2 blk] w3].
      cbn [fst snd] in H. destruct H as (Ho & Hh & Hrc).
      eexists rc2, _, w3. split; [reflexivity|].
      split; [congruence|]. split; [lia|].
      destruct Hrc as [E | [E Hlt]]; [left; exact E | right; split; [exact E | lia]].
    - exists 0, t1, w2. split; [reflexivity|].
      split; [exact Ho2|]. split; [lia | auto]. }
  destruct Hright as (rc2 & t2 & w3 & -> & Ho3 & Hh3 & Hrc2).
  destruct Hrc2 as [-> | [-> Hlt]];
    [|cbn; repeat split; unfold ENOMEM; lia || auto].
  cbn [Z.ltb Z.compare].
  match goal with |- context [pwrite_aligned _ _ _ ?b ?s ?f w3] =>
    pose proof (pwrite_aligned_outcome o b s f w3) as H end.
  cbn zeta in H. destruct H as (Hh & Hne & Hex).
  rewrite Ho3 in Hne, Hex.
  repeat split; [lia | exact Hne |].
  intros Hd. destruct (Hex Hd) as [E | [E Hlt]];
    [left; exact E | right; split; [exact E | lia]].
Qed.

(** [dstore_pwrite] is all or nothing: it returns 0, or it leaves every
    object as it was. *)
Theorem pwrite_outcome (o : dstore_obj dstore_oid_t) offset count bs buf w :
  let r := pwrite o offset count bs buf w in
  (heap_left w <= heap_left (snd r) + 21)%nat
  /\ (fst r <> 0 -> objects (snd r) = objects w)
  /\ (objects w (obj_ext o) <> None ->
      fst r = 0 \/ (fst r = - ENOMEM /\ (heap_left w < 21)%nat)).
Proof.
  unfold pwrite, dstore_pwrite, __dstore_pwrite.
  destruct ((count mod bs =? 0) && (to_size_t offset mod bs =? 0)).
  - pose proof (pwrite_aligned_outcome o buf count offset w) as H.
    cbn zeta in *. destruct H as (Hh & Hne & Hex).
    repeat split; [lia | exact Hne |].
    intros Hd. destruct (Hex Hd) as [E | [E Hlt]];
      [left; exact E | right; split; [exact E | lia]].
  - apply pwrite_unaligned_outcome.
Qed.



Lemma read_right_most_outcome (o : dstore_obj dstore_oid_t) bs tmpbuf rc
    count offset buf_pos buf w :
  rc = 0 ->
  let r := read_right_most heap_alloc ops o bs tmpbuf rc count offset
             buf_pos buf w in
  objects (snd r) = objects w
  /\ (heap_left w <= heap_left (snd r) + 8)%nat
  /\ (rc_of r = 0 \/ (rc_of r = - ENOMEM /\ (heap_left w < 8)%nat)).
Proof.
  intros ->. unfold read_right_most.
  destruct (count =? 0); [cbn; repeat split; lia || auto|].
  pose proof (handle_holes_outcome o tmpbuf bs offset bs w) as H.
  pose proof (holes_cost_block bs) as Hc.
  cbn zeta in H.
  destruct (pread_aligned_handle_holes _ _ _ _ _ _ _ _) as [[rc1 t1] w1].
  cbn [fst snd] in H. destruct H as (Ho & Hh & Hrc).
  destruct Hrc as [-> | [-> Hlt]]; cbn; repeat split;
    unfold ENOMEM; lia || auto.
Qed.

Lemma continous_aligned_read_outcome (o : dstore_obj dstore_oid_t) bs tmpbuf
    rc count offset buf_pos buf w :
  rc = 0 ->
  let r := continous_aligned_read heap_alloc ops o bs tmpbuf rc count offset
             buf_pos buf w in
  objects (snd r) = objects w
  /\ (heap_left w <= heap_left (snd r) + (run_cost count bs + 8))%nat
  /\ (rc_of r = 0
      \/ (rc_of r = - ENOMEM /\ (heap_left w < run_cost count bs + 8)%nat)).
Proof.
  intros ->. unfold continous_aligned_read, run_cost.
  destruct (0 <? to_uint32 (count / bs)).
  - match goal with |- context [pread_aligned_handle_holes _ _ _ ?b ?s ?f bs w] =>
      pose proof (handle_holes_outcome o b s f bs w) as H end.
    cbn zeta in H.
    destruct (pread_aligned_handle_holes _ _ _ _ _ _ _ _) as [[rc1 run] w1].
    cbn [fst snd] in H. destruct H as (Ho & Hh & Hrc).
    destruct Hrc as [-> | [-> Hlt]];
      [|cbn; repeat split; unfold ENOMEM; lia || auto].
    cbn [Z.ltb Z.compare].
    match goal with
    | |- context [read_right_most _ _ _ _ ?t 0 ?c ?f ?p ?b w1] =>
        pose proof (read_right_most_outcome o bs t 0 c f p b w1 eq_refl) as H
    end.
    cbn zeta in H. destruct H as (Ho' & Hh' & Hrc').
    repeat split; [congruence | lia |].
    destruct Hrc' as [E | [E Hlt]]; [left; exact E | right; split; [exact E | lia]].
  - pose proof (read_right_most_outcome o bs tmpbuf 0 count offset buf_pos
                  buf w eq_refl) as H.
    cbn zeta in H. destruct H as (Ho' & Hh' & Hrc').
    repeat split; [congruence | lia |].
    destruct Hrc' as [E | [E Hlt]]; [left; exact E | right; split; [exact E | lia]].
Qed.

(** [pread_unaligned] never changes the objects and returns 0 or
    -ENOMEM, whatever the request. *)
Lemma pread_unaligned_outcome (o : dstore_obj dstore_oid_t)
    offset count bs buf w :
  let r := pread_unaligned heap_alloc ops o offset count bs buf w in
  objects (snd r) = objects w /\ (rc_of r = 0 \/ rc_of r = - ENOMEM).
Proof.
  unfold pread_unaligned, calloc.
  destruct (heap_alloc_outcome w) as (Ho1 & _ & _).
  destruct (heap_alloc w) as [[|] w1]; cbn [fst snd] in *;
    [|cbn; auto].
  destruct ((to_size_t offset mod bs =? 0) && (bs <=? count)).
  - match goal with
    | |- context [continous_aligned_read _ _ _ _ ?t 0 ?c ?f ?p ?b w1] =>
        pose proof (continous_aligned_read_outcome o bs t 0 c f p b w1 eq_refl)
          as H
    end.
    cbn zeta in H. destruct H as (Ho & _ & Hrc).
    split; [congruence | tauto].
  - match goal with |- context [pread_aligned_handle_holes _ _ _ ?b ?s ?f bs w1] =>
      pose proof (handle_holes_outcome o b s f bs w1) as H end.
    cbn zeta in H.
    destruct (pread_aligned_handle_holes _ _ _ _ _ _ _ _) as [[rc1 t1] w2].
    cbn [fst snd] in H. destruct H as (Ho & _ & Hrc).
    destruct Hrc as [-> | [-> _]]; [|cbn; split; [congruence | auto]].
    cbn [Z.ltb Z.compare].
    match goal with |- context [if ?c then _ else _] => destruct c end;
      [cbn; split; [congruence | auto]|].
    match goal with
    | |- context [continous_aligned_read _ _ _ _ ?t 0 ?c ?f ?p ?b w2] =>
        pose proof (continous_aligned_read_outcome o bs t 0 c f p b w2 eq_refl)
          as H
    end.
    cbn zeta in H. destruct H as (Ho' & _ & Hrc).
    split; [congruence | tauto].
Qed.

(** [dstore_pread] never changes the objects and returns 0 or -ENOMEM. *)
Theorem pread_outcome (o : dstore_obj dstore_oid_t) offset count bs buf w :
  let r := pread o offset count bs buf w in
  objects (snd r) = objects w /\ (rc_of r = 0 \/ rc_of r = - ENOMEM).
Proof.
  unfold pread, dstore_pread, __dstore_pread.
  destruct ((count mod bs =? 0) && (to_size_t offset mod bs =? 0)).
  - pose proof (handle_holes_outcome o buf count offset bs w) as H.
    cbn zeta in *. destruct H as (Ho & _ & Hrc). split; [exact Ho | tauto].
  - apply pread_unaligned_outcome.
Qed.

End StoreOutcome.

Module StoreBudget.

Import MemMotr StoreSpec StoreFacts StoreIO StoreWrite StoreRead Budget StoreOutcome.

Local Abbreviation rc_of := (fun r : Z * list byte * world => fst (fst r)).

Lemma run_cost_le c count bs :
  0 < bs -> 0 <= c <= count -> count < 4294967296 ->
  count / bs < 2147483648 ->
  (run_cost c bs <= 4 + 4 * Z.to_nat (count / bs))%nat.
Proof.
  intros Hbs Hc H32 Hk. unfold run_cost.
  assert (Hle : c / bs <= count / bs) by (apply Z.div_le_mono; lia).
  pose proof (Z.div_pos c bs ltac:(lia) Hbs) as Hp.
  pose proof (Z.mul_div_le c bs Hbs) as Hm.
  rewrite (to_uint32_id (c / bs)) by lia.
  assert (Hb : 0 <= c / bs * bs) by (apply Z.mul_nonneg_nonneg; lia).
  rewrite (to_size_t_id (c / bs * bs)) by (unfold in_size_t; lia).
  rewrite holes_cost_blocks by (rewrite ?Z.div_mul by lia; lia).
  rewrite Z.div_mul by lia. lia.
Qed.

(** Within 32-bit block numbers [dstore_pread] takes at most
    21 + 4 * (count / bs) allocations, and fails only when fewer are
    left. *)
Lemma pread_budget (o : dstore_obj dstore_oid_t) offset count bs buf w :
  fits_uint32 offset count bs ->
  count / bs < 2147483648 ->
  let r := pread o offset count bs buf w in
  (heap_left w <= heap_left (snd r) + (21 + 4 * Z.to_nat (count / bs)))%nat
  /\ (rc_of r <> 0 ->
      (heap_left w < 21 + 4 * Z.to_nat (count / bs))%nat).
Proof.
  intros (Hbs & Hoff & Hcnt & Hblk & Hfit) Hk.
  pose proof (run_cost_le count count bs ltac:(lia) ltac:(lia) ltac:(lia) Hk)
    as Hrun.
  unfold pread, dstore_pread, __dstore_pread.
  fold (aligned offset count bs).
  destruct (aligned offset count bs) eqn:Ea.
  - pose proof (handle_holes_outcome o buf count offset bs w) as H.
    cbn zeta in *. destruct H as (_ & Hh & Hrc).
    rewrite holes_cost_blocks in Hh, Hrc by lia.
    split; [lia|]. intros Hne.
    destruct Hrc as [E | [_ Hlt]]; [contradiction | lia].
  - pose proof Ea as Hun. unfold aligned in Hun.
    rewrite to_size_t_id in Hun by (unfold in_size_t; lia).
    destruct (unaligned_blocks offset count bs ltac:(lia) Hoff ltac:(lia) Hun)
      as (HL0 & HLR & HLo & HoL & HRlo & HRhi & HRQ).
    set (L := first_block offset bs) in *.
    assert (HLb : 0 <= L * bs) by (apply Z.mul_nonneg_nonneg; lia).
    unfold pread_unaligned, calloc.
    destruct (heap_alloc_outcome w) as (_ & Hh1 & Hf1).
    destruct (heap_alloc w) as [[|] w1]; cbn [fst snd] in *;
      [|specialize (Hf1 eq_refl); cbn; split; [lia | intros _; lia]].
    clear Hf1.
    rewrite (to_size_t_id offset) by (unfold in_size_t; lia).
    destruct ((offset mod bs =? 0) && (bs <=? count)).
    + match goal with
      | |- context [continous_aligned_read _ _ _ _ ?t 0 ?c ?f ?p ?b w1] =>
          pose proof (continous_aligned_read_outcome o bs t 0 c f p b w1
                        eq_refl) as H
      end.
      cbn zeta in H. destruct H as (_ & Hh & Hrc).
      split; [lia|]. intros Hne.
      destruct Hrc as [E | [_ Hlt]]; [contradiction | lia].
    + fold (first_block offset bs). fold L.
      rewrite (to_uint32_id L)
        by (split; [lia|]; apply Z.div_lt_upper_bound; lia).
      rewrite (to_size_t_id (L * bs)) by (unfold in_size_t; lia).
      rewrite (to_size_t_id (offset - L * bs)) by (unfold in_size_t; lia).
      rewrite (to_uint32_id (offset - L * bs)) by lia.
      set (lb := offset - L * bs) in *.
      rewrite (to_size_t_id (bs - lb)) by (unfold in_size_t; lia).
      rewrite (to_uint32_id (bs - lb)) by lia.
      set (rb := bs - lb) in *.
      match goal with |- context [pread_aligned_handle_holes _ _ _ ?b ?s ?f bs w1] =>
        pose proof (handle_holes_outcome o b s f bs w1) as H end.
      pose proof (holes_cost_block bs) as Hc8.
      cbn zeta in H.
      destruct (pread_aligned_handle_holes _ _ _ _ _ _ _ _) as [[rc1 t1] w2].
      cbn [fst snd] in H. destruct H as (_ & Hh2 & Hrc).
      destruct Hrc as [-> | [-> Hlt]];
        [|cbn; split; [lia | intros _; lia]].
      cbn [Z.ltb Z.compare].
      destruct (count <=? rb) eqn:Ecr;
        [cbn; split; [lia | intros H; contradiction]|].
      apply Z.leb_gt in Ecr.
      replace (if count <? rb then count else rb) with rb
        by (destruct (count <? rb) eqn:E; [apply Z.ltb_lt in E|]; lia).
      rewrite (to_uint32_id rb) by lia.
      rewrite (to_size_t_id (count - rb)) by (unfold in_size_t; lia).
      pose proof (run_cost_le (count - rb) count bs ltac:(lia) ltac:(lia)
                    ltac:(lia) Hk) as Hrun'.
      match goal with
      | |- context [continous_aligned_read _ _ _ _ ?t 0 ?c ?f ?p ?b w2] =>
          pose proof (continous_aligned_read_outcome o bs t 0 c f p b w2
                        eq_refl) as H
      end.
      cbn zeta in H. destruct H as (_ & Hh & Hrc).
      split; [lia|]. intros Hne.
      destruct Hrc as [E | [_ Hlt]]; [contradiction | lia].
Qed.

End StoreBudget.

(** ** Reads into a buffer longer than the request *)

Module StoreReadInto.

Import MemMotr StoreSpec StoreFacts StoreIO StoreHoles StoreWrite StoreRead.

Lemma ptr_add_app pre rest pos :
  Z.to_nat pos = length pre -> ptr_add (pre ++ rest) pos = rest.
Proof.
  intros H. unfold ptr_add.
  rewrite H, skipn_app, Nat.sub_diag, skipn_all. reflexivity.
Qed.

Lemma ptr_store_app pre rest pos tail :
  Z.to_nat pos = length pre -> ptr_store (pre ++ rest) pos tail = pre ++ tail.
Proof.
  intros H. unfold ptr_store.
  rewrite H, firstn_app, Nat.sub_diag, firstn_O, app_nil_r, firstn_all.
  reflexivity.
Qed.

Lemma blit_nil buf : blit buf [] = buf.
Proof. unfold blit. cbn. apply firstn_all. Qed.

Section Reads.

Variable o : dstore_obj dstore_oid_t.
Variable d : Z -> option byte.
Variable bs : Z.
Hypothesis Hbs : 0 < bs.

Lemma read_right_most_into tmpbuf rc count offset buf_pos pre rest w rc' r w' :
  objects w (obj_ext o) = Some d ->
  0 <= count <= bs ->
  (count <> 0 -> reads_stored o bs d offset bs) ->
  length tmpbuf = Z.to_nat bs ->
  Z.to_nat buf_pos = length pre ->
  (Z.to_nat count <= length rest)%nat ->
  read_right_most heap_alloc ops o bs tmpbuf rc count offset buf_pos
    (pre ++ rest) w = (rc', r, w') ->
  rc' = 0 ->
  r = pre ++ blit rest (read_extent d offset count).
Proof.
  intros Hd Hcnt Hw Htmp Hpos Hrest. unfold read_right_most.
  destruct (count =? 0) eqn:E0.
  - apply Z.eqb_eq in E0. subst count. intros H _. inversion H; subst.
    cbn. rewrite blit_nil. reflexivity.
  - apply Z.eqb_neq in E0.
    destruct (Hw E0 tmpbuf w Hd ltac:(lia))
      as (rc1 & t1 & w1 & -> & _ & Hcase).
    destruct Hcase as [[-> ->] | ->].
    + cbn [Z.ltb Z.compare]. intros H _. inversion H; subst.
      rewrite blit_same_length by (rewrite length_read_extent; lia).
      unfold memcpy. rewrite firstn_read_extent by lia.
      rewrite ptr_add_app, ptr_store_app by assumption. reflexivity.
    + cbn. intros H Hrc. inversion H; subst. discriminate.
Qed.

Lemma continous_aligned_read_into tmpbuf rc count offset buf_pos pre rest
    w rc' r w' :
  objects w (obj_ext o) = Some d ->
  0 <= count -> 0 <= offset -> 0 <= buf_pos ->
  count / bs < 4294967296 ->
  buf_pos + count < 4294967296 ->
  offset + count < 9223372036854775808 ->
  reads_stored o bs d offset (count / bs * bs) ->
  (count mod bs <> 0 ->
   reads_stored o bs d (offset + count / bs * bs) bs) ->
  length tmpbuf = Z.to_nat bs ->
  Z.to_nat buf_pos = length pre ->
  (Z.to_nat count <= length rest)%nat ->
  continous_aligned_read heap_alloc ops o bs tmpbuf rc count offset buf_pos
    (pre ++ rest) w = (rc', r, w') ->
  rc' = 0 ->
  r = pre ++ blit rest (read_extent d offset count).
Proof.
  intros Hd Hcnt Hoff Hpos0 Hc32 Hp32 Hfit Hrun Htail Htmp Hpos Hrest.
  pose proof (Z.div_mod count bs ltac:(lia)) as D.
  pose proof (Z.mod_pos_bound count bs Hbs) as B.
  pose proof (Z.div_pos count bs Hcnt Hbs) as P.
  assert (Hcb : 0 <= count / bs * bs) by (apply Z.mul_nonneg_nonneg; lia).
  unfold continous_aligned_read.
  rewrite (to_uint32_id (count / bs)) by lia.
  set (c := count / bs) in *.
  destruct (0 <? c) eqn:Ec.
  - rewrite (to_size_t_id (c * bs)) by (unfold in_size_t; lia).
    rewrite ptr_add_app by assumption.
    destruct (Hrun rest w Hd ltac:(lia))
      as (rc1 & run & w1 & -> & Hobj & Hcase).
    destruct Hcase as [[-> ->] | ->];
      [|cbn; intros H Hrc; inversion H; subst; discriminate].
    cbn [Z.ltb Z.compare].
    rewrite ptr_store_app by assumption.
    rewrite (blit_exact rest) by (rewrite length_read_extent; lia).
    rewrite length_read_extent, app_assoc.
    rewrite (to_size_t_id (count - c * bs)) by (unfold in_size_t; lia).
    rewrite (to_size_t_id (offset + c * bs)) by (unfold in_size_t; lia).
    rewrite (to_off_t_id (offset + c * bs))
      by (unfold in_off_t, in_ssize_t; lia).
    rewrite (to_size_t_id (buf_pos + c * bs)) by (unfold in_size_t; lia).
    rewrite (to_uint32_id (buf_pos + c * bs)) by lia.
    intros H Hrc.
    apply read_right_most_into in H; try assumption; try lia.
    + subst r. rewrite <- app_assoc. f_equal.
      replace (read_extent d offset count)
        with (read_extent d offset (c * bs)
              ++ read_extent d (offset + c * bs) (count - c * bs))
        by (rewrite <- read_extent_app by lia; f_equal; lia).
      rewrite blit_app by (rewrite !length_read_extent; lia).
      rewrite length_read_extent. reflexivity.
    + rewrite Hobj. exact Hd.
    + intros Hne. apply Htail. lia.
    + rewrite length_app, length_read_extent. lia.
    + rewrite length_skipn. lia.
  - apply Z.ltb_ge in Ec. assert (Hc0 : c = 0) by lia.
    intros H Hrc.
    apply read_right_most_into in H; try assumption; try lia.
    intros Hne. replace offset with (offset + c * bs) by lia.
    apply Htail. lia.
Qed.

End Reads.

(** An unaligned read that fits delivers the stored bytes of the range
    into the first [count] bytes of the buffer and leaves the bytes
    after them as they were. *)
Lemma pread_unaligned_into (o : dstore_obj dstore_oid_t)
    offset count bs r0 w d rc r w' :
  fits_uint32 offset count bs ->
  aligned offset count bs = false ->
  objects w (obj_ext o) = Some d ->
  (forall off size,
     first_block offset bs * bs <= off ->
     off + size <= (last_block offset count bs + 1) * bs ->
     0 <= size -> size <= count \/ size = bs ->
     off mod bs = 0 -> size mod bs = 0 ->
     reads_stored o bs d off size) ->
  (Z.to_nat count <= length r0)%nat ->
  pread_unaligned heap_alloc ops o offset count bs r0 w = (rc, r, w') ->
  rc = 0 ->
  r = blit r0 (read_extent d offset count).
Proof.
  intros (Hbs & Hoff & Hcnt & Hblk & Hfit) Hun Hd Hrs Hr0.
  unfold aligned in Hun.
  rewrite to_size_t_id in Hun by (unfold in_size_t; nia).
  destruct (unaligned_blocks offset count bs ltac:(lia) Hoff ltac:(lia) Hun)
    as (HL0 & HLR & HLo & HoL & HRlo & HRhi & HRQ).
  set (L := first_block offset bs) in *.
  set (R := last_block offset count bs) in *.
  assert (HLb : 0 <= L * bs) by (apply Z.mul_nonneg_nonneg; lia).
  assert (HL1 : (L + 1) * bs = L * bs + bs) by ring.
  assert (HRm : ((R + 1) * bs) mod bs = 0) by (apply Z.mod_mul; lia).
  assert (HLm : (L * bs) mod bs = 0) by (apply Z.mod_mul; lia).
  assert (Hbm : bs mod bs = 0) by (apply Z.mod_same; lia).
  assert (HLR1 : (L + 1) * bs <= (R + 1) * bs)
    by (apply Z.mul_le_mono_nonneg_r; lia).
  assert (Hcd : count / bs <= count) by (apply div_le_self; lia).
  pose proof (Z.div_pos count bs ltac:(lia) ltac:(lia)) as Hcp.
  pose proof (Z.mul_div_le count bs ltac:(lia)) as Hcm.
  unfold pread_unaligned, calloc.
  pose proof (heap_alloc_objects w) as Hw1.
  destruct (heap_alloc w) as [[|] w1]; cbn [snd] in Hw1;
    [|intros H Hrc; inversion H; subst; discriminate].
  rewrite <- Hw1 in Hd.
  rewrite Z.mul_1_r, (to_size_t_id bs) by (unfold in_size_t; lia).
  rewrite (to_size_t_id offset) by (unfold in_size_t; lia).
  destruct ((offset mod bs =? 0) && (bs <=? count)) eqn:Ebr.
  - (* IO is already left aligned *)
    apply andb_true_iff in Ebr. destruct Ebr as [Eo Ec].
    apply Z.eqb_eq in Eo. apply Z.leb_le in Ec.
    intros H Hrc.
    apply (continous_aligned_read_into o d bs ltac:(lia) (zeros bs) 0 count
             offset 0 [] r0) in H;
      try assumption; try lia; try reflexivity; try apply length_zeros.
    + apply Hrs; try lia. apply Z.mod_mul. lia.
    + intros Hne.
      pose proof (next_block_fits offset count bs ((R + 1) * bs)
                    ltac:(lia) ltac:(lia) Eo HRm HRhi Hne).
      apply Hrs; try lia.
      rewrite Z.mod_add by lia. exact Eo.
  - (* read left most block *)
    fold (first_block offset bs). fold L.
    rewrite (to_uint32_id L)
      by (split; [lia|]; apply Z.div_lt_upper_bound; lia).
    rewrite (to_size_t_id (L * bs)) by (unfold in_size_t; lia).
    rewrite (to_off_t_id (L * bs)) by (unfold in_off_t, in_ssize_t; lia).
    rewrite (to_size_t_id (offset - L * bs)) by (unfold in_size_t; lia).
    rewrite (to_uint32_id (offset - L * bs)) by lia.
    set (lb := offset - L * bs) in *.
    rewrite (to_size_t_id (bs - lb)) by (unfold in_size_t; lia).
    rewrite (to_uint32_id (bs - lb)) by lia.
    set (rb := bs - lb) in *.
    assert (Hwl : reads_stored o bs d (L * bs) bs) by (apply Hrs; lia).
    destruct (Hwl (zeros bs) w1 Hd ltac:(rewrite length_zeros; lia))
      as (rc1 & t1 & w2 & -> & Hobj & Hcase).
    destruct Hcase as [[-> ->] | ->];
      [|cbn; intros H Hrc; inversion H; subst; discriminate].
    cbn [Z.ltb Z.compare].
    rewrite blit_same_length by (rewrite length_read_extent, length_zeros; lia).
    unfold memcpy at 1 2. unfold ptr_add at 1 2.
    rewrite skipn_read_extent by lia.
    replace (L * bs + lb) with offset by lia. fold rb.
    destruct (count <=? rb) eqn:Ecr.
    + apply Z.leb_le in Ecr.
      replace (if count <? rb then count else rb) with count
        by (destruct (count <? rb) eqn:E; [|apply Z.ltb_ge in E]; lia).
      rewrite (to_uint32_id count) by lia.
      rewrite firstn_read_extent by lia.
      intros H _. inversion H; subst. reflexivity.
    + apply Z.leb_gt in Ecr.
      replace (if count <? rb then count else rb) with rb
        by (destruct (count <? rb) eqn:E; [apply Z.ltb_lt in E|]; lia).
      rewrite (to_uint32_id rb) by lia.
      rewrite firstn_read_extent by lia.
      rewrite (blit_exact r0) by (rewrite length_read_extent; lia).
      rewrite length_read_extent.
      rewrite (to_size_t_id (count - rb)) by (unfold in_size_t; lia).
      rewrite (to_off_t_id (offset + rb)) by (unfold in_off_t, in_ssize_t; lia).
      assert (Eo : (offset + rb) mod bs = 0).
      { replace (offset + rb) with ((L + 1) * bs) by lia.
        apply Z.mod_mul. lia. }
      pose proof (Z.div_pos (count - rb) bs ltac:(lia) ltac:(lia)) as Hcp'.
      pose proof (Z.mul_div_le (count - rb) bs ltac:(lia)) as Hcm'.
      assert (Hcd' : (count - rb) / bs <= count - rb)
        by (apply div_le_self; lia).
      intros H Hrc.
      apply (continous_aligned_read_into o d bs ltac:(lia)) in H;
        try assumption; try lia; try apply length_zeros;
        try (rewrite length_read_extent; reflexivity).
      * subst r.
        replace (read_extent d offset count)
          with (read_extent d offset rb
                ++ read_extent d (offset + rb) (count - rb))
          by (rewrite <- read_extent_app by lia; f_equal; lia).
        rewrite blit_app by (rewrite !length_read_extent; lia).
        rewrite length_read_extent. reflexivity.
      * rewrite Hobj. exact Hd.
      * apply Hrs; try lia. apply Z.mod_mul. lia.
      * intros Hne.
        pose proof (next_block_fits (offset + rb) (count - rb) bs
                      ((R + 1) * bs) ltac:(lia) ltac:(lia) Eo HRm
                      ltac:(lia) Hne).
        apply Hrs; try lia.
        rewrite Z.mod_add by lia. exact Eo.
      * rewrite length_skipn. lia.
Qed.

(** Over an object whose blocks are uniform, a successful read that
    fits fills the first [count] bytes of the buffer with the stored
    bytes of the range. *)
Lemma pread_into (o : dstore_obj dstore_oid_t) offset count bs r0 w d r w' :
  fits_uint32 offset count bs ->
  count / bs < 2147483648 ->
  objects w (obj_ext o) = Some d ->
  block_uniform d bs ->
  (Z.to_nat count <= length r0)%nat ->
  pread o offset count bs r0 w = (0, r, w') ->
  r = blit r0 (read_extent d offset count).
Proof.
  intros Hfits Hk Hd Hu Hr0.
  pose proof Hfits as (Hbs & Hoff & Hcnt & Hblk & Hfit).
  unfold pread, dstore_pread, __dstore_pread.
  fold (aligned offset count bs).
  destruct (aligned offset count bs) eqn:Ea.
  - unfold aligned in Ea.
    rewrite to_size_t_id in Ea by (unfold in_size_t; lia).
    apply andb_true_iff in Ea. destruct Ea as [Ec Eo].
    apply Z.eqb_eq in Ec, Eo.
    intros Hrd.
    destruct (uniform_reads_stored o bs d offset count ltac:(lia) Hu Hoff Eo
                ltac:(lia) Ec Hk ltac:(lia) r0 w Hd ltac:(lia))
      as (rc & r' & w2 & E & _ & Hc).
    rewrite E in Hrd. inversion Hrd; subst rc r' w2.
    destruct Hc as [[_ ->] | Hne]; [reflexivity | discriminate].
  - intros Hrd.
    pose proof Ea as Hun. unfold aligned in Hun.
    rewrite to_size_t_id in Hun by (unfold in_size_t; lia).
    destruct (unaligned_blocks offset count bs ltac:(lia) Hoff ltac:(lia) Hun)
      as (HL0 & HLR & HLo & HoL & HRlo & HRhi & HRQ).
    assert (HLb : 0 <= first_block offset bs * bs)
      by (apply Z.mul_nonneg_nonneg; lia).
    assert (HRb : last_block offset count bs * bs <= offset + count)
      by (destruct (count =? 0); lia).
    eapply (pread_unaligned_into o offset count bs r0 w d 0 r w' Hfits Ea Hd);
      try eassumption; try reflexivity.
    intros off size Hlo Hhi Hsz Hsize Hom Hsm.
    apply uniform_reads_stored; try assumption; try lia.
    destruct Hsize as [Hle | ->].
    + apply Z.le_lt_trans with (m := count / bs); [|exact Hk].
      apply Z.div_le_mono; lia.
    + rewrite Z.div_same by lia. lia.
Qed.

End StoreReadInto.

(** ** What a write leaves in the object, for every shape of request *)

Module StoreEffect.

Import MemMotr StoreSpec StoreFacts StoreIO StoreHoles StoreWrite StoreRead
       Framing Effects.


(** The left-aligned write that ends inside its first block stores the
    payload followed by zeroes: neither edge is read. *)
Lemma pwrite_unaligned_short (o : dstore_obj dstore_oid_t)
    offset count bs buf w w' d :
  fits_uint32 offset count bs ->
  aligned offset count bs = false ->
  ends_inside_first_block offset count bs = true ->
  (Z.to_nat count <= length buf)%nat ->
  objects w (obj_ext o) = Some d ->
  pwrite_unaligned heap_alloc ops o offset count bs buf w = (0, w') ->
  0 < count < bs
  /\ objects w'
     = fun k =>
         if oid_eqb k (obj_ext o)
         then Some (write_extent d offset bs
                      (firstn (Z.to_nat count) buf
                       ++ skipn (Z.to_nat count) (zeros bs)))
         else objects w k.
Proof.
  intros Hfits Hun Hshape Hbuf Hd.
  rewrite (pwrite_unaligned_as_rmw heap_alloc ops o offset count bs buf w Hfits Hun).
  destruct Hfits as (Hbs & Hoff & Hcnt & Hblk & Hfit).
  unfold aligned in Hun.
  rewrite to_size_t_id in Hun by (unfold in_size_t; nia).
  destruct (unaligned_blocks offset count bs ltac:(lia) Hoff ltac:(lia) Hun)
    as (HL0 & HLR & HLo & HoL & HRlo & HRhi & HRQ).
  destruct (edge_sizes offset count bs ltac:(lia)) as (Hlb & Hte).
  unfold ends_inside_first_block in Hshape.
  apply andb_true_iff in Hshape. destruct Hshape as [Hshape ELR].
  apply andb_true_iff in Hshape. destruct Hshape as [Eo Ee].
  unfold rmw_write. rewrite Eo, Ee, ELR. cbn [negb andb].
  apply Z.eqb_eq in Eo, ELR. apply negb_true_iff, Z.eqb_neq in Ee.
  rewrite <- ELR in *.
  set (L := first_block offset bs) in *.
  assert (HLoff : L * bs = offset) by lia.
  assert (Hc0 : count <> 0).
  { intros ->. apply Ee. rewrite Z.add_0_r. exact Eo. }
  replace (L - L + 1) with 1 by lia. rewrite Z.mul_1_l.
  rewrite HLoff, Z.sub_diag.
  pose proof (heap_alloc_objects w) as Hw1.
  destruct (heap_alloc w) as [[|] w1]; cbn [snd] in Hw1;
    [|intros H; inversion H].
  cbn [Z.ltb Z.compare].
  destruct (skipn_store_memcpy (zeros bs) 0 buf count)
    as (Hlen & _ & Hpay & Hskp); try lia.
  { rewrite length_zeros. lia. }
  set (tmp := ptr_store (zeros bs) 0 (memcpy (ptr_add (zeros bs) 0) buf count))
    in *.
  cbn [Z.to_nat skipn Nat.add] in Hpay, Hskp.
  destruct (pwrite_aligned_spec o tmp bs offset w1)
    as (rc & w4 & -> & Hcases).
  intros H. inversion H; subst rc w4.
  destruct Hcases as [[Hne _] | (_ & d0 & Hd0 & Hobj)]; [contradiction|].
  rewrite Hw1 in Hd0, Hobj. rewrite Hd in Hd0. inversion Hd0; subst d0.
  rewrite length_zeros in Hlen.
  rewrite firstn_all2 in Hobj by lia.
  assert (HL1 : (L + 1) * bs = L * bs + bs) by ring.
  assert (Hcb : count <> bs).
  { intros ->. apply Ee.
    replace (offset + bs) with (offset + 1 * bs) by lia.
    rewrite Z.mod_add by lia. exact Eo. }
  split; [lia|].
  rewrite Hobj.
  rewrite <- (firstn_skipn (Z.to_nat count) tmp), Hpay, Hskp. reflexivity.
Qed.

(** The effect of any successful write that fits, over an object whose
    blocks are uniform. *)
Lemma pwrite_effect (o : dstore_obj dstore_oid_t)
    offset count bs buf w w' d :
  fits_uint32 offset count bs ->
  (Z.to_nat count <= length buf)%nat ->
  objects w (obj_ext o) = Some d ->
  block_uniform d bs ->
  pwrite o offset count bs buf w = (0, w') ->
  exists d',
    objects w' (obj_ext o) = Some d'
    /\ (forall k, oid_eqb k (obj_ext o) = false -> objects w' k = objects w k)
    /\ block_uniform d' bs
    /\ write_effect d d' offset count bs buf.
Proof.
  intros Hfits Hbuf Hd Hu.
  pose proof Hfits as (Hbs & Hoff & Hcnt & Hblk & Hfit).
  unfold pwrite, dstore_pwrite, __dstore_pwrite.
  fold (aligned offset count bs).
  destruct (aligned offset count bs) eqn:Ea.
  - (* aligned: the extent is written as it is *)
    unfold aligned in Ea.
    rewrite to_size_t_id in Ea by (unfold in_size_t; lia).
    apply andb_true_iff in Ea. destruct Ea as [Ec Eo].
    apply Z.eqb_eq in Ec, Eo.
    intros Hwr.
    destruct (pwrite_aligned_spec o buf count offset w)
      as (rc & w1 & E & Hc).
    rewrite E in Hwr. inversion Hwr; subst rc w1.
    destruct Hc as [[Hne _] | (_ & d0 & Hd0 & Hobj)]; [contradiction|].
    rewrite Hd in Hd0. inversion Hd0; subst d0.
    eexists. rewrite Hobj, oid_eqb_refl. split; [reflexivity|].
    split; [intros k Hk; rewrite Hk; reflexivity|].
    split; [apply block_uniform_write; try assumption; lia|].
    repeat split.
    + intros k Hk. rewrite byte_at_write_extent_inside by exact Hk.
      rewrite nth_firstn.
      replace (Z.to_nat (k - offset) <? Z.to_nat count)%nat with true
        by (symmetry; apply Nat.ltb_lt; lia).
      reflexivity.
    + intros k Hk. apply byte_at_write_extent_outside. lia.
    + intros k Hk. left. apply byte_at_write_extent_outside. lia.
  - intros Hwr.
    pose proof Ea as Hun. unfold aligned in Hun.
    rewrite to_size_t_id in Hun by (unfold in_size_t; lia).
    destruct (unaligned_blocks offset count bs ltac:(lia) Hoff ltac:(lia) Hun)
      as (HL0 & HLR & HLo & HoL & HRlo & HRhi & HRQ).
    destruct (ends_inside_first_block offset count bs) eqn:Hshape.
    + (* the payload and zeroes *)
      apply (pwrite_unaligned_short o offset count bs buf w w' d) in Hwr;
        try assumption.
      destruct Hwr as (Hc & Hwr).
      set (mid := firstn (Z.to_nat count) buf) in *.
      assert (Lmid : length mid = Z.to_nat count)
        by (unfold mid; rewrite length_firstn; lia).
      assert (Eo : offset mod bs = 0).
      { unfold ends_inside_first_block in Hshape.
        apply andb_true_iff in Hshape. destruct Hshape as [Hshape _].
        apply andb_true_iff in Hshape. destruct Hshape as [Eo _].
        apply Z.eqb_eq in Eo. exact Eo. }
      eexists. rewrite Hwr, oid_eqb_refl. split; [reflexivity|].
      split; [intros k Hk; rewrite Hk; reflexivity|].
      split.
      { apply block_uniform_write; try assumption; try lia.
        apply Z.mod_same. lia. }
      repeat split.
      * intros k Hk. rewrite byte_at_write_extent_inside by lia.
        rewrite app_nth1 by lia.
        unfold mid. rewrite nth_firstn.
        replace (Z.to_nat (k - offset) <? Z.to_nat count)%nat
          with true by (symmetry; apply Nat.ltb_lt; lia).
        reflexivity.
      * intros k Hk. apply byte_at_write_extent_outside. lia.
      * intros k Hk.
        destruct (Z_lt_le_dec k (offset + bs)) as [H2 | H2];
          [|left; apply byte_at_write_extent_outside; lia].
        right. split; [exact Hshape|].
        rewrite byte_at_write_extent_inside by lia.
        rewrite app_nth2 by lia. rewrite nth_skipn.
        apply nth_repeat.
    + (* read-modify-write of the blocks L..R *)
      apply (pwrite_unaligned_scratch o offset count bs buf w w' d) in Hwr;
        try assumption.
      cbn zeta in Hwr.
      set (L := first_block offset bs) in *.
      set (R := last_block offset count bs) in *.
      assert (HLb : 0 <= L * bs) by (apply Z.mul_nonneg_nonneg; lia).
      assert (HNb : (R - L + 1) * bs = (R + 1) * bs - L * bs) by ring.
      assert (HN0 : 0 <= (R - L + 1) * bs) by (apply Z.mul_nonneg_nonneg; lia).
      set (pre := read_extent d (L * bs) (offset - L * bs)) in *.
      set (mid := firstn (Z.to_nat count) buf) in *.
      set (post := read_extent d (offset + count)
                     ((R + 1) * bs - (offset + count))) in *.
      assert (Lpre : length pre = Z.to_nat (offset - L * bs))
        by apply length_read_extent.
      assert (Lmid : length mid = Z.to_nat count)
        by (unfold mid; rewrite length_firstn; lia).
      assert (Lpost : length post = Z.to_nat ((R + 1) * bs - (offset + count)))
        by apply length_read_extent.
      assert (Hout : forall k, k < offset \/ offset + count <= k ->
                byte_at (write_extent d (L * bs) ((R - L + 1) * bs)
                           (pre ++ mid ++ post)) k = byte_at d k).
      { intros k Hk.
        destruct (Z_lt_le_dec k (L * bs)) as [H1 | H1];
          [apply byte_at_write_extent_outside; lia|].
        destruct (Z_lt_le_dec k ((R + 1) * bs)) as [H2 | H2];
          [|apply byte_at_write_extent_outside; lia].
        rewrite byte_at_write_extent_inside by lia.
        destruct Hk as [Hk | Hk].
        * rewrite app_nth1 by lia. unfold pre.
          rewrite nth_read_extent by lia. f_equal. lia.
        * rewrite app_nth2 by lia. rewrite app_nth2 by lia. unfold post.
          rewrite nth_read_extent by lia. f_equal. lia. }
      eexists. rewrite Hwr, oid_eqb_refl. split; [reflexivity|].
      split; [intros k Hk; rewrite Hk; reflexivity|].
      split.
      { apply block_uniform_write; try assumption; try lia;
          apply Z.mod_mul; lia. }
      repeat split.
      * intros k Hk. rewrite byte_at_write_extent_inside by lia.
        rewrite app_nth2 by lia. rewrite app_nth1 by lia.
        unfold mid. rewrite nth_firstn.
        replace (Z.to_nat (k - L * bs) - length pre <? Z.to_nat count)%nat
          with true by (symmetry; apply Nat.ltb_lt; lia).
        f_equal. lia.
      * intros k Hk. apply Hout. lia.
      * intros k Hk. left. apply Hout. lia.
Qed.

End StoreEffect.

(** ** Shrinking an object *)

Module StoreResize.

Import MemMotr StoreSpec StoreFacts StoreIO StoreWrite Effects StoreEffect.


Section Shrink.

Variable o : dstore_obj dstore_oid_t.
Variable d : Z -> option byte.
Variable w0 : world.
Variables bs new_size old_size : Z.
Hypothesis Hbs : 0 < bs < 4294967296.
Hypothesis Hnew : 0 <= new_size.
Hypothesis Hblk : old_size < 4294967296 * bs.
Hypothesis Hfit : old_size + bs < 9223372036854775808.

Local Abbreviation shrinking := (shrinking o d w0 bs new_size).


Lemma shrink_write_step hi count w w' :
  new_size <= hi -> 0 <= count <= DSAL_MAX_IO_SIZE -> hi + count <= old_size ->
  shrinking w hi ->
  pwrite o hi count bs (zeros DSAL_MAX_IO_SIZE) w = (0, w') ->
  shrinking w' (hi + count).
Proof.
  intros Hhi Hcnt Hold (d1 & Hd1 & Hoth & Hu & Hlow & Hzero) Hwr.
  assert (Hmax : DSAL_MAX_IO_SIZE = 1048576) by reflexivity.
  apply (pwrite_effect o hi count bs _ w w' d1) in Hwr; try assumption.
  - destruct Hwr as (d2 & Hd2 & Hoth2 & Hu2 & Hin & Hbefore & Hafter).
    exists d2. split; [exact Hd2|].
    split; [intros k Hk; rewrite Hoth2 by exact Hk; apply Hoth, Hk|].
    split; [exact Hu2|]. split.
    + intros k Hk. rewrite Hbefore by lia. apply Hlow, Hk.
    + intros k Hk. destruct (Z_lt_le_dec k hi) as [Hlt | Hge].
      * rewrite Hbefore by lia. apply Hzero. lia.
      * rewrite Hin by lia. apply nth_repeat.
  - unfold fits_uint32. lia.
  - rewrite length_zeros. lia.
Qed.

Lemma shrink_loop_zeroes n : forall s w rc index w',
  new_size + Z.of_nat (s + n) * DSAL_MAX_IO_SIZE <= old_size ->
  shrinking w (new_size + Z.of_nat s * DSAL_MAX_IO_SIZE) ->
  shrink_loop heap_alloc ops o new_size bs (zeros DSAL_MAX_IO_SIZE) n
    (Z.of_nat s) w = (rc, index, w') ->
  rc = 0 ->
  index = Z.of_nat (s + n)
  /\ shrinking w' (new_size + Z.of_nat (s + n) * DSAL_MAX_IO_SIZE).
Proof.
  assert (Hmax : DSAL_MAX_IO_SIZE = 1048576) by reflexivity.
  induction n as [|n IH]; intros s w rc index w' Hold Hinv;
    cbn [shrink_loop].
  - intros H _. inversion H; subst. rewrite Nat.add_0_r. auto.
  - assert (Hofs : to_off_t (to_size_t (new_size
                     + to_size_t (Z.of_nat s * DSAL_MAX_IO_SIZE)))
                   = new_size + Z.of_nat s * DSAL_MAX_IO_SIZE).
    { rewrite (to_size_t_id (Z.of_nat s * _)) by (unfold in_size_t; lia).
      rewrite to_size_t_id by (unfold in_size_t; lia).
      apply to_off_t_id. unfold in_off_t, in_ssize_t. lia. }
    rewrite Hofs.
    fold (pwrite o (new_size + Z.of_nat s * DSAL_MAX_IO_SIZE) DSAL_MAX_IO_SIZE
            bs (zeros DSAL_MAX_IO_SIZE) w).
    destruct (pwrite _ _ _ _ _ _) as [rc1 w1] eqn:Ewr.
    destruct (rc1 =? 0) eqn:E; cbn [negb].
    + apply Z.eqb_eq in E. subst rc1.
      apply shrink_write_step in Ewr; try assumption; try lia.
      replace (Z.of_nat s + 1) with (Z.of_nat (S s)) by lia.
      intros H Hrc.
      apply IH in H; try assumption.
      * replace (s + S n)%nat with (S s + n)%nat by lia. exact H.
      * lia.
      * replace (new_size + Z.of_nat (S s) * DSAL_MAX_IO_SIZE)
          with (new_size + Z.of_nat s * DSAL_MAX_IO_SIZE + DSAL_MAX_IO_SIZE)
          by lia.
        exact Ewr.
    + intros H Hrc. inversion H; subst. discriminate.
Qed.

End Shrink.

(** The backend's block size as [dstore_obj_shrink] obtains it. *)
Lemma shrink_bsize (oid : dstore_oid_t) w :
  0 <= bsize w < 9223372036854775808 ->
  to_size_t (dstore_get_bsize ops oid w) = bsize w.
Proof.
  intros H. unfold dstore_get_bsize, __dstore_get_bsize.
  cbn [obj_get_bsize ops cortx_dstore_ops]. unfold cortx_ds_obj_get_bsize.
  cbn [m0store_get_bsize api].
  rewrite (to_ssize_t_id (bsize w)) by (unfold in_ssize_t; lia).
  rewrite (to_size_t_id (bsize w)) by (unfold in_size_t; lia).
  rewrite (to_ssize_t_id (bsize w)) by (unfold in_ssize_t; lia).
  apply to_size_t_id. unfold in_size_t. lia.
Qed.

(** A shrink that succeeds reaches the old size. *)
Lemma resize_shrinking (o : dstore_obj dstore_oid_t) old_size new_size w w' d :
  0 <= new_size < old_size ->
  0 < bsize w < 4294967296 ->
  old_size < 4294967296 * bsize w ->
  old_size + bsize w < 9223372036854775808 ->
  objects w (obj_ext o) = Some d ->
  block_uniform d (bsize w) ->
  resize o old_size new_size w = (0, w') ->
  Effects.shrinking o d w (bsize w) new_size w' old_size.
Proof.
  intros Hsz Hbs Hblk Hfit Hd Hu.
  assert (Hmax : DSAL_MAX_IO_SIZE = 1048576) by reflexivity.
  unfold resize, dstore_obj_resize.
  replace (old_size <=? new_size) with false by (symmetry; apply Z.leb_gt; lia).
  unfold dstore_obj_shrink, calloc.
  rewrite shrink_bsize by lia.
  pose proof (heap_alloc_objects w) as Hw1.
  destruct (heap_alloc w) as [[|] w1]; cbn [snd] in Hw1;
    [|intros H; inversion H].
  change (to_size_t (1 * DSAL_MAX_IO_SIZE)) with DSAL_MAX_IO_SIZE.
  rewrite (to_size_t_id (old_size - new_size)) by (unfold in_size_t; lia).
  rewrite (to_off_t_id new_size) by (unfold in_off_t, in_ssize_t; lia).
  pose proof (Z.div_mod (old_size - new_size) DSAL_MAX_IO_SIZE ltac:(lia)) as Hdm.
  pose proof (Z.mod_pos_bound (old_size - new_size) DSAL_MAX_IO_SIZE ltac:(lia))
    as Hm.
  assert (Hq : 0 <= (old_size - new_size) / DSAL_MAX_IO_SIZE)
    by (apply Z.div_pos; lia).
  set (q := (old_size - new_size) / DSAL_MAX_IO_SIZE) in *.
  set (r := (old_size - new_size) mod DSAL_MAX_IO_SIZE) in *.
  rewrite (to_size_t_id (q * DSAL_MAX_IO_SIZE)) by (unfold in_size_t; lia).
  replace (old_size - new_size - q * DSAL_MAX_IO_SIZE) with r by lia.
  rewrite (to_size_t_id r) by (unfold in_size_t; lia).
  assert (Hinv0 : Effects.shrinking o d w (bsize w) new_size w1
                    (new_size + Z.of_nat 0 * DSAL_MAX_IO_SIZE)).
  { exists d. rewrite Hw1. split; [exact Hd|].
    split; [reflexivity|]. split; [exact Hu|].
    split; [reflexivity | intros k Hk; lia]. }
  destruct (shrink_loop _ _ _ _ _ _ _ _ _) as [[rc index] w2] eqn:El.
  change 0 with (Z.of_nat 0) in El at 1.
  destruct (rc =? 0) eqn:Erc; cbn [negb];
    [|intros H; inversion H; subst; discriminate].
  apply Z.eqb_eq in Erc.
  apply (shrink_loop_zeroes o d w (bsize w) new_size old_size) in El;
    try assumption; try lia.
  destruct El as (-> & Hinv). cbn [Nat.add] in *.
  rewrite Z2Nat.id in * by lia.
  destruct (r =? 0) eqn:Er; cbn [negb].
  - apply Z.eqb_eq in Er. intros H. inversion H; subst w'.
    replace (new_size + q * DSAL_MAX_IO_SIZE) with old_size in Hinv by lia.
    exact Hinv.
  - apply Z.eqb_neq in Er.
    rewrite (to_size_t_id (q * DSAL_MAX_IO_SIZE)) by (unfold in_size_t; lia).
    rewrite to_size_t_id by (unfold in_size_t; lia).
    rewrite to_off_t_id by (unfold in_off_t, in_ssize_t; lia).
    intros Hwr.
    apply (shrink_write_step o d w (bsize w) new_size old_size) in Hwr;
      try assumption; try lia.
    replace (new_size + q * DSAL_MAX_IO_SIZE + r) with old_size in Hwr by lia.
    exact Hwr.
Qed.

Lemma read_extent_zero d a n :
  (forall k, a <= k < a + n -> byte_at d k = x00) ->
  read_extent d a n = zeros n.
Proof.
  intros H. apply nth_ext with (d := x00) (d' := x00).
  - rewrite length_read_extent, length_zeros. reflexivity.
  - intros i Hi. rewrite length_read_extent in Hi.
    rewrite Framing.nth_read_extent by exact Hi.
    rewrite H by lia. symmetry. apply nth_repeat.
Qed.

(** A shrink that succeeds leaves the bytes below the new size as they
    were and makes every byte from the new size up to the old size read
    as zero: a successful read of any part of that range delivers
    zeroes. *)
Theorem resize_shrinks (o : dstore_obj dstore_oid_t) old_size new_size w w' d :
  0 <= new_size < old_size ->
  0 < bsize w < 4294967296 ->
  old_size < 4294967296 * bsize w ->
  old_size + bsize w < 9223372036854775808 ->
  objects w (obj_ext o) = Some d ->
  block_uniform d (bsize w) ->
  resize o old_size new_size w = (0, w') ->
  (exists d',
     objects w' (obj_ext o) = Some d'
     /\ (forall k, oid_eqb k (obj_ext o) = false -> objects w' k = objects w k)
     /\ block_uniform d' (bsize w)
     /\ shrunk_to d d' new_size old_size)
  /\ (forall offset count r0 r w2,
        new_size <= offset -> 0 <= count < 4294967296 ->
        offset + count <= old_size ->
        count / bsize w < 2147483648 ->
        (Z.to_nat count <= length r0)%nat ->
        pread o offset count (bsize w) r0 w' = (0, r, w2) ->
        r = blit r0 (zeros count)).
Proof.
  intros Hsz Hbs Hblk Hfit Hd Hu Hrs.
  destruct (resize_shrinking o old_size new_size w w' d Hsz Hbs Hblk Hfit Hd
              Hu Hrs) as (d' & Hd' & Hoth & Hu' & Hlow & Hzero).
  split.
  - exists d'. repeat split; assumption.
  - intros offset count r0 r w2 Hoff Hcnt Hend Hk Hr0 Hrd.
    rewrite (StoreReadInto.pread_into o offset count (bsize w) r0 w' d' r w2)
      by (try assumption; unfold fits_uint32; lia).
    rewrite read_extent_zero; [reflexivity|].
    intros k Hk'. apply Hzero. lia.
Qed.

End StoreResize.

(** ** Reads and writes composed *)

Module StoreCompose.

Import MemMotr StoreSpec StoreFacts StoreIO StoreWrite StoreRead Framing
       Budget Effects StoreOutcome StoreBudget StoreReadInto StoreEffect.

Lemma nth_blit buf data i :
  (i < length data)%nat -> (length data <= length buf)%nat ->
  nth i (blit buf data) x00 = nth i data x00.
Proof.
  intros Hi Hlen. rewrite blit_exact by exact Hlen.
  apply app_nth1. exact Hi.
Qed.

(** Total correctness of a read: over an existing object whose blocks
    are uniform, a read that fits and finds 21 + 4 * (count / bs)
    allocations returns 0, with the stored bytes of the range (zero for
    the holes) in the first [count] bytes of the buffer and the rest of
    the buffer as it was. *)
Theorem pread_total (o : dstore_obj dstore_oid_t) offset count bs r0 w d :
  fits_uint32 offset count bs ->
  count / bs < 2147483648 ->
  objects w (obj_ext o) = Some d ->
  block_uniform d bs ->
  (Z.to_nat count <= length r0)%nat ->
  (21 + 4 * Z.to_nat (count / bs) <= heap_left w)%nat ->
  exists w',
    pread o offset count bs r0 w
    = (0, blit r0 (read_extent d offset count), w').
Proof.
  intros Hfits Hk Hd Hu Hr0 Hheap.
  pose proof (pread_budget o offset count bs r0 w Hfits Hk) as Hb.
  cbn zeta in Hb.
  destruct (pread o offset count bs r0 w) as [[rc r] w'] eqn:E.
  cbn [fst snd] in Hb. destruct Hb as (_ & Hfail).
  destruct (Z.eq_dec rc 0) as [-> | Hne]; [|specialize (Hfail Hne); lia].
  exists w'.
  rewrite (pread_into o offset count bs r0 w d r w' Hfits Hk Hd Hu Hr0 E).
  reflexivity.
Qed.

(** Read after write, for any two ranges: after a successful write that
    is not a left-aligned write ending inside its first block, a
    successful read delivers, byte by byte, the payload where the ranges
    overlap and the earlier content of the object elsewhere. *)
Theorem pread_after_pwrite (o : dstore_obj dstore_oid_t)
    off1 cnt1 off2 cnt2 bs buf r0 w w1 r w2 d :
  fits_uint32 off1 cnt1 bs ->
  fits_uint32 off2 cnt2 bs ->
  cnt2 / bs < 2147483648 ->
  ends_inside_first_block off1 cnt1 bs = false ->
  (Z.to_nat cnt1 <= length buf)%nat ->
  (Z.to_nat cnt2 <= length r0)%nat ->
  objects w (obj_ext o) = Some d ->
  block_uniform d bs ->
  pwrite o off1 cnt1 bs buf w = (0, w1) ->
  pread o off2 cnt2 bs r0 w1 = (0, r, w2) ->
  forall i, 0 <= i < cnt2 ->
    nth (Z.to_nat i) r x00
    = if (off1 <=? off2 + i) && (off2 + i <? off1 + cnt1)
      then nth (Z.to_nat (off2 + i - off1)) buf x00
      else byte_at d (off2 + i).
Proof.
  intros Hf1 Hf2 Hk Hshape Hbuf Hr0 Hd Hu Hwr Hrd i Hi.
  apply (pwrite_effect o off1 cnt1 bs buf w w1 d) in Hwr; try assumption.
  destruct Hwr as (d1 & Hd1 & _ & Hu1 & Hin & Hbefore & Hafter).
  rewrite (pread_into o off2 cnt2 bs r0 w1 d1 r w2 Hf2 Hk Hd1 Hu1 Hr0 Hrd).
  rewrite nth_blit by (rewrite length_read_extent; lia).
  rewrite nth_read_extent by lia.
  rewrite Z2Nat.id by lia.
  destruct (off1 <=? off2 + i) eqn:E1; cbn [andb].
  - apply Z.leb_le in E1.
    destruct (off2 + i <? off1 + cnt1) eqn:E2.
    + apply Z.ltb_lt in E2. apply Hin. lia.
    + apply Z.ltb_ge in E2.
      destruct (Hafter (off2 + i) E2) as [H | [H _]]; [exact H|].
      rewrite Hshape in H. discriminate.
  - apply Z.leb_gt in E1. apply Hbefore. exact E1.
Qed.

(** Requests of length zero: a successful write of no bytes leaves
    every byte of the object as reads observe it (an unaligned one
    still rewrites the block of its offset), and a successful read of no
    bytes leaves the buffer as it was. *)
Theorem zero_length_io (o : dstore_obj dstore_oid_t) offset bs buf r0 w d :
  fits_uint32 offset 0 bs ->
  objects w (obj_ext o) = Some d ->
  block_uniform d bs ->
  (forall w', pwrite o offset 0 bs buf w = (0, w') ->
     exists d', objects w' (obj_ext o) = Some d'
                /\ forall k, byte_at d' k = byte_at d k)
  /\ (forall r w', pread o offset 0 bs r0 w = (0, r, w') -> r = r0).
Proof.
  intros Hfits Hd Hu.
  pose proof Hfits as (Hbs & Hoff & _).
  split.
  - intros w' Hwr.
    apply (pwrite_effect o offset 0 bs buf w w' d) in Hwr;
      try assumption; [|cbn; lia].
    destruct Hwr as (d' & Hd' & _ & _ & _ & Hbefore & Hafter).
    exists d'. split; [exact Hd'|].
    intros k. destruct (Z_lt_le_dec k offset) as [Hlt | Hge].
    + apply Hbefore, Hlt.
    + destruct (Hafter k ltac:(lia)) as [H | [H _]]; [exact H|].
      unfold ends_inside_first_block in H.
      rewrite Z.add_0_r in H.
      destruct (offset mod bs =? 0); discriminate.
  - intros r w' Hrd.
    rewrite (pread_into o offset 0 bs r0 w d r w' Hfits) by
      (try assumption; try (cbn; lia);
       rewrite Z.div_0_l by lia; lia).
    cbn. apply blit_nil.
Qed.

(** Reading a range of an object nothing was written to yields zeroes. *)
Corollary pread_unwritten_is_zero (o : dstore_obj dstore_oid_t)
    offset count bs r0 w r w' :
  fits_uint32 offset count bs ->
  count / bs < 2147483648 ->
  objects w (obj_ext o) = Some (fun _ => None) ->
  length r0 = Z.to_nat count ->
  pread o offset count bs r0 w = (0, r, w') ->
  r = zeros count.
Proof.
  intros Hfits Hk Hd Hr0 Hrd.
  rewrite (pread_into o offset count bs r0 w _ r w' Hfits Hk Hd)
    by (try assumption; try lia; intros b; right; reflexivity).
  rewrite StoreHoles.read_extent_hole by reflexivity.
  apply blit_same_length. rewrite length_zeros. congruence.
Qed.

End StoreCompose.

(** ** The store stays well formed *)

Module StoreInvariant.

Import MemMotr StoreSpec StoreFacts StoreIO StoreWrite Effects StoreOutcome
       StoreEffect StoreResize.

(** Whatever its outcome, a write that fits keeps the blocks of its
    object uniform and leaves the other objects as they were. *)
Lemma pwrite_keeps_uniform (o : dstore_obj dstore_oid_t)
    offset count bs buf w d :
  fits_uint32 offset count bs ->
  (Z.to_nat count <= length buf)%nat ->
  objects w (obj_ext o) = Some d ->
  block_uniform d bs ->
  exists d',
    objects (snd (pwrite o offset count bs buf w)) (obj_ext o) = Some d'
    /\ block_uniform d' bs
    /\ forall k, oid_eqb k (obj_ext o) = false ->
         objects (snd (pwrite o offset count bs buf w)) k = objects w k.
Proof.
  intros Hfits Hbuf Hd Hu.
  destruct (pwrite o offset count bs buf w) as [rc w'] eqn:E. cbn [snd].
  destruct (Z.eq_dec rc 0) as [-> | Hne].
  - destruct (pwrite_effect o offset count bs buf w w' d Hfits Hbuf Hd Hu E)
      as (d' & Hd' & Hoth & Hu' & _).
    exists d'. auto.
  - assert (Hsame : objects w' = objects w).
    { revert E. unfold pwrite, dstore_pwrite, __dstore_pwrite.
      destruct ((count mod bs =? 0) && (to_size_t offset mod bs =? 0)).
      - pose proof (pwrite_aligned_outcome o buf count offset w) as H.
        cbn zeta in H. destruct H as (_ & H & _).
        intros E. rewrite E in H. apply H. exact Hne.
      - pose proof (pwrite_unaligned_outcome o offset count bs buf w) as H.
        cbn zeta in H. destruct H as (_ & H & _).
        intros E. rewrite E in H. apply H. exact Hne. }
    exists d. rewrite Hsame. auto.
Qed.

Section Shrink.

Variable o : dstore_obj dstore_oid_t.
Variable w0 : world.
Variables bs new_size old_size : Z.
Hypothesis Hbs : 0 < bs < 4294967296.
Hypothesis Hnew : 0 <= new_size.
Hypothesis Hblk : old_size < 4294967296 * bs.
Hypothesis Hfit : old_size + bs < 9223372036854775808.

Lemma shrink_loop_keeps_uniform n : forall s w,
  new_size + Z.of_nat (s + n) * DSAL_MAX_IO_SIZE <= old_size ->
  well_formed o bs w0 w ->
  let r := shrink_loop heap_alloc ops o new_size bs (zeros DSAL_MAX_IO_SIZE) n
             (Z.of_nat s) w in
  well_formed o bs w0 (snd r)
  /\ (fst (fst r) = 0 -> snd (fst r) = Z.of_nat (s + n)).
Proof.
  assert (Hmax : DSAL_MAX_IO_SIZE = 1048576) by reflexivity.
  induction n as [|n IH]; intros s w Hold Hinv; cbn [shrink_loop].
  - cbn. split; [exact Hinv | intros _; f_equal; lia].
  - assert (Hofs : to_off_t (to_size_t (new_size
                     + to_size_t (Z.of_nat s * DSAL_MAX_IO_SIZE)))
                   = new_size + Z.of_nat s * DSAL_MAX_IO_SIZE).
    { rewrite (to_size_t_id (Z.of_nat s * _)) by (unfold in_size_t; lia).
      rewrite to_size_t_id by (unfold in_size_t; lia).
      apply to_off_t_id. unfold in_off_t, in_ssize_t. lia. }
    rewrite Hofs.
    destruct Hinv as (d1 & Hd1 & Hu1 & Hoth1).
    destruct (pwrite_keeps_uniform o
                (new_size + Z.of_nat s * DSAL_MAX_IO_SIZE) DSAL_MAX_IO_SIZE bs
                (zeros DSAL_MAX_IO_SIZE) w d1)
      as (d2 & Hd2 & Hu2 & Hoth2); try assumption.
    { unfold fits_uint32. lia. }
    { rewrite length_zeros. lia. }
    unfold pwrite in Hd2, Hoth2.
    destruct (dstore_pwrite _ _ _ _ _ _ _ _) as [rc w1]. cbn [snd] in *.
    assert (Hinv1 : well_formed o bs w0 w1).
    { exists d2. repeat split; try assumption.
      intros k Hk. rewrite Hoth2 by exact Hk. apply Hoth1, Hk. }
    destruct (rc =? 0) eqn:Erc; cbn [negb];
      [|cbn; split; [exact Hinv1|]; intros ->; discriminate].
    replace (Z.of_nat s + 1) with (Z.of_nat (S s)) by lia.
    destruct (IH (S s) w1 ltac:(lia) Hinv1) as (H2 & Hi).
    split; [exact H2|].
    intros Hrc. rewrite (Hi Hrc). f_equal. lia.
Qed.

End Shrink.

Lemma well_formed_objects (o : dstore_obj dstore_oid_t) bs w0 w w' :
  objects w' = objects w -> well_formed o bs w0 w -> well_formed o bs w0 w'.
Proof.
  intros E (d & Hd & Hu & Hoth). exists d. rewrite E. auto.
Qed.

(** Well-formedness is an invariant of the facade: whatever their
    outcome, [dstore_pwrite], [dstore_pread] and [dstore_obj_resize]
    with the block size of the backend leave the object in existence,
    its blocks uniform, and the other objects as they were. *)
Theorem store_stays_well_formed (o : dstore_obj dstore_oid_t) w0 w
    offset count buf r0 old_size new_size :
  fits_uint32 offset count (bsize w) ->
  (Z.to_nat count <= length buf)%nat ->
  0 <= new_size ->
  0 <= old_size < 4294967296 * bsize w ->
  old_size + bsize w < 9223372036854775808 ->
  well_formed o (bsize w) w0 w ->
  well_formed o (bsize w) w0 (snd (pwrite o offset count (bsize w) buf w))
  /\ well_formed o (bsize w) w0 (snd (pread o offset count (bsize w) r0 w))
  /\ well_formed o (bsize w) w0 (snd (resize o old_size new_size w)).
Proof.
  intros Hfits Hbuf Hnew Hold Hfit Hwf.
  pose proof Hfits as (Hbs & _).
  assert (Hmax : DSAL_MAX_IO_SIZE = 1048576) by reflexivity.
  split; [|split].
  - destruct Hwf as (d & Hd & Hu & Hoth).
    destruct (pwrite_keeps_uniform o offset count (bsize w) buf w d Hfits Hbuf
                Hd Hu) as (d' & Hd' & Hu' & Hoth').
    exists d'. repeat split; try assumption.
    intros k Hk. rewrite Hoth' by exact Hk. apply Hoth, Hk.
  - apply (well_formed_objects o (bsize w) w0 w); [|exact Hwf].
    unfold pread, dstore_pread, __dstore_pread.
    destruct ((count mod bsize w =? 0) && (to_size_t offset mod bsize w =? 0)).
    + apply handle_holes_objects.
    + apply pread_unaligned_outcome.
  - unfold resize, dstore_obj_resize.
    destruct (old_size <=? new_size) eqn:Ele; [exact Hwf|].
    apply Z.leb_gt in Ele.
    unfold dstore_obj_shrink, calloc.
    rewrite shrink_bsize by lia.
    pose proof (heap_alloc_objects w) as Hw1.
    destruct (heap_alloc w) as [[|] w1]; cbn [snd] in Hw1 |- *;
      [|apply (well_formed_objects o (bsize w) w0 w); assumption].
    assert (Hwf1 : well_formed o (bsize w) w0 w1)
      by (apply (well_formed_objects o (bsize w) w0 w); assumption).
    change (to_size_t (1 * DSAL_MAX_IO_SIZE)) with DSAL_MAX_IO_SIZE.
    rewrite (to_size_t_id (old_size - new_size)) by (unfold in_size_t; lia).
    rewrite (to_off_t_id new_size) by (unfold in_off_t, in_ssize_t; lia).
    pose proof (Z.div_mod (old_size - new_size) DSAL_MAX_IO_SIZE ltac:(lia))
      as Hdm.
    pose proof (Z.mod_pos_bound (old_size - new_size) DSAL_MAX_IO_SIZE
                  ltac:(lia)) as Hm.
    assert (Hq : 0 <= (old_size - new_size) / DSAL_MAX_IO_SIZE)
      by (apply Z.div_pos; lia).
    set (q := (old_size - new_size) / DSAL_MAX_IO_SIZE) in *.
    set (r := (old_size - new_size) mod DSAL_MAX_IO_SIZE) in *.
    rewrite (to_size_t_id (q * DSAL_MAX_IO_SIZE)) by (unfold in_size_t; lia).
    replace (old_size - new_size - q * DSAL_MAX_IO_SIZE) with r by lia.
    rewrite (to_size_t_id r) by (unfold in_size_t; lia).
    pose proof (shrink_loop_keeps_uniform o w0 (bsize w) new_size old_size
                  Hbs Hnew ltac:(lia) Hfit (Z.to_nat q) 0 w1) as H1.
    change (Z.of_nat 0) with 0 in H1. cbn zeta in H1.
    destruct (shrink_loop _ _ _ _ _ _ _ _ _) as [[rc index] w2].
    cbn [fst snd Nat.add] in H1. rewrite Z2Nat.id in H1 by lia.
    destruct (H1 ltac:(lia) Hwf1) as (Hwf2 & Hidx).
    destruct (negb (rc =? 0)) eqn:Erc; [exact Hwf2|].
    apply negb_false_iff, Z.eqb_eq in Erc. subst rc.
    rewrite (Hidx eq_refl).
    destruct (negb (r =? 0)) eqn:Er; [|exact Hwf2].
    rewrite (to_size_t_id (q * DSAL_MAX_IO_SIZE)) by (unfold in_size_t; lia).
    rewrite to_size_t_id by (unfold in_size_t; lia).
    rewrite to_off_t_id by (unfold in_off_t, in_ssize_t; lia).
    destruct Hwf2 as (d2 & Hd2 & Hu2 & Hoth2).
    destruct (pwrite_keeps_uniform o (new_size + q * DSAL_MAX_IO_SIZE) r
                (bsize w) (zeros DSAL_MAX_IO_SIZE) w2 d2)
      as (d3 & Hd3 & Hu3 & Hoth3); try assumption.
    { unfold fits_uint32. lia. }
    { rewrite length_zeros. lia. }
    exists d3. repeat split; try assumption.
    intros k Hk. unfold pwrite in Hoth3. rewrite Hoth3 by exact Hk.
    apply Hoth2, Hk.
Qed.

End StoreInvariant.

Module RecorderFacts.

Import Recorder Calls.

Lemma protocol_app live t t' :
  protocol live t = true -> protocol None t' = true ->
  protocol live (t ++ t') = true.
Proof.
  revert live. induction t as [|c t IH]; intros live; cbn [app protocol].
  - destruct live; [discriminate | auto].
  - destruct c; destruct live as [[id' [| | |]]|]; try discriminate;
      try (intros H H'; apply IH; assumption);
      try (intros H H'; apply andb_true_iff in H; destruct H as [-> H];
           cbn [andb]; apply IH; assumption).
    destruct (rc =? 0); intros H H'; apply IH; assumption.
Qed.

Lemma op_calls_app t t' : op_calls (t ++ t') = op_calls t ++ op_calls t'.
Proof.
  induction t as [|c t IH]; cbn [app op_calls]; [reflexivity|].
  destruct c; rewrite ?IH; reflexivity.
Qed.


Lemma proceeds_refl P m : proceeds P m m.
Proof. exists []. rewrite app_nil_r. cbn. auto. Qed.

Lemma proceeds_trans P m1 m2 m3 :
  proceeds P m1 m2 -> proceeds P m2 m3 -> proceeds P m1 m3.
Proof.
  intros (t & -> & Hp & Hf) (t' & -> & Hp' & Hf').
  exists (t ++ t'). rewrite app_assoc. split; [reflexivity|].
  split; [apply protocol_app; assumption|].
  rewrite op_calls_app. apply Forall_app. auto.
Qed.

Lemma proceeds_new_calls P m m' :
  proceeds P m m' ->
  protocol None (new_calls m m') = true
  /\ Forall P (op_calls (new_calls m m')).
Proof.
  intros (t & -> & Hp & Hf). unfold new_calls.
  rewrite skipn_app, Nat.sub_diag, skipn_all. cbn [app skipn]. auto.
Qed.

Lemma proceeds_mono (P Q : m0_obj_opcode * list (Z * Z) -> Prop) m m' :
  (forall op, P op -> Q op) -> proceeds P m m' -> proceeds Q m m'.
Proof.
  intros H (t & -> & Hp & Hf). exists t. repeat split; try assumption.
  eapply Forall_impl; [exact H | exact Hf].
Qed.

Lemma proceeds_quiet P m c :
  match c with c_heap _ | c_alloc _ | c_log _ _ => True | _ => False end ->
  proceeds P m (m ++ [c]).
Proof.
  intros H. exists [c]. split; [reflexivity|].
  destruct c; try contradiction; cbn; auto.
Qed.

(** Ask the oracle for the next answer the evaluation depends on. *)
Ltac ask_oracle orc :=
  match goal with
  | H : (?x =? 0) = _ |- context [?x =? 0] => rewrite H
  | |- context [heap_ok orc ?n] => destruct (heap_ok orc n)
  | |- context [alloc_ok orc ?n] => destruct (alloc_ok orc n)
  | |- context [obj_op_rc orc ?n] =>
      let rc := fresh "rc" in
      let H := fresh in
      remember (obj_op_rc orc n) as rc eqn:H; clear H;
      destruct (rc =? 0) eqn:?
  | |- context [wait_rc orc ?n] =>
      let rc := fresh "rc" in
      let H := fresh in
      remember (wait_rc orc n) as rc eqn:H; clear H;
      destruct (rc =? 0) eqn:?
  end.

(** The calls were evaluated: exhibit them and run the monitor. *)
Ltac show_calls HP :=
  unfold proceeds; rewrite <- ?app_assoc;
  eexists; (split; [reflexivity|]); cbn;
  repeat match goal with H : (?x =? 0) = _ |- _ => rewrite H end;
  cbn; rewrite ?Nat.eqb_refl; (split; [reflexivity|]);
  repeat constructor; exact HP.

Section Calls.

Variable orc : oracle.
Variable P : m0_obj_opcode * list (Z * Z) -> Prop.

Lemma pread_aligned_proceeds (o : dstore_obj dstore_oid_t) buf size off m :
  P (M0_OC_READ, [(off, size)]) ->
  proceeds P m (snd (pread_aligned (heap_alloc orc) (ops orc) o buf size off m)).
Proof.
  intros HP.
  unfold pread_aligned, dstore_io_buf_init, dstore_io_buf2vec,
    dstore_io_op_read, dstore_io_op_init_and_submit, dstore_io_op_wait,
    dstore_io_op_fini.
  repeat (cbn; ask_oracle orc).
  all: cbn; show_calls HP.
Qed.

Lemma pwrite_aligned_proceeds (o : dstore_obj dstore_oid_t) buf size off m :
  P (M0_OC_WRITE, [(off, size)]) ->
  proceeds P m (snd (pwrite_aligned (heap_alloc orc) (ops orc) o buf size off m)).
Proof.
  intros HP.
  unfold pwrite_aligned, dstore_io_buf_init, dstore_io_buf2vec,
    dstore_io_op_write, dstore_io_op_init_and_submit, dstore_io_op_wait,
    dstore_io_op_fini.
  repeat (cbn; ask_oracle orc).
  all: cbn; show_calls HP.
Qed.


Lemma reread_blocks_proceeds (o : dstore_obj dstore_oid_t) bs off n :
  forall i buf m,
    (forall j, i <= j < i + Z.of_nat n ->
       P (M0_OC_READ,
          [(to_off_t (to_size_t (off + to_size_t (j * bs))), bs)])) ->
    proceeds P m
      (snd (reread_blocks (heap_alloc orc) (ops orc) o bs off n i buf m)).
Proof.
  induction n as [|n IH]; intros i buf m HP; cbn [reread_blocks].
  - apply proceeds_refl.
  - pose proof (pread_aligned_proceeds o (ptr_add buf (to_size_t (i * bs))) bs
                  (to_off_t (to_size_t (off + to_size_t (i * bs)))) m
                  (HP i ltac:(lia))) as H1.
    destruct (pread_aligned _ _ _ _ _ _ _) as [[rc blk] m1].
    cbn [snd] in H1.
    destruct (rc =? 0);
      [eapply proceeds_trans; [exact H1 | apply IH; intros j Hj; apply HP; lia]|].
    destruct (rc =? - ENOENT);
      [eapply proceeds_trans; [exact H1 | apply IH; intros j Hj; apply HP; lia]|].
    exact H1.
Qed.

Lemma handle_holes_proceeds (o : dstore_obj dstore_oid_t) buf size off bs m :
  reads_ok P off size bs ->
  proceeds P m
    (snd (pread_aligned_handle_holes (heap_alloc orc) (ops orc) o buf size
            off bs m)).
Proof.
  intros (HP & Hblk). unfold pread_aligned_handle_holes.
  pose proof (pread_aligned_proceeds o buf size off m HP) as H1.
  destruct (pread_aligned _ _ _ _ _ _ _) as [[rc buf'] m1]. cbn [snd] in H1.
  destruct (rc =? - ENOENT); [|exact H1].
  eapply proceeds_trans; [exact H1|].
  apply reread_blocks_proceeds. intros j Hj. apply Hblk. lia.
Qed.

Lemma read_right_most_proceeds (o : dstore_obj dstore_oid_t) bs tmpbuf rc
    count offset buf_pos buf m :
  (count <> 0 -> reads_ok P offset bs bs) ->
  proceeds P m
    (snd (read_right_most (heap_alloc orc) (ops orc) o bs tmpbuf rc count
            offset buf_pos buf m)).
Proof.
  intros HP. unfold read_right_most.
  destruct (count =? 0) eqn:E; [apply proceeds_refl|].
  apply Z.eqb_neq in E.
  pose proof (handle_holes_proceeds o tmpbuf bs offset bs m (HP E)) as H1.
  destruct (pread_aligned_handle_holes _ _ _ _ _ _ _ _) as [[rc1 t1] m1].
  cbn [snd] in H1. destruct (rc1 <? 0); exact H1.
Qed.

Lemma continous_aligned_read_proceeds (o : dstore_obj dstore_oid_t) bs tmpbuf
    rc count offset buf_pos buf m :
  let c := to_uint32 (count / bs) in
  (0 < c -> reads_ok P offset (to_size_t (c * bs)) bs) ->
  (0 < c -> to_size_t (count - to_size_t (c * bs)) <> 0 ->
   reads_ok P (to_off_t (to_size_t (offset + to_size_t (c * bs)))) bs bs) ->
  (c <= 0 -> count <> 0 -> reads_ok P offset bs bs) ->
  proceeds P m
    (snd (continous_aligned_read (heap_alloc orc) (ops orc) o bs tmpbuf rc
            count offset buf_pos buf m)).
Proof.
  intros c Hrun Htail Honly. unfold continous_aligned_read. fold c.
  destruct (0 <? c) eqn:Ec.
  - apply Z.ltb_lt in Ec.
    match goal with |- context [pread_aligned_handle_holes _ _ _ ?b ?s ?f bs m] =>
      pose proof (handle_holes_proceeds o b s f bs m (Hrun Ec)) as H1 end.
    destruct (pread_aligned_handle_holes _ _ _ _ _ _ _ _) as [[rc1 run] m1].
    cbn [snd] in H1. destruct (rc1 <? 0); [exact H1|].
    eapply proceeds_trans; [exact H1|].
    apply read_right_most_proceeds. apply Htail, Ec.
  - apply Z.ltb_ge in Ec.
    apply read_right_most_proceeds. apply Honly, Ec.
Qed.

End Calls.

End RecorderFacts.

Module RecorderProtocol.

Import Recorder Calls RecorderFacts.

Section Protocol.

Variable orc : oracle.

Local Abbreviation any := (fun _ : m0_obj_opcode * list (Z * Z) => True).

Lemma reads_ok_any off size bs : reads_ok any off size bs.
Proof. split; [exact I | intros; exact I]. Qed.

Lemma heap_alloc_proceeds P m : proceeds P m (snd (heap_alloc orc m)).
Proof. apply proceeds_quiet. exact I. Qed.

Lemma pwrite_unaligned_protocol (o : dstore_obj dstore_oid_t)
    offset count bs buf m :
  proceeds any m
    (snd (pwrite_unaligned (heap_alloc orc) (ops orc) o offset count bs buf m)).
Proof.
  unfold pwrite_unaligned, calloc.
  pose proof (heap_alloc_proceeds any m) as H0.
  destruct (heap_alloc orc m) as [[|] m1]; cbn [snd] in *; [|exact H0].
  match goal with
  | |- context [if ?c then pread_aligned_handle_holes _ _ _ ?b ?s ?f ?bs m1
                else _] =>
      pose proof (handle_holes_proceeds orc any o b s f bs m1
                    (reads_ok_any _ _ _)) as H1;
      destruct c
  end.
  - destruct (pread_aligned_handle_holes _ _ _ _ _ _ _ _) as [[rc1 t1] m2].
    cbn [snd] in H1.
    assert (H01 : proceeds any m m2) by (eapply proceeds_trans; eassumption).
    clear H0 H1.
    destruct (rc1 <? 0); [exact H01|].
    match goal with
    | |- context [if ?c then _ else (rc1, t1, m2)] => destruct c
    end.
    + match goal with
      | |- context [pread_aligned_handle_holes _ _ _ ?b ?s ?f ?bs m2] =>
          pose proof (handle_holes_proceeds orc any o b s f bs m2
                        (reads_ok_any _ _ _)) as H2
      end.
      destruct (pread_aligned_handle_holes _ _ _ _ _ _ _ _) as [[rc2 blk] m3].
      cbn [snd] in H2.
      assert (H02 : proceeds any m m3) by (eapply proceeds_trans; eassumption).
      destruct (rc2 <? 0); [exact H02|].
      eapply proceeds_trans; [exact H02|].
      apply pwrite_aligned_proceeds. exact I.
    + destruct (rc1 <? 0); [exact H01|].
      eapply proceeds_trans; [exact H01|].
      apply pwrite_aligned_proceeds. exact I.
  - clear H1. cbn [Z.ltb Z.compare].
    match goal with
    | |- context [if ?c then _ else (0, ?t, m1)] => destruct c
    end.
    + match goal with
      | |- context [pread_aligned_handle_holes _ _ _ ?b ?s ?f ?bs m1] =>
          pose proof (handle_holes_proceeds orc any o b s f bs m1
                        (reads_ok_any _ _ _)) as H2
      end.
      destruct (pread_aligned_handle_holes _ _ _ _ _ _ _ _) as [[rc2 blk] m3].
      cbn [snd] in H2.
      assert (H02 : proceeds any m m3) by (eapply proceeds_trans; eassumption).
      destruct (rc2 <? 0); [exact H02|].
      eapply proceeds_trans; [exact H02|].
      apply pwrite_aligned_proceeds. exact I.
    + cbn [Z.ltb Z.compare].
      eapply proceeds_trans; [exact H0|].
      apply pwrite_aligned_proceeds. exact I.
Qed.

Lemma pread_unaligned_reads (P : m0_obj_opcode * list (Z * Z) -> Prop)
    (o : dstore_obj dstore_oid_t) offset count bs buf m :
  (forall off size, reads_ok P off size bs) ->
  proceeds P m
    (snd (pread_unaligned (heap_alloc orc) (ops orc) o offset count bs buf m)).
Proof.
  intros HP.
  unfold pread_unaligned, calloc.
  pose proof (heap_alloc_proceeds P m) as H0.
  destruct (heap_alloc orc m) as [[|] m1]; cbn [snd] in *; [|exact H0].
  destruct ((to_size_t offset mod bs =? 0) && (bs <=? count)).
  - eapply proceeds_trans; [exact H0|].
    apply continous_aligned_read_proceeds; intros; apply HP.
  - match goal with
    | |- context [pread_aligned_handle_holes _ _ _ ?b ?s ?f ?bs m1] =>
        pose proof (handle_holes_proceeds orc P o b s f bs m1 (HP _ _)) as H1
    end.
    destruct (pread_aligned_handle_holes _ _ _ _ _ _ _ _) as [[rc1 t1] m2].
    cbn [snd] in H1.
    assert (H01 : proceeds P m m2) by (eapply proceeds_trans; eassumption).
    destruct (rc1 <? 0); [exact H01|].
    match goal with |- context [if ?c then _ else _] => destruct c end;
      [exact H01|].
    eapply proceeds_trans; [exact H01|].
    apply continous_aligned_read_proceeds; intros; apply HP.
Qed.

Lemma pwrite_protocol (o : dstore_obj dstore_oid_t) offset count bs buf m :
  proceeds any m (snd (pwrite orc o offset count bs buf m)).
Proof.
  unfold pwrite, dstore_pwrite, __dstore_pwrite.
  destruct ((count mod bs =? 0) && (to_size_t offset mod bs =? 0)).
  - apply pwrite_aligned_proceeds. exact I.
  - apply pwrite_unaligned_protocol.
Qed.

Lemma pread_reads (P : m0_obj_opcode * list (Z * Z) -> Prop)
    (o : dstore_obj dstore_oid_t) offset count bs buf m :
  (forall off size, reads_ok P off size bs) ->
  proceeds P m (snd (pread orc o offset count bs buf m)).
Proof.
  intros HP. unfold pread, dstore_pread, __dstore_pread.
  destruct ((count mod bs =? 0) && (to_size_t offset mod bs =? 0)).
  - apply handle_holes_proceeds, HP.
  - apply pread_unaligned_reads, HP.
Qed.

Lemma shrink_loop_protocol (o : dstore_obj dstore_oid_t) offset bsize buf n :
  forall index m,
    proceeds any m
      (snd (shrink_loop (heap_alloc orc) (ops orc) o offset bsize buf n
              index m)).
Proof.
  induction n as [|n IH]; intros index m; cbn [shrink_loop].
  - apply proceeds_refl.
  - match goal with
    | |- context [dstore_pwrite _ _ _ ?f ?c ?b ?bf m] =>
        pose proof (pwrite_protocol o f c b bf m) as H1;
        unfold pwrite in H1
    end.
    destruct (dstore_pwrite _ _ _ _ _ _ _ _) as [rc m1]. cbn [snd] in H1.
    destruct (negb (rc =? 0)); [exact H1|].
    eapply proceeds_trans; [exact H1 | apply IH].
Qed.

Lemma resize_protocol (o : dstore_obj dstore_oid_t) old_size new_size m :
  proceeds any m
    (snd (dstore_obj_resize (heap_alloc orc) (ops orc) o old_size new_size m)).
Proof.
  unfold dstore_obj_resize.
  destruct (old_size <=? new_size); [apply proceeds_refl|].
  unfold dstore_obj_shrink, calloc.
  pose proof (heap_alloc_proceeds any m) as H0.
  destruct (heap_alloc orc m) as [[|] m1]; cbn [snd] in *; [|exact H0].
  match goal with
  | |- context [shrink_loop _ _ _ ?f ?b ?bf ?n ?i m1] =>
      pose proof (shrink_loop_protocol o f b bf n i m1) as H1
  end.
  destruct (shrink_loop _ _ _ _ _ _ _ _ _) as [[rc index] m2].
  cbn [snd] in H1.
  assert (H01 : proceeds any m m2) by (eapply proceeds_trans; eassumption).
  destruct (negb (rc =? 0)); [exact H01|].
  match goal with |- context [if ?c then _ else _] => destruct c end;
    [|exact H01].
  eapply proceeds_trans; [exact H01|].
  match goal with
  | |- context [dstore_pwrite _ _ _ ?f ?c ?b ?bf m2] =>
      exact (pwrite_protocol o f c b bf m2)
  end.
Qed.

(** Whatever Motr answers, the calls of [dstore_pwrite], of
    [dstore_pread] and of [dstore_obj_resize] follow the protocol of
    Motr operations: every operation that was created is launched,
    waited for, finalised and freed, in this order, before the next one
    is created, and none is left when the call returns. *)
Theorem io_follows_op_protocol (o : dstore_obj dstore_oid_t)
    offset count bs buf old_size new_size m :
  protocol None (new_calls m (snd (pwrite orc o offset count bs buf m))) = true
  /\ protocol None (new_calls m (snd (pread orc o offset count bs buf m)))
     = true
  /\ protocol None (new_calls m (snd (resize orc o old_size new_size m)))
     = true.
Proof.
  split; [|split].
  - apply (proceeds_new_calls any), pwrite_protocol.
  - apply (proceeds_new_calls any), pread_reads. intros. apply reads_ok_any.
  - apply (proceeds_new_calls any), resize_protocol.
Qed.

End Protocol.

End RecorderProtocol.

Module RecorderExtents.

Import Recorder Calls RecorderFacts RecorderProtocol.


Lemma to_int_le x : 0 <= x < 4294967296 -> to_int x <= x.
Proof.
  intros H. unfold to_int.
  destruct (Z_lt_le_dec x 2147483648) as [Hlt | Hge].
  - rewrite Z.mod_small by lia. lia.
  - replace (x + 2147483648) with (x - 2147483648 + 1 * 4294967296) by lia.
    rewrite Z.mod_add by lia. rewrite Z.mod_small by lia. lia.
Qed.

Lemma block_extents_one bs off size :
  off mod bs = 0 -> size mod bs = 0 -> block_extents bs [(off, size)] = true.
Proof.
  intros Ho Hs. unfold block_extents. cbn. rewrite Ho, Hs. reflexivity.
Qed.

Lemma reads_ok_block bs off size :
  0 < bs -> 0 <= off -> off mod bs = 0 ->
  0 <= size -> size mod bs = 0 -> size / bs < 4294967296 ->
  off + size < 9223372036854775808 ->
  reads_ok (block_read bs) off size bs.
Proof.
  intros Hbs Hoff Hom Hsz Hsm Hk Hfit.
  pose proof (Z.div_mod size bs ltac:(lia)) as D. rewrite Hsm in D.
  pose proof (Z.div_pos size bs Hsz Hbs) as Hp.
  pose proof (to_int_le (size / bs) ltac:(lia)) as Hle.
  split.
  - split; [reflexivity | apply block_extents_one; assumption].
  - intros i Hi. split; [reflexivity|].
    assert (Hib : 0 <= i * bs) by (apply Z.mul_nonneg_nonneg; lia).
    assert (Hib2 : i * bs + bs <= size / bs * bs).
    { replace (i * bs + bs) with ((i + 1) * bs) by ring.
      apply Z.mul_le_mono_nonneg_r; lia. }
    rewrite (to_size_t_id (i * bs)) by (unfold in_size_t; lia).
    rewrite to_size_t_id by (unfold in_size_t; lia).
    rewrite to_off_t_id by (unfold in_off_t, in_ssize_t; lia).
    apply block_extents_one; [|apply Z.mod_same; lia].
    rewrite Z.mod_add by lia. exact Hom.
Qed.

Lemma reads_ok_io bs off size :
  reads_ok (block_read bs) off size bs -> reads_ok (block_io bs) off size bs.
Proof.
  intros (H1 & H2). split.
  - destruct H1 as [E H]. split; [left; exact E | exact H].
  - intros i Hi. destruct (H2 i Hi) as [E H]. split; [left; exact E | exact H].
Qed.

Section Extents.

Variable orc : oracle.

(** Within 32-bit block numbers every operation [dstore_pwrite] asks of
    Motr is a READ or a WRITE of whole blocks. *)
Lemma pwrite_block_io (o : dstore_obj dstore_oid_t) offset count bs buf m :
  fits_uint32 offset count bs ->
  proceeds (block_io bs) m (snd (pwrite orc o offset count bs buf m)).
Proof.
  intros Hfits.
  pose proof Hfits as (Hbs & Hoff & Hcnt & Hblk & Hfit).
  unfold pwrite, dstore_pwrite, __dstore_pwrite.
  fold (aligned offset count bs).
  destruct (aligned offset count bs) eqn:Ea.
  - unfold aligned in Ea.
    rewrite to_size_t_id in Ea by (unfold in_size_t; lia).
    apply andb_true_iff in Ea. destruct Ea as [Ec Eo].
    apply Z.eqb_eq in Ec, Eo.
    apply pwrite_aligned_proceeds.
    split; [right; reflexivity | apply block_extents_one; assumption].
  - rewrite (pwrite_unaligned_as_rmw (heap_alloc orc) (ops orc) o offset count bs
               buf m Hfits Ea).
    pose proof Ea as Hun. unfold aligned in Hun.
    rewrite to_size_t_id in Hun by (unfold in_size_t; lia).
    destruct (unaligned_blocks offset count bs ltac:(lia) Hoff ltac:(lia) Hun)
      as (HL0 & HLR & HLo & HoL & HRlo & HRhi & HRQ).
    unfold rmw_write.
    set (L := first_block offset bs) in *.
    set (R := last_block offset count bs) in *.
    assert (HLb : 0 <= L * bs) by (apply Z.mul_nonneg_nonneg; lia).
    assert (HRb : R * bs <= offset + count) by (destruct (count =? 0); lia).
    assert (HRb0 : L * bs <= R * bs) by (apply Z.mul_le_mono_nonneg_r; lia).
    assert (Hblock : forall b, L <= b <= R ->
              reads_ok (block_io bs) (b * bs) bs bs).
    { intros b Hb. apply reads_ok_io.
      assert (0 <= b * bs) by (apply Z.mul_nonneg_nonneg; lia).
      assert (b * bs <= R * bs) by (apply Z.mul_le_mono_nonneg_r; lia).
      apply reads_ok_block; try lia.
      - apply Z.mod_mul. lia.
      - apply Z.mod_same. lia.
      - rewrite Z.div_same by lia. lia. }
    assert (Hwrite : forall t m3,
              proceeds (block_io bs) m3
                (snd (pwrite_aligned (heap_alloc orc) (ops orc) o t
                        ((R - L + 1) * bs) (L * bs) m3))).
    { intros t m3. apply pwrite_aligned_proceeds.
      split; [right; reflexivity|].
      apply block_extents_one; apply Z.mod_mul; lia. }
    pose proof (heap_alloc_proceeds orc (block_io bs) m) as H0.
    destruct (heap_alloc orc m) as [[|] m1]; cbn [snd] in *; [|exact H0].
    destruct (negb (offset mod bs =? 0)).
    + pose proof (handle_holes_proceeds orc (block_io bs) o
                    (zeros ((R - L + 1) * bs)) bs (L * bs) bs m1
                    (Hblock L ltac:(lia))) as H1.
      destruct (pread_aligned_handle_holes _ _ _ _ _ _ _ _) as [[rc1 t1] m2].
      cbn [snd] in H1.
      assert (H01 : proceeds (block_io bs) m m2)
        by (eapply proceeds_trans; eassumption).
      destruct (rc1 <? 0); [exact H01|].
      destruct (negb ((offset + count) mod bs =? 0) && negb (L =? R)).
      * pose proof (handle_holes_proceeds orc (block_io bs) o
                      (ptr_add t1 ((R - L + 1 - 1) * bs)) bs (R * bs) bs m2
                      (Hblock R ltac:(lia))) as H2.
        destruct (pread_aligned_handle_holes _ _ _ _ _ _ _ _) as [[rc2 blk] m3].
        cbn [snd] in H2.
        assert (H02 : proceeds (block_io bs) m m3)
          by (eapply proceeds_trans; eassumption).
        destruct (rc2 <? 0); [exact H02|].
        eapply proceeds_trans; [exact H02 | apply Hwrite].
      * destruct (rc1 <? 0); [exact H01|].
        eapply proceeds_trans; [exact H01 | apply Hwrite].
    + cbn [Z.ltb Z.compare].
      destruct (negb ((offset + count) mod bs =? 0) && negb (L =? R)).
      * pose proof (handle_holes_proceeds orc (block_io bs) o
                      (ptr_add (zeros ((R - L + 1) * bs)) ((R - L + 1 - 1) * bs))
                      bs (R * bs) bs m1 (Hblock R ltac:(lia))) as H2.
        destruct (pread_aligned_handle_holes _ _ _ _ _ _ _ _) as [[rc2 blk] m3].
        cbn [snd] in H2.
        assert (H02 : proceeds (block_io bs) m m3)
          by (eapply proceeds_trans; eassumption).
        destruct (rc2 <? 0); [exact H02|].
        eapply proceeds_trans; [exact H02 | apply Hwrite].
      * cbn [Z.ltb Z.compare].
        eapply proceeds_trans; [exact H0 | apply Hwrite].
Qed.

(** Within 32-bit block numbers every operation [dstore_pread] asks of
    Motr is a READ of whole blocks. *)
Lemma pread_block_read (o : dstore_obj dstore_oid_t) offset count bs buf m :
  fits_uint32 offset count bs ->
  proceeds (block_read bs) m (snd (pread orc o offset count bs buf m)).
Proof.
  intros Hfits.
  pose proof Hfits as (Hbs & Hoff & Hcnt & Hblk & Hfit).
  assert (Hdiv : forall c, 0 <= c <= count -> c / bs < 4294967296).
  { intros c Hc. apply Z.div_lt_upper_bound; [lia|]. nia. }
  unfold pread, dstore_pread, __dstore_pread.
  fold (aligned offset count bs).
  destruct (aligned offset count bs) eqn:Ea.
  - unfold aligned in Ea.
    rewrite to_size_t_id in Ea by (unfold in_size_t; lia).
    apply andb_true_iff in Ea. destruct Ea as [Ec Eo].
    apply Z.eqb_eq in Ec, Eo.
    apply handle_holes_proceeds.
    apply reads_ok_block; try assumption; try lia. apply Hdiv. lia.
  - pose proof Ea as Hun. unfold aligned in Hun.
    rewrite to_size_t_id in Hun by (unfold in_size_t; lia).
    destruct (unaligned_blocks offset count bs ltac:(lia) Hoff ltac:(lia) Hun)
      as (HL0 & HLR & HLo & HoL & HRlo & HRhi & HRQ).
    set (L := first_block offset bs) in *.
    set (R := last_block offset count bs) in *.
    assert (HLb : 0 <= L * bs) by (apply Z.mul_nonneg_nonneg; lia).
    assert (HL1 : (L + 1) * bs = L * bs + bs) by ring.
    assert (HRm : ((R + 1) * bs) mod bs = 0) by (apply Z.mod_mul; lia).
    assert (Hbm : bs mod bs = 0) by (apply Z.mod_same; lia).
    assert (HRb : R * bs <= offset + count) by (destruct (count =? 0); lia).
    assert (HR1 : (R + 1) * bs = R * bs + bs) by ring.
    assert (Hbd : bs / bs < 4294967296) by (rewrite Z.div_same by lia; lia).
    (* the aligned run and the right-most block, from an aligned [a] *)
    assert (Hcont : forall t rc c a p b m1,
              0 <= c <= count -> 0 <= a -> a mod bs = 0 ->
              a + c <= (R + 1) * bs ->
              proceeds (block_read bs) m1
                (snd (continous_aligned_read (heap_alloc orc) (ops orc) o bs t
                        rc c a p b m1))).
    { intros t rc c a p b m1 Hc Ha Ham Hhi.
      pose proof (Z.div_pos c bs ltac:(lia) ltac:(lia)) as Hcp.
      pose proof (Z.mul_div_le c bs ltac:(lia)) as Hcm.
      pose proof (Z.div_mod c bs ltac:(lia)) as Dc.
      pose proof (Z.mod_pos_bound c bs ltac:(lia)) as Bc.
      pose proof (Hdiv c Hc) as Hc32.
      assert (Hcb : 0 <= c / bs * bs) by (apply Z.mul_nonneg_nonneg; lia).
      apply continous_aligned_read_proceeds; cbn zeta;
        rewrite (to_uint32_id (c / bs)) by lia;
        rewrite ?(to_size_t_id (c / bs * bs)) by (unfold in_size_t; lia).
      - intros _. apply reads_ok_block; try lia.
        + apply Z.mod_mul. lia.
        + rewrite Z.div_mul by lia. lia.
      - intros _.
        rewrite (to_size_t_id (c - c / bs * bs)) by (unfold in_size_t; lia).
        intros Hne.
        rewrite (to_size_t_id (a + c / bs * bs)) by (unfold in_size_t; lia).
        rewrite to_off_t_id by (unfold in_off_t, in_ssize_t; lia).
        pose proof (StoreRead.next_block_fits a c bs ((R + 1) * bs) ltac:(lia) ltac:(lia)
                      Ham HRm Hhi ltac:(lia)).
        apply reads_ok_block; try lia.
        rewrite Z.mod_add by lia. exact Ham.
      - intros Hc0 Hne.
        assert (c / bs = 0) by lia.
        pose proof (StoreRead.next_block_fits a c bs ((R + 1) * bs) ltac:(lia) ltac:(lia)
                      Ham HRm Hhi ltac:(lia)).
        apply reads_ok_block; try lia. }
    unfold pread_unaligned, calloc.
    pose proof (heap_alloc_proceeds orc (block_read bs) m) as H0.
    destruct (heap_alloc orc m) as [[|] m1]; cbn [snd] in *; [|exact H0].
    rewrite (to_size_t_id offset) by (unfold in_size_t; lia).
    destruct ((offset mod bs =? 0) && (bs <=? count)) eqn:Ebr.
    + apply andb_true_iff in Ebr. destruct Ebr as [Eo Ec].
      apply Z.eqb_eq in Eo.
      eapply proceeds_trans; [exact H0|].
      apply Hcont; lia.
    + fold (first_block offset bs). fold L.
      rewrite (to_uint32_id L)
        by (split; [lia|]; apply Z.div_lt_upper_bound; lia).
      rewrite (to_size_t_id (L * bs)) by (unfold in_size_t; lia).
      rewrite (to_off_t_id (L * bs)) by (unfold in_off_t, in_ssize_t; lia).
      rewrite (to_size_t_id (offset - L * bs)) by (unfold in_size_t; lia).
      rewrite (to_uint32_id (offset - L * bs)) by lia.
      set (lb := offset - L * bs) in *.
      rewrite (to_size_t_id (bs - lb)) by (unfold in_size_t; lia).
      rewrite (to_uint32_id (bs - lb)) by lia.
      set (rb := bs - lb) in *.
      match goal with
      | |- context [pread_aligned_handle_holes _ _ _ ?b ?s ?f bs m1] =>
          pose proof (handle_holes_proceeds orc (block_read bs) o b s f bs m1)
            as H1
      end.
      destruct (pread_aligned_handle_holes _ _ _ _ _ _ _ _) as [[rc1 t1] m2].
      cbn [snd] in H1.
      assert (H01 : proceeds (block_read bs) m m2).
      { eapply proceeds_trans; [exact H0 | apply H1].
        apply reads_ok_block; try lia. apply Z.mod_mul. lia. }
      destruct (rc1 <? 0); [exact H01|].
      destruct (count <=? rb) eqn:Ecr; [exact H01|].
      apply Z.leb_gt in Ecr.
      replace (if count <? rb then count else rb) with rb
        by (destruct (count <? rb) eqn:E; [apply Z.ltb_lt in E|]; lia).
      rewrite (to_uint32_id rb) by lia.
      rewrite (to_size_t_id (count - rb)) by (unfold in_size_t; lia).
      rewrite (to_off_t_id (offset + rb)) by (unfold in_off_t, in_ssize_t; lia).
      eapply proceeds_trans; [exact H01|].
      apply Hcont; try lia.
      replace (offset + rb) with ((L + 1) * bs) by lia.
      apply Z.mod_mul. lia.
Qed.

(** Motr is asked for whole blocks only: within 32-bit block numbers
    every operation that [dstore_pwrite] creates is a READ or a WRITE,
    every operation that [dstore_pread] creates is a READ, and each of
    their extents starts at a multiple of the block size and is a
    multiple of the block size long, whatever the alignment of the
    request and whatever Motr answers. *)
Theorem motr_sees_whole_blocks (o : dstore_obj dstore_oid_t)
    offset count bs buf m :
  fits_uint32 offset count bs ->
  Forall (block_io bs)
    (op_calls (new_calls m (snd (pwrite orc o offset count bs buf m))))
  /\ Forall (block_read bs)
       (op_calls (new_calls m (snd (pread orc o offset count bs buf m)))).
Proof.
  intros Hfits. split.
  - apply proceeds_new_calls, pwrite_block_io, Hfits.
  - apply proceeds_new_calls, pread_block_read, Hfits.
Qed.

End Extents.

End RecorderExtents.

Module RecorderWrites.

Import Recorder Calls RecorderFacts RecorderProtocol RecorderExtents.


Section Writes.

Variable orc : oracle.

Lemma reads_ok_read off size bs : reads_ok is_read off size bs.
Proof. split; [reflexivity | intros; reflexivity]. Qed.

(** The operations of a call that returned [rc]: reads, then one write,
    or reads only and a non-zero [rc]. *)
Local Abbreviation wrote_or_failed := (fun (rc : Z) ops =>
  exists reads tail,
    ops = reads ++ tail
    /\ Forall is_read reads
    /\ ((exists ext, tail = [(M0_OC_WRITE, ext)])
        \/ (tail = [] /\ rc <> 0))).

Lemma pwrite_aligned_writes_once (o : dstore_obj dstore_oid_t) buf size off m :
  let r := pwrite_aligned (heap_alloc orc) (ops orc) o buf size off m in
  exists t,
    snd r = m ++ t
    /\ (op_calls t = [(M0_OC_WRITE, [(off, size)])]
        \/ (op_calls t = [] /\ fst r <> 0)).
Proof.
  unfold pwrite_aligned, dstore_io_buf_init, dstore_io_buf2vec,
    dstore_io_op_write, dstore_io_op_init_and_submit, dstore_io_op_wait,
    dstore_io_op_fini.
  repeat (cbn; ask_oracle orc).
  all: cbn; rewrite <- ?app_assoc; eexists; (split; [reflexivity|]); cbn.
  all: try (left; reflexivity).
  all: right; split; [reflexivity|].
  all: unfold ENOMEM; try lia.
Qed.

Lemma reads_failed (rc : Z) (m m1 : world) :
  proceeds is_read m m1 -> rc <> 0 ->
  wrote_or_failed rc (op_calls (new_calls m m1)).
Proof.
  intros (t1 & -> & _ & Hr) Hrc.
  unfold new_calls. rewrite skipn_app, Nat.sub_diag, skipn_all. cbn [app skipn].
  exists (op_calls t1), []. rewrite app_nil_r. auto.
Qed.

Lemma write_once_after (o : dstore_obj dstore_oid_t) buf size off m m1 :
  proceeds is_read m m1 ->
  let r := pwrite_aligned (heap_alloc orc) (ops orc) o buf size off m1 in
  wrote_or_failed (fst r) (op_calls (new_calls m (snd r))).
Proof.
  intros (t1 & -> & _ & Hr).
  destruct (pwrite_aligned_writes_once o buf size off (m ++ t1))
    as (t & E & Hw). cbn zeta in *.
  rewrite E. unfold new_calls. rewrite <- app_assoc.
  rewrite skipn_app, Nat.sub_diag, skipn_all. cbn [app skipn].
  rewrite op_calls_app.
  exists (op_calls t1), (op_calls t). split; [reflexivity|].
  split; [exact Hr|].
  destruct Hw as [Hw | Hw]; [left; eexists; exact Hw | right; exact Hw].
Qed.

Lemma pwrite_unaligned_writes_once (o : dstore_obj dstore_oid_t)
    offset count bs buf m :
  let r := pwrite_unaligned (heap_alloc orc) (ops orc) o offset count bs
             buf m in
  wrote_or_failed (fst r) (op_calls (new_calls m (snd r))).
Proof.
  assert (Hneg : forall rc, (rc <? 0) = true -> rc <> 0)
    by (intros rc H; apply Z.ltb_lt in H; lia).
  unfold pwrite_unaligned, calloc.
  pose proof (heap_alloc_proceeds orc is_read m) as H0.
  destruct (heap_alloc orc m) as [[|] m1]; cbn [snd] in *;
    [|apply reads_failed; [exact H0 | unfold ENOMEM; cbn; lia]].
  match goal with
  | |- context [if ?c then pread_aligned_handle_holes _ _ _ ?b ?s ?f ?bs m1
                else _] =>
      pose proof (handle_holes_proceeds orc is_read o b s f bs m1
                    (reads_ok_read _ _ _)) as H1;
      destruct c
  end.
  - destruct (pread_aligned_handle_holes _ _ _ _ _ _ _ _) as [[rc1 t1] m2].
    cbn [snd] in H1.
    assert (H01 : proceeds is_read m m2) by (eapply proceeds_trans; eassumption).
    clear H0 H1.
    destruct (rc1 <? 0) eqn:E1; [apply reads_failed; auto|].
    match goal with
    | |- context [if ?c then _ else (rc1, t1, m2)] => destruct c
    end.
    + match goal with
      | |- context [pread_aligned_handle_holes _ _ _ ?b ?s ?f ?bs m2] =>
          pose proof (handle_holes_proceeds orc is_read o b s f bs m2
                        (reads_ok_read _ _ _)) as H2
      end.
      destruct (pread_aligned_handle_holes _ _ _ _ _ _ _ _) as [[rc2 blk] m3].
      cbn [snd] in H2.
      assert (H02 : proceeds is_read m m3)
        by (eapply proceeds_trans; eassumption).
      destruct (rc2 <? 0) eqn:E2; [apply reads_failed; auto|].
      apply write_once_after. exact H02.
    + rewrite E1. apply write_once_after. exact H01.
  - clear H1. cbn [Z.ltb Z.compare].
    match goal with
    | |- context [if ?c then _ else (0, ?t, m1)] => destruct c
    end.
    + match goal with
      | |- context [pread_aligned_handle_holes _ _ _ ?b ?s ?f ?bs m1] =>
          pose proof (handle_holes_proceeds orc is_read o b s f bs m1
                        (reads_ok_read _ _ _)) as H2
      end.
      destruct (pread_aligned_handle_holes _ _ _ _ _ _ _ _) as [[rc2 blk] m3].
      cbn [snd] in H2.
      assert (H02 : proceeds is_read m m3)
        by (eapply proceeds_trans; eassumption).
      destruct (rc2 <? 0) eqn:E2; [apply reads_failed; auto|].
      apply write_once_after. exact H02.
    + cbn [Z.ltb Z.compare].
      apply write_once_after. exact H0.
Qed.

Lemma pwrite_wrote_or_failed (o : dstore_obj dstore_oid_t)
    offset count bs buf m :
  let r := pwrite orc o offset count bs buf m in
  wrote_or_failed (fst r) (op_calls (new_calls m (snd r))).
Proof.
  unfold pwrite, dstore_pwrite, __dstore_pwrite.
  destruct ((count mod bs =? 0) && (to_size_t offset mod bs =? 0)).
  - apply write_once_after, proceeds_refl.
  - apply pwrite_unaligned_writes_once.
Qed.

(** Whatever Motr answers, the operations [dstore_pwrite] creates are
    reads followed by at most one write, which is the last operation of
    the call; a [dstore_pwrite] that returns 0 has created exactly one
    write, so a call that created none returned an error.  The
    operations [dstore_pread] creates are reads. *)
Theorem pwrite_writes_once_at_the_end (o : dstore_obj dstore_oid_t)
    offset count bs buf m :
  let r := pwrite orc o offset count bs buf m in
  reads_then_write (op_calls (new_calls m (snd r)))
  /\ (fst r = 0 -> reads_then_one_write (op_calls (new_calls m (snd r))))
  /\ Forall is_read
       (op_calls (new_calls m (snd (pread orc o offset count bs buf m)))).
Proof.
  intros r.
  destruct (pwrite_wrote_or_failed o offset count bs buf m)
    as (reads & tail & E & Hr & Hw). fold r in E, Hw.
  split; [|split].
  - exists reads, tail. split; [exact E|]. split; [exact Hr|].
    destruct Hw as [Hw | [Hw _]]; [right; exact Hw | left; exact Hw].
  - intros H0. destruct Hw as [[ext Hw] | [_ Hw]]; [|contradiction].
    exists reads, ext. subst tail. auto.
  - apply proceeds_new_calls, pread_reads.
    intros off size. apply reads_ok_read.
Qed.

End Writes.

(** ** The extents of a shrink *)

Section ShrinkExtents.

Variable orc : oracle.
Variables new_size old_size : Z.
Hypothesis Hbs : 0 < block_size orc < 4294967296.
Hypothesis Hnew : 0 <= new_size.
Hypothesis Hblk : old_size < 4294967296 * block_size orc.
Hypothesis Hfit : old_size + block_size orc < 9223372036854775808.

Local Abbreviation bs := (block_size orc).

Lemma shrink_loop_block_io (o : dstore_obj dstore_oid_t) buf n :
  forall s m,
    new_size + Z.of_nat (s + n) * DSAL_MAX_IO_SIZE <= old_size ->
    let r := shrink_loop (heap_alloc orc) (ops orc) o new_size bs buf n
               (Z.of_nat s) m in
    proceeds (block_io bs) m (snd r)
    /\ (fst (fst r) = 0 -> snd (fst r) = Z.of_nat (s + n)).
Proof.
  assert (Hmax : DSAL_MAX_IO_SIZE = 1048576) by reflexivity.
  induction n as [|n IH]; intros s m Hold; cbn [shrink_loop].
  - cbn. split; [apply proceeds_refl | intros _; f_equal; lia].
  - assert (Hofs : to_off_t (to_size_t (new_size
                     + to_size_t (Z.of_nat s * DSAL_MAX_IO_SIZE)))
                   = new_size + Z.of_nat s * DSAL_MAX_IO_SIZE).
    { rewrite (to_size_t_id (Z.of_nat s * _)) by (unfold in_size_t; lia).
      rewrite to_size_t_id by (unfold in_size_t; lia).
      apply to_off_t_id. unfold in_off_t, in_ssize_t. lia. }
    rewrite Hofs.
    pose proof (pwrite_block_io orc o
                  (new_size + Z.of_nat s * DSAL_MAX_IO_SIZE) DSAL_MAX_IO_SIZE
                  bs buf m) as H1.
    unfold pwrite in H1.
    destruct (dstore_pwrite _ _ _ _ _ _ _ _) as [rc m1]. cbn [snd] in H1.
    assert (H1' : proceeds (block_io bs) m m1)
      by (apply H1; unfold fits_uint32; lia).
    destruct (rc =? 0) eqn:Erc; cbn [negb];
      [|cbn; split; [exact H1'|]; intros ->; discriminate].
    replace (Z.of_nat s + 1) with (Z.of_nat (S s)) by lia.
    destruct (IH (S s) m1 ltac:(lia)) as (H2 & Hi).
    split; [eapply proceeds_trans; eassumption|].
    intros Hrc. rewrite (Hi Hrc). f_equal. lia.
Qed.

(** The block size as [dstore_obj_shrink] obtains it from the recorder. *)
Lemma recorder_bsize (oid : dstore_oid_t) m :
  to_size_t (dstore_get_bsize (ops orc) oid m) = bs.
Proof.
  unfold dstore_get_bsize, __dstore_get_bsize.
  cbn [obj_get_bsize ops cortx_dstore_ops]. unfold cortx_ds_obj_get_bsize.
  cbn [m0store_get_bsize api].
  rewrite (to_ssize_t_id bs) by (unfold in_ssize_t; lia).
  rewrite (to_size_t_id bs) by (unfold in_size_t; lia).
  rewrite (to_ssize_t_id bs) by (unfold in_ssize_t; lia).
  apply to_size_t_id. unfold in_size_t. lia.
Qed.

Lemma resize_block_io (o : dstore_obj dstore_oid_t) m :
  0 <= old_size ->
  proceeds (block_io bs) m (snd (resize orc o old_size new_size m)).
Proof.
  intros Hold0.
  assert (Hmax : DSAL_MAX_IO_SIZE = 1048576) by reflexivity.
  unfold resize, dstore_obj_resize.
  destruct (old_size <=? new_size) eqn:Ele; [apply proceeds_refl|].
  apply Z.leb_gt in Ele.
  unfold dstore_obj_shrink, calloc.
  rewrite recorder_bsize.
  pose proof (heap_alloc_proceeds orc (block_io bs) m) as H0.
  destruct (heap_alloc orc m) as [[|] m1]; cbn [snd] in *; [|exact H0].
  rewrite (to_size_t_id (old_size - new_size)) by (unfold in_size_t; lia).
  rewrite (to_off_t_id new_size) by (unfold in_off_t, in_ssize_t; lia).
  pose proof (Z.div_mod (old_size - new_size) DSAL_MAX_IO_SIZE ltac:(lia)) as Hdm.
  pose proof (Z.mod_pos_bound (old_size - new_size) DSAL_MAX_IO_SIZE ltac:(lia))
    as Hm.
  assert (Hq : 0 <= (old_size - new_size) / DSAL_MAX_IO_SIZE)
    by (apply Z.div_pos; lia).
  set (q := (old_size - new_size) / DSAL_MAX_IO_SIZE) in *.
  set (r := (old_size - new_size) mod DSAL_MAX_IO_SIZE) in *.
  rewrite (to_size_t_id (q * DSAL_MAX_IO_SIZE)) by (unfold in_size_t; lia).
  replace (old_size - new_size - q * DSAL_MAX_IO_SIZE) with r by lia.
  rewrite (to_size_t_id r) by (unfold in_size_t; lia).
  match goal with
  | |- context [shrink_loop _ _ _ _ _ ?bf ?n 0 m1] =>
      pose proof (shrink_loop_block_io o bf n 0 m1) as H1
  end.
  change (Z.of_nat 0) with 0 in H1. cbn zeta in H1.
  destruct (shrink_loop _ _ _ _ _ _ _ _ _) as [[rc index] m2] eqn:El.
  cbn [fst snd Nat.add] in H1. rewrite Z2Nat.id in H1 by lia.
  destruct (H1 ltac:(lia)) as (H12 & Hidx).
  assert (H01 : proceeds (block_io bs) m m2)
    by (eapply proceeds_trans; eassumption).
  destruct (negb (rc =? 0)) eqn:Erc; [exact H01|].
  apply negb_false_iff, Z.eqb_eq in Erc. subst rc.
  rewrite (Hidx eq_refl).
  destruct (negb (r =? 0)) eqn:Er; [|exact H01].
  apply negb_true_iff, Z.eqb_neq in Er.
  rewrite (to_size_t_id (q * DSAL_MAX_IO_SIZE)) by (unfold in_size_t; lia).
  rewrite to_size_t_id by (unfold in_size_t; lia).
  rewrite to_off_t_id by (unfold in_off_t, in_ssize_t; lia).
  eapply proceeds_trans; [exact H01|].
  apply (pwrite_block_io orc o (new_size + q * DSAL_MAX_IO_SIZE) r bs).
  unfold fits_uint32. lia.
Qed.

(** A shrink asks Motr for whole blocks only: with the block size the
    backend reports, every operation [dstore_obj_resize] creates is a
    READ or a WRITE whose extent starts at a multiple of the block size
    and is a multiple of the block size long. *)
Theorem shrink_sees_whole_blocks (o : dstore_obj dstore_oid_t) m :
  0 <= old_size ->
  Forall (block_io bs)
    (op_calls (new_calls m (snd (resize orc o old_size new_size m)))).
Proof.
  intros H. apply proceeds_new_calls, resize_block_io, H.
Qed.

End ShrinkExtents.

End RecorderWrites.

Module LedgerFacts.

Import Ledger.

Lemma ledger_oid_eqb_refl a : oid_eqb a a = true.
Proof. unfold oid_eqb. rewrite !Z.eqb_refl. reflexivity. Qed.

(** A failed open leaves nothing behind: [*out] is as it was, no
    allocation is left live, no Motr object is left open, and nothing
    was freed or closed that was not held. *)
Theorem obj_open_failure_leaves_nothing (oid : dstore_oid_t)
    (out out' : option (obj_ref nat dstore_oid_t)) (w w' : world) rc :
  open oid out w = (rc, out', w') ->
  rc <> 0 ->
  out' = out /\ holdings w' = holdings w.
Proof.
  destruct w as [pr bud nxt lv op mis].
  unfold open, dstore_obj_open, oops, cortx_dstore_obj_ops, cortx_ds_obj_open,
    cortx_dstore_obj_alloc, cortx_dstore_obj_free, api, holdings.
  cbn. unfold Ledger.m0_alloc_obj. cbn.
  destruct bud as [|n].
  - cbn. intros H Hrc. inversion H; subst. auto.
  - cbn. unfold Ledger.m0store_obj_open. cbn.
    destruct (pr oid).
    + cbn. intros H Hrc. inversion H; subst. contradiction.
    + cbn. rewrite Nat.eqb_refl. cbn.
      intros H Hrc. inversion H; subst. auto.
Qed.

(** An object that was opened carries the requested identifier and
    holds one allocation and one open Motr object; closing it returns 0
    and leaves the ledger as it was before the open. *)
Theorem obj_open_close_balanced (oid : dstore_oid_t)
    (out out' : option (obj_ref nat dstore_oid_t)) (w w' : world) :
  open oid out w = (0, out', w') ->
  exists r,
    out' = Some r
    /\ obj_oid (ref_obj r) = oid
    /\ holdings w' = (ref_ptr r :: live w, oid :: opened w, misuse w)
    /\ fst (close r w') = 0
    /\ holdings (snd (close r w')) = holdings w.
Proof.
  destruct w as [pr bud nxt lv op mis].
  unfold open, close, dstore_obj_open, dstore_obj_close, oops,
    cortx_dstore_obj_ops, cortx_ds_obj_open, cortx_ds_obj_close,
    cortx_dstore_obj_alloc, cortx_dstore_obj_free, api, holdings.
  cbn. unfold Ledger.m0_alloc_obj. cbn.
  destruct bud as [|n].
  - cbn. intros H. inversion H.
  - cbn. unfold Ledger.m0store_obj_open. cbn.
    destruct (pr oid).
    + cbn. intros H. inversion H; subst. eexists. split; [reflexivity|].
      cbn. unfold Ledger.m0store_obj_close. cbn.
      rewrite ledger_oid_eqb_refl. cbn. rewrite Nat.eqb_refl. cbn. auto.
    + cbn. intros H. inversion H.
Qed.

End LedgerFacts.


(** ** The facade over the plugin over the in-memory store *)

Module Checks.

Import MemMotr StoreSpec Effects Calls Scenario RoundTrip Views Framing
       StoreCompose StoreResize StoreInvariant RecorderExtents RecorderWrites LedgerFacts.

(** The scenarios of the unit tests hold on the model. *)

(** Inside-block write, then a read of the range and of the block. *)
Example test_inside_block_write :
  fst (write_fill 10 4 x41 store0) = 0
  /\ read_back 10 4 (after_write 10 4 x41 store0) = (0, fill x41 4)
  /\ read_back 0 16 (after_write 10 4 x41 store0)
     = (0, zeros 10 ++ fill x41 4 ++ zeros 2).
Proof. vm_compute. repeat split. Qed.

(** A write across a block boundary, aligned at neither end. *)
Example test_cross_block_write :
  read_back 0 32 (after_write 14 7 x42 (after_write 10 4 x41 store0))
  = (0, zeros 10 ++ fill x41 4 ++ fill x42 7 ++ zeros 11).
Proof. vm_compute. reflexivity. Qed.

(** A left-aligned write over several blocks that ends inside a block. *)
Example test_left_aligned_long_write :
  read_back 48 80 (after_write 48 67 x44 store0)
  = (0, fill x44 67 ++ zeros 13).
Proof. vm_compute. reflexivity. Qed.

(** A read over two holes and a written block. *)
Example test_sparse_hole_read :
  read_back 128 48 (after_write 160 16 x45 store0)
  = (0, zeros 32 ++ fill x45 16).
Proof. vm_compute. reflexivity. Qed.

(** Shrink to 0 of an object whose size is not a multiple of the block. *)
Example test_shrink_unaligned_old_size :
  fst (resize obj1 10 0 (after_write 0 10 x41 store0)) = 0
  /\ read_back 0 16 (snd (resize obj1 10 0 (after_write 0 10 x41 store0)))
     = (0, zeros 16).
Proof. vm_compute. repeat split. Qed.

(** Shrink by one block, then a read across the new end. *)
Example test_shrink_across_boundary :
  read_back 0 32 (snd (resize obj1 32 16 (after_write 0 32 x42 store0)))
  = (0, fill x42 16 ++ zeros 16).
Proof. vm_compute. reflexivity. Qed.

(** The operations of an unaligned write across two blocks: both edge
    blocks are read, then the two blocks are written at once. *)
Example test_write_reads_edges_then_writes :
  (let r := Recorder.pwrite (willing_oracle 0) obj1 14 7 bs (fill x42 7) [] in
   (fst r, Recorder.op_calls (new_calls [] (snd r))))
  = (0, [(M0_OC_READ, [(0, 16)]); (M0_OC_READ, [(16, 16)]);
         (M0_OC_WRITE, [(0, 32)])]).
Proof. vm_compute. reflexivity. Qed.

(** The edge reads stop the write on a negative rc only: a read that
    ends with -5 is the last operation of the call, a read that ends
    with 5 is followed by the write, and the call returns 0. *)
Example test_write_after_edge_read_rc :
  (let r := Recorder.pwrite (willing_oracle (-5)) obj1 4 8 bs (fill x42 8) [] in
   (fst r, Recorder.op_calls (new_calls [] (snd r))))
  = (-5, [(M0_OC_READ, [(0, 16)])])
  /\ (let r := Recorder.pwrite (willing_oracle 5) obj1 4 8 bs (fill x42 8) [] in
      (fst r, Recorder.op_calls (new_calls [] (snd r))))
     = (0, [(M0_OC_READ, [(0, 16)]); (M0_OC_WRITE, [(0, 16)])]).
Proof. vm_compute. split; reflexivity. Qed.

(** C1. Read-after-write round trip. The block numbers of
    [pwrite_unaligned] are [uint32_t]: at the first offset whose block
    number does not fit, a write of one block and one byte of 'A'
    returns 0 and lands at offset 0, and the read of the same range,
    which takes its aligned run at the true offset, returns 0 and
    delivers zeroes. *)
Theorem roundtrip_lost_past_uint32_blocks :
  write_fill far_offset 17 x41 store0
    = (0, after_write far_offset 17 x41 store0)
  /\ read_back far_offset 17 (after_write far_offset 17 x41 store0)
     = (0, zeros 17)
  /\ read_back 0 16 (after_write far_offset 17 x41 store0)
     = (0, fill x41 16).
Proof. vm_compute. repeat split. Qed.

(** C2. Write framing. A left-aligned write that ends inside its first
    block reads neither edge: after a block of 'B', writing 4 bytes 'A'
    at offset 0 returns 0 and turns bytes 4..15, which are outside the
    written range, from 'B' into zeroes. *)
Theorem left_aligned_short_write_clobbers_block :
  read_back 0 16 (after_write 0 16 x42 store0) = (0, fill x42 16)
  /\ fst (write_fill 0 4 x41 (after_write 0 16 x42 store0)) = 0
  /\ read_back 0 16 (after_write 0 4 x41 (after_write 0 16 x42 store0))
     = (0, fill x41 4 ++ zeros 12).
Proof. vm_compute. repeat split. Qed.

(** C4. Resize semantics. The zeroes of a shrink are not confined to
    [new_size, old_size): the trailing write goes through
    [dstore_pwrite], and with it through the two defects of
    [pwrite_unaligned]. A shrink from 4 to 0 over a block of 'B' returns
    0 and turns bytes 4..15, which are past the old size, into zeroes;
    a shrink of a sparse tail past the 32-bit block numbers returns 0
    and zeroes bytes 4..19 of the object, far below the new size. *)
Theorem shrink_zeroes_outside_range :
  read_back 0 16 (after_write 0 16 x42 store0) = (0, fill x42 16)
  /\ fst (resize obj1 4 0 (after_write 0 16 x42 store0)) = 0
  /\ read_back 0 16 (snd (resize obj1 4 0 (after_write 0 16 x42 store0)))
     = (0, zeros 16)
  /\ fst (resize obj1 (far_offset + 20) (far_offset + 4)
            (after_write 0 32 x42 store0)) = 0
  /\ read_back 0 32
       (snd (resize obj1 (far_offset + 20) (far_offset + 4)
               (after_write 0 32 x42 store0)))
     = (0, fill x42 4 ++ zeros 16 ++ fill x42 12).
Proof. vm_compute. repeat split. Qed.

(** C3, as first stated, fails: a request of a single block whose
    aligned read returns -ENOENT does not surface the error; the block
    is re-read, zero-filled, and the call returns 0. *)
Lemma single_block_enoent_is_swallowed :
  fst (fst (pread_aligned heap_alloc ops obj1 (fill xff 16) 16 0 store0))
    = - ENOENT
  /\ 16 / bs = 1
  /\ fst (pread_aligned_handle_holes heap_alloc ops obj1 (fill xff 16)
            16 0 bs store0)
     = (0, zeros 16).
Proof. vm_compute. repeat split. Qed.

(** C5, as first stated, fails: a value that matches no backend makes
    the assertion fail instead of returning -EINVAL, and a proper prefix
    of a registry name selects that backend. *)
Lemma unknown_type_asserts_and_prefix_selects :
  dstore_init api (cfg_of_type "posix") 0 unset_dstore store0 = AssertFailed
  /\ dstore_init api (cfg_of_type "co") 0 unset_dstore store0
     = Returned (0,
                 {| ds_type := Some "co"%string;
                    ds_cfg := Some (cfg_of_type "co");
                    ds_flags := 0; ds_ops := Some ops |},
                 store0).
Proof. split; reflexivity. Qed.

(** *** The general theorems at concrete inputs *)

Lemma dstore_alignment_dispatch_witness :
  (pwrite obj1 32 16 bs (fill x41 16) store0
     = pwrite_aligned heap_alloc ops obj1 (fill x41 16) 16 32 store0
   /\ pread obj1 32 16 bs (fill x41 16) store0
     = pread_aligned_handle_holes heap_alloc ops obj1 (fill x41 16)
         16 32 bs store0)
  /\
  (pwrite obj1 10 4 bs (fill x41 4) store0
     = pwrite_unaligned heap_alloc ops obj1 10 4 bs (fill x41 4) store0
   /\ pread obj1 10 4 bs (fill x41 4) store0
     = pread_unaligned heap_alloc ops obj1 10 4 bs (fill x41 4) store0).
Proof.
  split.
  - apply (dstore_alignment_dispatch heap_alloc ops obj1 32 16 bs
             (fill x41 16) store0); [reflexivity | lia |].
    split; [exists 2 | exists 1]; reflexivity.
  - apply (dstore_alignment_dispatch heap_alloc ops obj1 10 4 bs
             (fill x41 4) store0); [reflexivity | lia |].
    intros [[k Hk] _]. unfold bs in Hk. lia.
Defined.


Lemma dstore_get_bsize_passthrough_witness :
  obj_get_bsize ops oid1 store_bsize_error = - ENOENT
  /\ dstore_get_bsize ops oid1 store_bsize_error
     = obj_get_bsize ops oid1 store_bsize_error.
Proof.
  split; [reflexivity|].
  apply dstore_get_bsize_passthrough.
  change (in_ssize_t (- ENOENT)). unfold in_ssize_t, ENOENT. lia.
Defined.

Lemma pread_aligned_handle_holes_policy_witness :
  hole_retry heap_alloc ops obj1 bs 0 (32 / bs) 0
    (snd (fst (pread_aligned heap_alloc ops obj1 (fill xff 32) 32 0 store0)))
    (snd (pread_aligned heap_alloc ops obj1 (fill xff 32) 32 0 store0))
    (pread_aligned_handle_holes heap_alloc ops obj1 (fill xff 32) 32 0 bs
       store0).
Proof.
  refine (proj1 (proj2 (pread_aligned_handle_holes_policy heap_alloc ops obj1
                          (fill xff 32) 32 0 bs store0 (- ENOENT) _ _
                          _ _ _ _ _ _)) eq_refl);
    try reflexivity; try lia.
Defined.

Lemma dstore_obj_resize_semantics_witness :
  tiles 10 1048626 (shrink_requests 1048626 10)
  /\ shrink_requests 1048626 10 = [(10, 1048576); (1048586, 40)]
  /\ resize obj1 1048626 10 (after_write 0 48 x42 store0)
     = issue_writes heap_alloc ops obj1 16 (zeros DSAL_MAX_IO_SIZE)
         [(10, 1048576); (1048586, 40)]
         (snd (heap_alloc (after_write 0 48 x42 store0)))
  /\ resize obj1 100 3000000 store0 = (0, store0).
Proof.
  pose proof (proj2 (dstore_obj_resize_semantics heap_alloc ops obj1 1048626 10
                       (after_write 0 48 x42 store0) ltac:(lia) ltac:(lia))
                ltac:(lia)) as [Ht Hi].
  split; [exact Ht|]. split; [reflexivity|]. split.
  - apply (Hi (snd (heap_alloc (after_write 0 48 x42 store0)))).
    vm_compute. reflexivity.
  - apply (proj1 (dstore_obj_resize_semantics heap_alloc ops obj1 100 3000000
                    store0 ltac:(lia) ltac:(lia))). lia.
Defined.

Lemma cortx_ds_io_op_init_type_validation_witness :
  fst (fst (cortx_ds_io_op_init api obj1 DSTORE_IO_OP_READ
              (one_buf_vec 0 16) store0)) = 0
  /\ fst (cortx_ds_io_op_init api obj1 (DSTORE_IO_OP_OTHER 7)
             (one_buf_vec 0 16) store0) = (- EINVAL, None).
Proof.
  split.
  - rewrite (proj1 (cortx_ds_io_op_init_type_validation api obj1
                      DSTORE_IO_OP_READ (one_buf_vec 0 16) store0)
               (or_intror (or_introl eq_refl))
               (snd (heap_alloc store0))
               {| o_fid := oid1; o_code := M0_OC_READ;
                  o_ext := [(0, 16)]; o_bufs := [fill xff 16];
                  o_rc := 0; o_state := OS_INITIALISED |}
               (snd (heap_alloc (snd (heap_alloc store0))))
               eq_refl eq_refl).
    reflexivity.
  - rewrite (proj2 (cortx_ds_io_op_init_type_validation api obj1
                      (DSTORE_IO_OP_OTHER 7) (one_buf_vec 0 16) store0)
               7 eq_refl).
    reflexivity.
Defined.

Lemma dstore_obj_delete_enoent_witness :
  fst (dstore_obj_delete ops (9, 9) store0) = - ENOENT
  /\ log (snd (dstore_obj_delete ops (9, 9) store0))
     = [(LOG_WARN, "Non-existing obj"%string); (LOG_DEBUG, "EXIT"%string)].
Proof.
  pose proof (dstore_obj_delete_enoent api (9, 9) store0 store0 eq_refl) as H.
  destruct H as [H _]. unfold ops. rewrite H. split; reflexivity.
Defined.

Lemma dstore_init_backend_selection_witness :
  dstore_init api (cfg_of_type "cortx") 7 unset_dstore store0
  = Returned (0,
              {| ds_type := Some "cortx"%string;
                 ds_cfg := Some (cfg_of_type "cortx");
                 ds_flags := 7; ds_ops := Some ops |},
              store0).
Proof.
  apply (proj1 (proj2 (dstore_init_backend_selection api
                         (cfg_of_type "cortx") 7 unset_dstore store0))
           ("dstore", "type", "cortx")%string); reflexivity.
Defined.

Lemma pwrite_pread_roundtrip_witness :
  snd (read_back 10 4 (after_write 10 4 x41 store0)) = fill x41 4.
Proof.
  apply (pwrite_pread_roundtrip obj1 10 4 bs (fill x41 4) (fill xff 4)
           store0 (after_write 10 4 x41 store0) _
           (snd (pread obj1 10 4 bs (fill xff 4) (after_write 10 4 x41 store0)))).
  - lia.
  - right. unfold fits_uint32, bs. lia.
  - reflexivity.
  - reflexivity.
  - vm_compute. reflexivity.
  - vm_compute. reflexivity.
Defined.

Lemma pread_reads_stored_witness :
  snd (read_back 128 48 (after_write 160 16 x45 store0))
  = read_extent (write_extent (fun _ => None) 160 16 (fill x45 16)) 128 48.
Proof.
  apply (pread_reads_stored obj1 128 48 bs (fill xff 48)
           (after_write 160 16 x45 store0) _
           (snd (fst (pread obj1 128 48 bs (fill xff 48)
                        (after_write 160 16 x45 store0))))
           (snd (pread obj1 128 48 bs (fill xff 48)
                   (after_write 160 16 x45 store0)))).
  - unfold fits_uint32, bs. lia.
  - reflexivity.
  - reflexivity.
  - apply block_uniform_write; try reflexivity; try lia.
    intros b. right. reflexivity.
  - reflexivity.
  - vm_compute. reflexivity.
Defined.

Lemma pwrite_frame_witness :
  exists d',
    objects (after_write 10 4 x41 store0) (obj_ext obj1) = Some d'
    /\ (forall k, oid_eqb k (obj_ext obj1) = false ->
                  objects (after_write 10 4 x41 store0) k = objects store0 k)
    /\ block_uniform d' bs
    /\ written_in_frame (fun _ => None) d' 10 4 (fill x41 4).
Proof.
  apply (pwrite_frame obj1 10 4 bs (fill x41 4) store0
           (after_write 10 4 x41 store0) (fun _ => None)).
  - unfold fits_uint32, bs. lia.
  - reflexivity.
  - vm_compute. lia.
  - reflexivity.
  - intros b. right. reflexivity.
  - vm_compute. reflexivity.
Defined.

Lemma pwrite_unaligned_rmw_witness :
  pwrite_unaligned heap_alloc ops obj1 14 7 bs (fill x42 7) store0
  = rmw_write heap_alloc ops obj1 14 7 bs (fill x42 7) store0.
Proof.
  apply pwrite_unaligned_rmw.
  - unfold fits_uint32, bs. lia.
  - reflexivity.
Defined.

Lemma pread_total_witness :
  exists w',
    pread obj1 150 20 bs (fill xff 24) (after_write 160 16 x45 store0)
    = (0,
       blit (fill xff 24)
         (read_extent (write_extent (fun _ => None) 160 16 (fill x45 16))
            150 20),
       w').
Proof.
  apply (pread_total obj1 150 20 bs (fill xff 24)
           (after_write 160 16 x45 store0)
           (write_extent (fun _ => None) 160 16 (fill x45 16))).
  - unfold fits_uint32, bs. lia.
  - reflexivity.
  - reflexivity.
  - apply block_uniform_write; try reflexivity; try lia.
    intros b. right. reflexivity.
  - vm_compute. lia.
  - vm_compute. lia.
Defined.

Lemma pread_after_pwrite_witness :
  nth (Z.to_nat 5)
    (snd (fst (pread obj1 10 16 bs (fill xff 16)
                 (after_write 14 7 x42 store0)))) x00
  = if (14 <=? 10 + 5) && (10 + 5 <? 14 + 7)
    then nth (Z.to_nat (10 + 5 - 14)) (fill x42 7) x00
    else byte_at (fun _ => None) (10 + 5).
Proof.
  apply (pread_after_pwrite obj1 14 7 10 16 bs (fill x42 7) (fill xff 16)
           store0 (after_write 14 7 x42 store0) _
           (snd (pread obj1 10 16 bs (fill xff 16)
                   (after_write 14 7 x42 store0)))
           (fun _ => None)).
  - unfold fits_uint32, bs. lia.
  - unfold fits_uint32, bs. lia.
  - reflexivity.
  - reflexivity.
  - vm_compute. lia.
  - vm_compute. lia.
  - reflexivity.
  - intros b. right. reflexivity.
  - vm_compute. reflexivity.
  - vm_compute. reflexivity.
  - lia.
Defined.

Lemma zero_length_io_witness :
  (forall w', pwrite obj1 10 0 bs [] (after_write 0 16 x41 store0) = (0, w') ->
     exists d', objects w' (obj_ext obj1) = Some d'
                /\ forall k,
                     byte_at d' k
                     = byte_at (write_extent (fun _ => None) 0 16 (fill x41 16))
                         k)
  /\ (forall r w',
        pread obj1 10 0 bs (fill xff 4) (after_write 0 16 x41 store0)
          = (0, r, w') -> r = fill xff 4).
Proof.
  apply (zero_length_io obj1 10 bs [] (fill xff 4)
           (after_write 0 16 x41 store0)
           (write_extent (fun _ => None) 0 16 (fill x41 16))).
  - unfold fits_uint32, bs. lia.
  - reflexivity.
  - apply block_uniform_write; try reflexivity; try lia.
    intros b. right. reflexivity.
Defined.

Lemma store_stays_well_formed_witness :
  well_formed obj1 (bsize store0) store0
    (snd (pwrite obj1 10 4 (bsize store0) (fill x41 4) store0))
  /\ well_formed obj1 (bsize store0) store0
       (snd (pread obj1 10 4 (bsize store0) (fill xff 4) store0))
  /\ well_formed obj1 (bsize store0) store0 (snd (resize obj1 40 10 store0)).
Proof.
  apply (store_stays_well_formed obj1 store0 store0 10 4 (fill x41 4)
           (fill xff 4) 40 10).
  - unfold fits_uint32. cbn. unfold bs. lia.
  - vm_compute. lia.
  - lia.
  - cbn. unfold bs. lia.
  - cbn. unfold bs. lia.
  - exists (fun _ => None). split; [reflexivity|].
    split; [intros b; right; reflexivity | reflexivity].
Defined.

Lemma resize_shrinks_witness :
  (exists d',
     objects (snd (resize obj1 32 16 (after_write 0 32 x42 store0)))
       (obj_ext obj1) = Some d'
     /\ (forall k, oid_eqb k (obj_ext obj1) = false ->
           objects (snd (resize obj1 32 16 (after_write 0 32 x42 store0))) k
           = objects (after_write 0 32 x42 store0) k)
     /\ block_uniform d' (bsize (after_write 0 32 x42 store0))
     /\ shrunk_to (write_extent (fun _ => None) 0 32 (fill x42 32)) d' 16 32)
  /\ (forall offset count r0 r w2,
        16 <= offset -> 0 <= count < 4294967296 ->
        offset + count <= 32 ->
        count / bsize (after_write 0 32 x42 store0) < 2147483648 ->
        (Z.to_nat count <= length r0)%nat ->
        pread obj1 offset count (bsize (after_write 0 32 x42 store0)) r0
          (snd (resize obj1 32 16 (after_write 0 32 x42 store0)))
          = (0, r, w2) ->
        r = blit r0 (zeros count)).
Proof.
  assert (E : bsize (after_write 0 32 x42 store0) = 16)
    by (vm_compute; reflexivity).
  apply (resize_shrinks obj1 32 16 (after_write 0 32 x42 store0)
           (snd (resize obj1 32 16 (after_write 0 32 x42 store0)))
           (write_extent (fun _ => None) 0 32 (fill x42 32))).
  - lia.
  - rewrite E. lia.
  - rewrite E. lia.
  - rewrite E. lia.
  - reflexivity.
  - rewrite E. apply block_uniform_write; try reflexivity; try lia.
    intros b. right. reflexivity.
  - vm_compute. reflexivity.
Defined.

Lemma motr_sees_whole_blocks_witness :
  Forall (block_io bs)
    (Recorder.op_calls
       (new_calls []
          (snd (Recorder.pwrite holes_oracle obj1 14 7 bs (fill x42 7) []))))
  /\ Forall (block_read bs)
       (Recorder.op_calls
          (new_calls []
             (snd (Recorder.pread holes_oracle obj1 14 7 bs (fill x42 7)
                     [])))).
Proof.
  apply (motr_sees_whole_blocks holes_oracle obj1 14 7 bs (fill x42 7) []).
  unfold fits_uint32, bs. lia.
Defined.

Lemma shrink_sees_whole_blocks_witness :
  Forall (block_io (Recorder.block_size holes_oracle))
    (Recorder.op_calls
       (new_calls []
          (snd (Recorder.resize holes_oracle obj1 40 10 [])))).
Proof.
  apply (shrink_sees_whole_blocks holes_oracle 10 40); cbn; unfold bs; lia.
Defined.

Lemma obj_open_failure_leaves_nothing_witness :
  @None (obj_ref nat dstore_oid_t) = None
  /\ Ledger.holdings (snd (Ledger.open oid1 None ledger_empty))
     = Ledger.holdings ledger_empty.
Proof.
  apply (obj_open_failure_leaves_nothing oid1 None None ledger_empty
           (snd (Ledger.open oid1 None ledger_empty)) (- ENOENT)).
  - reflexivity.
  - discriminate.
Defined.

Lemma obj_open_close_balanced_witness :
  exists r,
    fst (fst (Ledger.open oid1 None ledger0)) = 0
    /\ snd (fst (Ledger.open oid1 None ledger0)) = Some r
    /\ obj_oid (ref_obj r) = oid1
    /\ Ledger.holdings (snd (Ledger.open oid1 None ledger0))
       = (ref_ptr r :: Ledger.live ledger0, oid1 :: Ledger.opened ledger0,
          Ledger.misuse ledger0)
    /\ fst (Ledger.close r (snd (Ledger.open oid1 None ledger0))) = 0
    /\ Ledger.holdings
         (snd (Ledger.close r (snd (Ledger.open oid1 None ledger0))))
       = Ledger.holdings ledger0.
Proof.
  destruct (obj_open_close_balanced oid1 None
              (snd (fst (Ledger.open oid1 None ledger0))) ledger0
              (snd (Ledger.open oid1 None ledger0)) eq_refl)
    as (r & H1 & H2 & H3 & H4 & H5).
  exists r. repeat split; assumption.
Defined.

End Checks.
